(** * Naming server of the distributed file system

    A shallow embedding of [distributed_file_system/naming/NamingServer.go]:
    the location tree, the per-location lock queues, the access counters,
    the registry of storage servers and the two HTTP handlers, together with
    the properties of the naming service that were checked against it.

    Conventions of the embedding:
    - a Go [string] is a sequence of bytes, here [string] (a list of [ascii]);
    - a Go [int] is a 64-bit two's complement integer, here a [Z] with the
      wrap-around of [++] written out ([int_succ]);
    - a Go slice passed to a callee shares its backing array with the caller:
      the functions that shift a slice in place return the new contents of
      the caller's slice next to their result;
    - an index out of range panics: such functions return [None];
    - the outbound HTTP requests of a handler are collected in a list, in the
      order in which they are attempted;
    - a request is taken as decoded from its JSON body, and a handler runs
      from its first statement to its last without another handler in
      between; a handler that enters a wait loop of [LockLocation] ends
      with [NoReply], and the interleaving of the requests at one location
      is the transition system [act] below. *)

From Stdlib Require Import ZArith Ascii String List Bool Lia.
From stdpp Require Import base option list gmap strings.

Import ListNotations.
Local Open Scope string_scope.
Local Open Scope list_scope.
Local Open Scope Z_scope.

#[local] Set Warnings "-register-all".

(** ** The functions of Go's [strings] package that the server uses *)

Module GoStrings.

(** [strings.HasPrefix(s, prefix)] *)
Fixpoint HasPrefix (s prefix : string) : bool :=
  match prefix, s with
  | EmptyString, _ => true
  | String _ _, EmptyString => false
  | String p prefix', String c s' => Ascii.eqb c p && HasPrefix s' prefix'
  end.

(** [strings.Contains(s, substr)]: [substr] occurs somewhere in [s]. *)
Fixpoint Contains (s substr : string) : bool :=
  HasPrefix s substr
  || match s with
     | EmptyString => false
     | String _ s' => Contains s' substr
     end.

(** Membership of a byte in a cutset. *)
Fixpoint InCutset (c : ascii) (cutset : string) : bool :=
  match cutset with
  | EmptyString => false
  | String d cutset' => Ascii.eqb c d || InCutset c cutset'
  end.

(** [strings.TrimLeft(s, cutset)]: drop every leading byte of [s] that is
    in [cutset]. *)
Fixpoint TrimLeft (s cutset : string) : string :=
  match s with
  | EmptyString => EmptyString
  | String c s' => if InCutset c cutset then TrimLeft s' cutset else s
  end.

(** [strings.Split(s, sep)] for a separator of one byte (the server only
    ever splits on ["/"]): the pieces between the separators, one more
    piece than there are separators. *)
Fixpoint Split (s : string) (sep : ascii) : list string :=
  match s with
  | EmptyString => [EmptyString]
  | String c s' =>
      if Ascii.eqb c sep then EmptyString :: Split s' sep
      else match Split s' sep with
           | piece :: pieces => String c piece :: pieces
           | [] => [String c EmptyString]
           end
  end.

End GoStrings.

Import GoStrings.

(** ** Paths *)

(** [IsPathValid], NamingServer.go l.327. *)
Definition IsPathValid (path : string) : bool :=
  (0 <? String.length path)%nat
  && match String.get 0 path with
     | Some c => Ascii.eqb c "/"
     | None => false
     end
  && negb (Contains path ":").

(** The path validator as the specification words it: non-empty, a leading
    ["/"], no [":"], and no empty segment (no ["//"]). *)
Definition PathCodec_accepts (s : string) : bool :=
  negb (String.eqb s "")
  && HasPrefix s "/"
  && negb (Contains s ":")
  && negb (Contains s "//").

(** ** Data of the naming server *)

(** Go's [int]: 64 bits, two's complement. [n++] wraps at the largest
    value. *)
Definition max_int : Z := 2 ^ 63 - 1.
Definition min_int : Z := - 2 ^ 63.
Definition int_succ (n : Z) : Z := if n =? max_int then min_int else n + 1.

(** [type Lock struct], l.922. [queue_index] is not part of the JSON: a
    decoded request carries 0 there. *)
Record Lock := mkLock {
  PathString : string;
  Exclusive : bool;
  queue_index : Z
}.

(** [type Location struct], l.137. Every location is created by
    [AppendNewLocation] and appended to exactly one list of sub-locations,
    so the pointer structure is a tree. *)
Inductive Location := mkLocation {
  name : string;
  subLocations : list Location;
  locks : list Lock;
  lock_queue : list Lock;
  num_locks : Z;
  exclusive_locks_waiting : list Z
}.

(** [type StorageServer struct], l.887. *)
Record StorageServer := mkStorageServer {
  StorageIP : string;
  ClientPort : Z;
  CommandPort : Z;
  Files : list string
}.

(** The fields of [type NamingServer struct] (l.110) that the handlers read
    and write; the listeners and the [running] flag are left out. *)
Record NamingServer := mkNamingServer {
  registry : list StorageServer;
  root : Location;
  access_counts : gmap string Z
}.

(** [&Location{name: n, locks: []Lock{}}] *)
Definition newLocation (n : string) : Location := mkLocation n [] [] [] 0 [].

(** The server as [main] creates it, l.1734. *)
Definition initial_server : NamingServer :=
  mkNamingServer [] (newLocation "/") ∅.

Definition set_subLocations (l : Location) (subs : list Location) : Location :=
  mkLocation (name l) subs (locks l) (lock_queue l) (num_locks l)
             (exclusive_locks_waiting l).

Definition set_locks (l : Location) (ls : list Lock) : Location :=
  mkLocation (name l) (subLocations l) ls (lock_queue l) (num_locks l)
             (exclusive_locks_waiting l).

Definition set_lock_queue (l : Location) (q : list Lock) : Location :=
  mkLocation (name l) (subLocations l) (locks l) q (num_locks l)
             (exclusive_locks_waiting l).

Definition set_num_locks (l : Location) (n : Z) : Location :=
  mkLocation (name l) (subLocations l) (locks l) (lock_queue l) n
             (exclusive_locks_waiting l).

Definition set_exclusive_locks_waiting (l : Location) (w : list Z) : Location :=
  mkLocation (name l) (subLocations l) (locks l) (lock_queue l) (num_locks l) w.

(** Is there a sub-location of that name? *)
Definition has_sub (n : string) (subs : list Location) : bool :=
  existsb (fun sub => String.eqb n (name sub)) subs.

(** ** The location tree *)

(** The caller's slice after [rest := append(names[:0], names[1:]...)] and
    a callee that left [rest'] in the shared backing array: the elements
    moved one place to the left, the last place keeps its old value. *)
Definition reslice (rest' names : list string) : list string :=
  rest' ++ [List.last names ""].

(** [LocationExists], l.423. [ret] is the caller's boolean, passed by
    pointer. The result is the new contents of [locationNames] and of [ret];
    [None] when [locationNames[0]] is out of range. *)
Fixpoint LocationExists (currentLocation : Location)
    (locationNames : list string) (ret : bool) {struct currentLocation}
    : option (list string * bool) :=
  match currentLocation with
  | mkLocation _ subs _ _ _ _ =>
      if (length locationNames =? 1)%nat && (0 <? length subs)%nat then
        match locationNames with
        | finalLocation :: _ => Some (locationNames, has_sub finalLocation subs)
        | [] => None
        end
      else
        match locationNames with
        | [] => None
        | midwayLocation :: _ =>
            (fix each_sub (subs : list Location) (names : list string)
                 (ret : bool) {struct subs} : option (list string * bool) :=
               match subs with
               | [] => Some (names, ret)
               | sub :: subs' =>
                   if String.eqb midwayLocation (name sub) then
                     match LocationExists sub (tl names) ret with
                     | Some (rest', ret') =>
                         each_sub subs' (reslice rest' names) ret'
                     | None => None
                     end
                   else each_sub subs' names ret
               end) subs locationNames ret
        end
  end.

(** The names of the sub-locations of every sub-location called [n]. *)
Definition contents_of (n : string) (subs : list Location) : list string :=
  flat_map (fun sub => if String.eqb (name sub) n
                       then map name (subLocations sub) else []) subs.

(** [GetContentsAt], l.373. The result is the new contents of
    [locationNames] and of the list [ret] points to. *)
Fixpoint GetContentsAt (currentLocation : Location)
    (locationNames : list string) (ret : list string) {struct currentLocation}
    : option (list string * list string) :=
  match currentLocation with
  | mkLocation nm subs _ _ _ _ =>
      if (length locationNames =? 1)%nat then
        match locationNames with
        | lastLocation :: _ =>
            if String.eqb nm "/" && String.eqb lastLocation nm
            then Some (locationNames, ret ++ map name subs)
            else Some (locationNames, ret ++ contents_of lastLocation subs)
        | [] => None
        end
      else
        (fix each_sub (subs : list Location) (names : list string)
             (ret : list string) {struct subs}
             : option (list string * list string) :=
           match subs with
           | [] => Some (names, ret)
           | sub :: subs' =>
               match names with
               | [] => None
               | midwayLocation :: _ =>
                   if String.eqb (name sub) midwayLocation then
                     match GetContentsAt sub (tl names) ret with
                     | Some (rest', ret') =>
                         each_sub subs' (reslice rest' names) ret'
                     | None => None
                     end
                   else each_sub subs' names ret
               end
           end) subs locationNames ret
  end.

(** [AppendNewLocation], l.521. Every recursive call is on the slice
    without its first element, on the same location or on a sub-location;
    the in-place shift of [locationNames] is not read again by any caller.
    [None] when [locationNames[0]] is out of range. *)
Fixpoint AppendNewLocation (locationNames : list string)
    (currentLocation : Location) {struct locationNames} : option Location :=
  match locationNames with
  | [] => None
  | [finalLocation] =>
      Some (set_subLocations currentLocation
              (subLocations currentLocation ++ [newLocation finalLocation]))
  | midwayLocation :: otherLocations =>
      if String.eqb (name currentLocation) midwayLocation then
        AppendNewLocation otherLocations currentLocation
      else
        (fix each_sub (before subs : list Location) {struct subs}
             : option Location :=
           match subs with
           | sub :: subs' =>
               if String.eqb (name sub) midwayLocation then
                 match AppendNewLocation otherLocations sub with
                 | Some sub' =>
                     Some (set_subLocations currentLocation
                             (before ++ sub' :: subs'))
                 | None => None
                 end
               else each_sub (before ++ [sub]) subs'
           | [] =>
               (* no sub-location of that name: create it, then descend *)
               match AppendNewLocation otherLocations
                       (newLocation midwayLocation) with
               | Some newMidwayLocation =>
                   Some (set_subLocations currentLocation
                           (before ++ [newMidwayLocation]))
               | None => None
               end
           end) [] (subLocations currentLocation)
  end.

(** What the search for the midway location in [CheckNewPath] found. *)
Inductive Descent :=
  | NoSuchSub
  | Descended (subs' : list Location) (result : bool)
  | DescentPanic.

(** [CheckNewPath], l.460: the new tree and the returned boolean. *)
Fixpoint CheckNewPath (currentLocation : Location)
    (locationNames : list string) (idx : nat) {struct currentLocation}
    : option (Location * bool) :=
  match currentLocation with
  | mkLocation nm subs lks q n elw =>
      if (length subs =? 0)%nat then
        match AppendNewLocation locationNames currentLocation with
        | Some l => Some (l, true)
        | None => None
        end
      else if (S idx =? length locationNames)%nat then
        let finalLocation := List.last locationNames "" in
        if has_sub finalLocation subs then Some (currentLocation, false)
        else match AppendNewLocation [finalLocation] currentLocation with
             | Some l => Some (l, true)
             | None => None
             end
      else
        match locationNames !! idx with
        | None => None
        | Some midwayLocation =>
            match
              (fix each_sub (subs : list Location) {struct subs} : Descent :=
                 match subs with
                 | [] => NoSuchSub
                 | sub :: subs' =>
                     if String.eqb midwayLocation (name sub) then
                       match CheckNewPath sub locationNames (S idx) with
                       | Some (sub', b) => Descended (sub' :: subs') b
                       | None => DescentPanic
                       end
                     else match each_sub subs' with
                          | Descended subs'' b => Descended (sub :: subs'') b
                          | r => r
                          end
                 end) subs
            with
            | DescentPanic => None
            | Descended subs' b => Some (mkLocation nm subs' lks q n elw, b)
            | NoSuchSub =>
                match AppendNewLocation (drop idx locationNames)
                        currentLocation with
                | Some l => Some (l, true)
                | None => None
                end
            end
        end
  end.

(** [ContainsX], l.334. *)
Definition ContainsX (parentDirectory : list string) (x : string) : bool :=
  existsb (fun location => Contains location x) parentDirectory.

(** ** Locks *)

(** [locks[0].Exclusive] behind the guard [len(locks) >= 1]. *)
Definition first_is_shared (ls : list Lock) : bool :=
  match ls with
  | l :: _ => negb (Exclusive l)
  | [] => false
  end.

Definition first_is_exclusive (ls : list Lock) : bool :=
  match ls with
  | l :: _ => Exclusive l
  | [] => false
  end.

(** [len(w) > 0 && queue_index >= w[0]]: the request is not older than the
    oldest exclusive request on record. *)
Definition behind_exclusive (w : list Z) (queue_index : Z) : bool :=
  match w with
  | first :: _ => first <=? queue_index
  | [] => false
  end.

(** [Pop], l.345. [None] when [locks[0]] or [exclusive_locks_waiting[1:]]
    is out of range. *)
Definition Pop (currentLocation : Location) (unlock : Lock) : option Location :=
  match lock_queue currentLocation with
  | [] => Some currentLocation
  | topOfQueue :: queue' =>
      match locks currentLocation with
      | [] => None
      | currentLock :: _ =>
          if negb (Exclusive unlock) && negb (Exclusive currentLock)
             && negb (Exclusive topOfQueue)
          then Some (set_lock_queue currentLocation queue')
          else if Exclusive unlock && Exclusive topOfQueue
                  && Exclusive currentLock
          then match exclusive_locks_waiting currentLocation with
               | _ :: waiting' =>
                   Some (set_exclusive_locks_waiting
                           (set_lock_queue currentLocation queue') waiting')
               | [] => None
               end
          else Some currentLocation
      end
  end.

(** A request at the location it asks for: it holds the lock, or it spins
    in the wait loop with the queue index it was given. *)
Inductive Acquire :=
  | Granted (l : Location)
  | Waits (l : Location) (lock : Lock).

(** The base case of [LockLocation] up to its first wait, l.650-731: the
    request takes a queue index, joins the queue (and the exclusive waiters
    when exclusive) and is granted at once or starts to spin. *)
Definition lock_request (currentLocation : Location) (lock : Lock) : Acquire :=
  let n := int_succ (num_locks currentLocation) in
  let lock := mkLock (PathString lock) (Exclusive lock) n in
  let waiting :=
    if Exclusive lock
    then exclusive_locks_waiting currentLocation ++ [n]
    else exclusive_locks_waiting currentLocation in
  let l :=
    set_exclusive_locks_waiting
      (set_lock_queue (set_num_locks currentLocation n)
         (lock_queue currentLocation ++ [lock])) waiting in
  if negb (Exclusive lock) && (length waiting <? 1)%nat
     && (1 <=? length (locks l))%nat && first_is_shared (locks l)
  then Granted (set_locks l (locks l ++ [lock]))
  else if (0 <? length (locks l))%nat then Waits l lock
  else Granted (set_locks l (locks l ++ [lock])).

(** One turn of the wait loop of a spinning request, l.677-723. *)
Definition lock_poll (currentLocation : Location) (lock : Lock) : Acquire :=
  let l := currentLocation in
  if (length (locks l) =? 0)%nat then
    let topOfQueue := match lock_queue l with
                      | top :: _ => top
                      | [] => lock
                      end in
    if Exclusive topOfQueue
       && negb (queue_index lock =? queue_index topOfQueue)
    then Waits l lock
    else if negb (Exclusive topOfQueue)
            && behind_exclusive (exclusive_locks_waiting l) (queue_index lock)
    then Waits l lock
    else Granted (set_locks l (locks l ++ [lock]))
  else if first_is_shared (locks l) then
    if behind_exclusive (exclusive_locks_waiting l) (queue_index lock)
    then Waits l lock
    else Granted (set_locks l (locks l ++ [lock]))
  else Waits l lock.

(** The shared lock that a request takes on a location it passes through,
    l.758-768 and l.785-795: queued and held at once. *)
Definition take_prefix_lock (currentLocation : Location) : Location :=
  let n := int_succ (num_locks currentLocation) in
  let sl := mkLock (name currentLocation) false n in
  let l := set_lock_queue (set_num_locks currentLocation n)
             (lock_queue currentLocation ++ [sl]) in
  set_locks l (locks l ++ [sl]).

(** A location on the way, l.743-800: [None] while the location is held by
    one exclusive lock (the request spins until [locks] is empty), else the
    location with the shared lock taken. *)
Definition prefix_lock (currentLocation : Location) : option Location :=
  if (length (locks currentLocation) =? 1)%nat
     && first_is_exclusive (locks currentLocation)
  then None
  else Some (take_prefix_lock currentLocation).

(** [strings.Split(path, "/")[1:]] *)
Definition locations_of (path : string) : list string := tl (Split path "/").

(** The test that opens [LockLocation] and [UnlockLocation]:
    [name == PathString || locations[len(locations)-1] == name]; [None] when
    the index is out of range. *)
Definition is_target (currentLocation : Location) (path : string)
    : option bool :=
  if String.eqb (name currentLocation) path then Some true
  else match last (locations_of path) with
       | Some l => Some (String.eqb l (name currentLocation))
       | None => None
       end.

(** How a call of [LockLocation] ends. *)
Inductive LockResult :=
  | Locked (l : Location)        (* [*ret = true] *)
  | Spinning (l : Location)      (* in a wait loop, at the target or on the way *)
  | NotReached (l : Location)    (* no sub-location of the next name: returns *)
  | LockPanic.

(** [LockLocation], l.643, run until it returns or starts to spin. *)
Fixpoint LockLocation (currentLocation : Location) (lock : Lock) (idx : nat)
    {struct currentLocation} : LockResult :=
  match currentLocation with
  | mkLocation nm subs lks q n elw =>
      match is_target currentLocation (PathString lock) with
      | None => LockPanic
      | Some true =>
          match lock_request currentLocation lock with
          | Granted l => Locked l
          | Waits l _ => Spinning l
          end
      | Some false =>
          match locations_of (PathString lock) !! idx with
          | None => LockPanic
          | Some nextLocation =>
              (fix each_sub (before subs : list Location) {struct subs}
                   : LockResult :=
                 match subs with
                 | [] => NotReached currentLocation
                 | sub :: subs' =>
                     if String.eqb nextLocation (name sub) then
                       match prefix_lock currentLocation with
                       | None => Spinning currentLocation
                       | Some l =>
                           let put sub' :=
                             set_subLocations l (before ++ sub' :: subs') in
                           match LockLocation sub lock (S idx) with
                           | Locked sub' => Locked (put sub')
                           | Spinning sub' => Spinning (put sub')
                           | NotReached sub' => NotReached (put sub')
                           | LockPanic => LockPanic
                           end
                       end
                     else each_sub (before ++ [sub]) subs'
                 end) [] subs
          end
      end
  end.

(** The target case of [UnlockLocation], l.826-848: the location after the
    unlock and the new value of [*ret]; [None] on a panic. *)
Definition unlock_target (currentLocation : Location) (unlock : Lock)
    (ret : bool) : option (Location * bool) :=
  let lks := locks currentLocation in
  if negb (Exclusive unlock) && (1 <=? length lks)%nat && first_is_shared lks
  then match Pop currentLocation unlock with
       | Some l => Some (set_locks l (tl (locks l)), true)
       | None => None
       end
  else if Exclusive unlock && (length lks =? 1)%nat && first_is_exclusive lks
  then match Pop currentLocation unlock with
       | Some l => Some (set_locks l (tl (locks l)), true)
       | None => None
       end
  else Some (currentLocation, ret).

(** A location on the way of an unlock, l.863-872: one shared lock is
    removed when the first held lock is shared. *)
Definition unlock_prefix (currentLocation : Location) : option Location :=
  match locks currentLocation with
  | held :: _ =>
      if negb (Exclusive held) then
        match Pop currentLocation held with
        | Some l => Some (set_locks l (tl (locks l)))
        | None => None
        end
      else Some currentLocation
  | [] => Some currentLocation
  end.

(** [UnlockLocation], l.814: the new tree and the new value of [*ret];
    [None] on a panic. *)
Fixpoint UnlockLocation (currentLocation : Location) (unlock : Lock)
    (idx : nat) (ret : bool) {struct currentLocation}
    : option (Location * bool) :=
  match currentLocation with
  | mkLocation nm subs lks q n elw =>
      match is_target currentLocation (PathString unlock) with
      | None => None
      | Some true => unlock_target currentLocation unlock ret
      | Some false =>
          match locations_of (PathString unlock) !! idx with
          | None => None
          | Some nextLocation =>
              (fix each_sub (before subs : list Location) {struct subs}
                   : option (Location * bool) :=
                 match subs with
                 | [] => Some (currentLocation, ret)
                 | sub :: subs' =>
                     if String.eqb (name sub) nextLocation then
                       match unlock_prefix currentLocation with
                       | None => None
                       | Some l =>
                           match UnlockLocation sub unlock (S idx) ret with
                           | Some (sub', ret') =>
                               Some (set_subLocations l
                                       (before ++ sub' :: subs'), ret')
                           | None => None
                           end
                       end
                     else each_sub (before ++ [sub]) subs'
                 end) [] subs
          end
      end
  end.

(** *** The lock state of one location as a transition system

    Requests arrive at a location, spin in its wait loop, pass through it
    and release it; every critical section under [mu] is one step. *)

(** A location together with the requests that spin in its wait loop. *)
Record Node := mkNode {
  location : Location;
  spinning : list Lock
}.

Inductive Action :=
  | Arrive (lock : Lock)      (* a request for this location, l.650 *)
  | Poll (lock : Lock)        (* one turn of the wait loop, l.679 *)
  | PassThrough               (* a request for a location below, l.743 *)
  | Release (unlock : Lock)   (* an unlock of this location, l.826 *)
  | ReleasePrefix.            (* an unlock of a location below, l.863 *)

Definition lock_eqb (a b : Lock) : bool :=
  String.eqb (PathString a) (PathString b)
  && Bool.eqb (Exclusive a) (Exclusive b)
  && (queue_index a =? queue_index b).

(** One step: the node afterwards and the request that was granted by the
    step, if any. [None] when the action is not enabled. *)
Definition act (n : Node) (a : Action) : option (Node * option Lock) :=
  match a with
  | Arrive lock =>
      match lock_request (location n) lock with
      | Granted l => Some (mkNode l (spinning n), last (locks l))
      | Waits l w => Some (mkNode l (spinning n ++ [w]), None)
      end
  | Poll lock =>
      if existsb (lock_eqb lock) (spinning n) then
        match lock_poll (location n) lock with
        | Granted l =>
            Some (mkNode l (filter (fun w => negb (lock_eqb lock w))
                              (spinning n)),
                  Some lock)
        | Waits l _ => Some (mkNode l (spinning n), None)
        end
      else None
  | PassThrough =>
      match prefix_lock (location n) with
      | Some l => Some (mkNode l (spinning n), last (locks l))
      | None => None
      end
  | Release unlock =>
      match unlock_target (location n) unlock false with
      | Some (l, true) => Some (mkNode l (spinning n), None)
      | _ => None
      end
  | ReleasePrefix =>
      match unlock_prefix (location n) with
      | Some l => Some (mkNode l (spinning n), None)
      | None => None
      end
  end.

(** A run of actions from a node, with the grant of the last step. *)
Fixpoint run (n : Node) (actions : list Action) (granted : option Lock)
    : option (Node * option Lock) :=
  match actions with
  | [] => Some (n, granted)
  | a :: actions' =>
      match act n a with
      | Some (n', g) => run n' actions' g
      | None => None
      end
  end.

(** The root of a server that has just started, with nobody waiting. *)
Definition fresh_node : Node := mkNode (newLocation "/") [].

(** The step relation and the states it reaches. *)
Definition step (n : Node) (granted : option Lock) (n' : Node) : Prop :=
  exists a, act n a = Some (n', granted).

Inductive reachable : Node -> Prop :=
  | reachable_fresh : reachable fresh_node
  | reachable_step n g n' : reachable n -> step n g n' -> reachable n'.

(** A shared request is granted while an exclusive request with a strictly
    smaller queue index still spins at the same location. *)
Definition overtakes (granted : Lock) (n : Node) : Prop :=
  Exclusive granted = false
  /\ exists w, In w (spinning n) /\ Exclusive w = true
              /\ queue_index w < queue_index granted.

(** ** Commands to the storage servers *)

(** The three commands of the storage command interface, with the JSON
    body that the naming server sends. *)
Inductive StorageCommand :=
  | storage_create (path : string)
  | storage_delete (path : string)
  | storage_copy (path : string) (server_ip : string) (server_port : Z).

(** An HTTP request to [http://localhost:port]. *)
Record Sent := mkSent {
  to_port : Z;
  command : StorageCommand
}.

(** The answers of the naming server. *)
Inductive ExceptionType :=
  | IllegalArgumentException
  | FileNotFoundException
  | IllegalStateException.

Inductive Reply :=
  | ServiceResponse (success : bool)                      (* 200 *)
  | ExceptionResponse (status : Z) (exception_type : ExceptionType)
  | FilesResponse (files : list string)                   (* 200 *)
  | StorageInfo (server_ip : string) (server_port : Z)    (* 200 *)
  | EmptyOK                                               (* 200, no body *)
  | UnknownCommand                                        (* 400 *)
  | NoReply.                             (* the handler spins in a wait loop *)

(** A handled request: the reply, the server afterwards and the requests
    sent to storage servers meanwhile. *)
Record Outcome := mkOutcome {
  reply : Reply;
  server : NamingServer;
  sent : list Sent
}.

(** The requests of the service interface, decoded. *)
Inductive Request :=
  | is_valid_path (path : string)
  | is_directory (path : string)
  | list_ (path : string)
  | create_directory (path : string)
  | create_file (path : string)
  | get_storage (path : string)
  | lock_ (path : string) (exclusive : bool)
  | unlock_ (path : string) (exclusive : bool)
  | delete_ (path : string)
  | unknown.

Section Handlers.

(** The storage servers, as seen through [client.Do]: [None] is a
    transport error, [Some b] a response whose body is
    [{"success": b}]. *)
Variable storage : Z -> StorageCommand -> option bool.

(** The loops [for _, port := range ports] of [SendDelete] and
    [CallStorageCopy]: a request to every port that is not skipped, until
    one fails. *)
Fixpoint send_each (ports : list Z) (skip : Z -> bool)
    (cmd : StorageCommand) : list Sent :=
  match ports with
  | [] => []
  | port :: ports' =>
      if skip port then send_each ports' skip cmd
      else mkSent port cmd
           :: match storage port cmd with
              | Some _ => send_each ports' skip cmd
              | None => []
              end
  end.

(** "Find which Storage Server owns which file", l.197 and l.266: the
    client and command ports of the last registered server that lists
    [file], zero when there is none. *)
Definition find_owner (reg : list StorageServer) (file : string) : Z * Z :=
  fold_left
    (fun owner ss =>
       if existsb (String.eqb file) (Files ss)
       then (ClientPort ss, CommandPort ss) else owner)
    reg (0, 0).

(** [SendDelete], l.190. *)
Definition SendDelete (s : NamingServer) (file : string) (all : bool)
    : list Sent :=
  let owner_command_port := snd (find_owner (registry s) file) in
  let ports := map CommandPort (registry s) in
  if (1 <? length (registry s))%nat then
    send_each ports
      (fun port => (port =? owner_command_port) && negb all)
      (storage_delete file)
  else [].

(** [CallStorageCopy], l.259. *)
Definition CallStorageCopy (s : NamingServer) (file : string) : list Sent :=
  let owner_port := fst (find_owner (registry s) file) in
  let owner_command_port := snd (find_owner (registry s) file) in
  let ports := map CommandPort (registry s) in
  if (1 <? length (registry s))%nat && negb (owner_port =? 0) then
    send_each ports (fun port => port =? owner_command_port)
      (storage_copy file "127.0.0.1" owner_port)
  else [].

(** [Increment_Access_Count], l.161: the new counters and the requests
    sent. *)
Definition Increment_Access_Count (s : NamingServer) (file : string)
    : gmap string Z * list Sent :=
  let counts :=
    match access_counts s !! file with
    | Some n => <[file := int_succ n]> (access_counts s)
    | None => <[file := 1]> (access_counts s)
    end in
  if 20 <=? default 0 (counts !! file)
  then (<[file := 0]> counts, CallStorageCopy s file)
  else (counts, []).

(** [CreateFileOnStorage], l.574: the returned boolean and the request
    sent, to the first server of the registry. *)
Definition CreateFileOnStorage (s : NamingServer) (path : string)
    : bool * list Sent :=
  match registry s with
  | first :: _ =>
      let cmd := storage_create path in
      (default false (storage (CommandPort first) cmd),
       [mkSent (CommandPort first) cmd])
  | [] => (false, [])
  end.

(** ** Registration *)

(** The loop over the reported files in [HandleRegistration], l.1030:
    the new tree and the files to delete. *)
Fixpoint register_files (files : list string) (tree : Location)
    (filesToDelete : list string) : option (Location * list string) :=
  match files with
  | [] => Some (tree, filesToDelete)
  | filePath :: files' =>
      let filePath := TrimLeft filePath "/" in
      let locations := Split filePath "/" in
      match CheckNewPath tree locations 0 with
      | None => None
      | Some (tree', isValidPath) =>
          register_files files' tree'
            (if isValidPath then filesToDelete
             else filesToDelete ++ ["/" +:+ filePath])
      end
  end.

(** [HandleRegistration] on a [/register] request, l.996. [None] is a
    panic of the handler. *)
Definition HandleRegistration (s : NamingServer)
    (storage_server : StorageServer) : option Outcome :=
  if existsb
       (fun ss => (ClientPort ss =? ClientPort storage_server)
                  || (CommandPort ss =? CommandPort storage_server))
       (registry s)
  then Some (mkOutcome (ExceptionResponse 409 IllegalStateException) s [])
  else
    match register_files (Files storage_server) (root s) [] with
    | None => None
    | Some (tree, filesToDelete) =>
        Some (mkOutcome (FilesResponse filesToDelete)
                (mkNamingServer (registry s ++ [storage_server]) tree
                   (access_counts s))
                [])
    end.

(** ** The service interface *)

Definition illegal_argument : Reply :=
  ExceptionResponse 404 IllegalArgumentException.
Definition file_not_found : Reply :=
  ExceptionResponse 404 FileNotFoundException.

Definition with_root (s : NamingServer) (tree : Location) : NamingServer :=
  mkNamingServer (registry s) tree (access_counts s).

Definition with_access_counts (s : NamingServer) (counts : gmap string Z)
    : NamingServer :=
  mkNamingServer (registry s) (root s) counts.

(** [strings.Split(strings.TrimLeft(path, "/"), "/")] *)
Definition trimmed_locations (path : string) : list string :=
  Split (TrimLeft path "/") "/".

(** The parent test of [/create_directory] and [/create_file], l.1294 and
    l.1384: [Some true] when the handler answers FileNotFoundException.
    [ContainsX] reads [parentDirectory] after [LocationExists] has
    shifted it. *)
Definition parent_rejected (tree : Location) (locations : list string)
    : option bool :=
  if (1 <? length locations)%nat then
    let parentDirectory := take (length locations - 1) locations in
    match LocationExists tree parentDirectory false with
    | None => None
    | Some (parentDirectory, parentExists) =>
        Some (negb parentExists || ContainsX parentDirectory "file")
    end
  else Some false.

(** The first registered server that lists [path], l.1498. *)
Fixpoint hosting_server (reg : list StorageServer) (path : string)
    : option StorageServer :=
  match reg with
  | [] => None
  | storage_server :: reg' =>
      if existsb (fun file => String.eqb file path) (Files storage_server)
      then Some storage_server
      else hosting_server reg' path
  end.

(** [HandleServiceCommand], l.1087, on a decoded request. [None] is a
    panic of the handler. *)
Definition HandleServiceCommand (s : NamingServer) (r : Request)
    : option Outcome :=
  let answer (a : Reply) := Some (mkOutcome a s []) in
  match r with
  | is_valid_path path => answer (ServiceResponse (IsPathValid path))

  | is_directory path =>
      if negb (IsPathValid path) then answer illegal_argument
      else
        match LocationExists (root s) (trimmed_locations path) false with
        | None => None
        | Some (locations, locationExists) =>
            if locationExists || String.eqb path "/" then
              if Contains (List.last locations "") "file"
              then answer (ServiceResponse false)
              else answer (ServiceResponse true)
            else answer file_not_found
        end

  | list_ path =>
      if negb (IsPathValid path) then answer illegal_argument
      else
        match LocationExists (root s) (trimmed_locations path) false with
        | None => None
        | Some (locations, locationExists) =>
            if locationExists || String.eqb path "/" then
              let finalLocation := List.last locations "" in
              if negb (Contains finalLocation "directory")
                 && negb (String.eqb path "/")
              then answer file_not_found
              else
                match
                  GetContentsAt (root s)
                    (if String.eqb path "/" then ["/"] else locations) []
                with
                | None => None
                | Some (_, content) => answer (FilesResponse content)
                end
            else answer file_not_found
        end

  | create_directory path =>
      let locations := trimmed_locations path in
      if negb (IsPathValid path) then answer illegal_argument
      else
        match parent_rejected (root s) locations with
        | None => None
        | Some true => answer file_not_found
        | Some false =>
            let isRoot :=
              negb (1 <? length locations)%nat && String.eqb path "/" in
            match LocationExists (root s) locations false with
            | None => None
            | Some (_, directoryExists) =>
                if directoryExists || isRoot
                then answer (ServiceResponse false)
                else
                  match CheckNewPath (root s) locations 0 with
                  | None => None
                  | Some (tree, success) =>
                      Some (mkOutcome (ServiceResponse success)
                              (with_root s tree) [])
                  end
            end
        end

  | create_file path =>
      if negb (IsPathValid path) then answer illegal_argument
      else
        let locations := trimmed_locations path in
        match parent_rejected (root s) locations with
        | None => None
        | Some true => answer file_not_found
        | Some false =>
            let isRoot :=
              negb (1 <? length locations)%nat && String.eqb path "/" in
            match LocationExists (root s) locations false with
            | None => None
            | Some (_, directoryExists) =>
                if directoryExists || isRoot
                then answer (ServiceResponse false)
                else
                  match CheckNewPath (root s) locations 0 with
                  | None => None
                  | Some (tree, createdNewPath) =>
                      Some (mkOutcome (ServiceResponse createdNewPath)
                              (with_root s tree)
                              (if createdNewPath
                               then snd (CreateFileOnStorage s path)
                               else []))
                  end
            end
        end

  | get_storage path =>
      if negb (IsPathValid path) then answer illegal_argument
      else
        let locations := locations_of path in
        match LocationExists (root s) locations false with
        | None => None
        | Some (_, locationExists) =>
            if negb locationExists
               || Contains (List.last locations "") "directory"
            then answer file_not_found
            else
              match hosting_server (registry s) path with
              | Some storage_server =>
                  answer (StorageInfo (StorageIP storage_server)
                            (ClientPort storage_server))
              | None =>
                  (* no server lists the file: control leaves the
                     [/get_storage] block and reaches the end of the
                     handler *)
                  answer UnknownCommand
              end
        end

  | lock_ path exclusive =>
      let lock := mkLock path exclusive 0 in
      if negb (IsPathValid path) then answer illegal_argument
      else
        match LocationExists (root s) (locations_of path) false with
        | None => None
        | Some (_, locationExists) =>
            if negb locationExists && negb (String.eqb path "/")
            then answer file_not_found
            else
              match LockLocation (root s) lock 0 with
              | Locked tree => Some (mkOutcome EmptyOK (with_root s tree) [])
              | Spinning tree => Some (mkOutcome NoReply (with_root s tree) [])
              | NotReached tree =>
                  Some (mkOutcome EmptyOK (with_root s tree) [])
              | LockPanic => None
              end
        end

  | unlock_ path exclusive =>
      let lock := mkLock path exclusive 0 in
      if negb (IsPathValid path) then answer illegal_argument
      else
        match LocationExists (root s) (locations_of path) false with
        | None => None
        | Some (_, locationExists) =>
            if negb locationExists && negb (String.eqb path "/")
            then answer illegal_argument
            else
              match UnlockLocation (root s) lock 0 false with
              | None => None
              | Some (tree, successfullyUnlocked) =>
                  let s1 := with_root s tree in
                  if successfullyUnlocked then
                    let (counts, copies) := Increment_Access_Count s1 path in
                    let s2 := with_access_counts s1 counts in
                    Some (mkOutcome EmptyOK s2
                            (copies ++ if exclusive
                                       then SendDelete s2 path false
                                       else []))
                  else Some (mkOutcome EmptyOK s1 [])
              end
        end

  | delete_ path =>
      if negb (IsPathValid path) then answer illegal_argument
      else
        match LocationExists (root s) (locations_of path) false with
        | None => None
        | Some (_, locationExists) =>
            if negb locationExists && negb (String.eqb path "/")
            then answer file_not_found
            else Some (mkOutcome (ServiceResponse true) s
                         (SendDelete s path true))
        end

  | unknown => answer UnknownCommand
  end.

(** A run of service requests, one after the other; [None] as soon as one
    panics or does not return. *)
Fixpoint serve (s : NamingServer) (requests : list Request)
    : option NamingServer :=
  match requests with
  | [] => Some s
  | r :: requests' =>
      match HandleServiceCommand s r with
      | Some o =>
          match reply o with
          | NoReply => None
          | _ => serve (server o) requests'
          end
      | None => None
      end
  end.

End Handlers.

(** Storage servers that answer every command with success. *)
Definition storage_ok : Z -> StorageCommand -> option bool :=
  fun _ _ => Some true.

(** ** Notions used in the statements *)

(** A slice after a call that may have shifted it: same length, same last
    element. *)
Definition keeps_shape (names names' : list string) : Prop :=
  length names' = length names /\ List.last names' "" = List.last names "".

(** Below [l] there is a chain of sub-locations whose names spell
    [names]. *)
Fixpoint has_path (names : list string) (l : Location) {struct names} : bool :=
  match names with
  | [] => false
  | [finalLocation] => has_sub finalLocation (subLocations l)
  | midwayLocation :: rest =>
      existsb (fun sub => String.eqb midwayLocation (name sub)
                          && has_path rest sub)
        (subLocations l)
  end.

(** Sub-locations whose name was seen before have no sub-locations of
    their own. *)
Fixpoint later_are_leaves (seen : list string) (subs : list Location) : bool :=
  match subs with
  | [] => true
  | sub :: subs' =>
      (if existsb (String.eqb (name sub)) seen
       then (length (subLocations sub) =? 0)%nat else true)
      && later_are_leaves (name sub :: seen) subs'
  end.

(** Everywhere in the tree, among the sub-locations of one name only the
    first has sub-locations of its own. [CheckNewPath] and
    [AppendNewLocation] descend into the first sub-location of a name
    only. *)
Fixpoint first_born (l : Location) : bool :=
  match l with
  | mkLocation _ subs _ _ _ _ =>
      later_are_leaves [] subs && forallb first_born subs
  end.

(** The name [n] is not in the list [seen]. *)
Definition unseen (n : string) (seen : list string) : Prop :=
  existsb (String.eqb n) seen = false.

(** The tree of a [LockResult]. *)
Definition locked_tree (r : LockResult) : option Location :=
  match r with
  | Locked l | Spinning l | NotReached l => Some l
  | LockPanic => None
  end.

(** The names of a tree, without the lock state. *)
Fixpoint skeleton (l : Location) : Location :=
  match l with
  | mkLocation nm subs _ _ _ _ => mkLocation nm (map skeleton subs) [] [] 0 []
  end.

(** The servers that the two handlers can produce from the server that
    [main] creates, whatever the storage servers answer. *)
Inductive reachable_server : NamingServer -> Prop :=
  | reachable_initial : reachable_server initial_server
  | reachable_registration s storage_server o :
      reachable_server s ->
      HandleRegistration s storage_server = Some o ->
      reachable_server (server o)
  | reachable_service storage s r o :
      reachable_server s ->
      HandleServiceCommand storage s r = Some o ->
      reachable_server (server o).

(** The value that [Increment_Access_Count] computes for [file] before it
    compares it with the threshold. *)
Definition counted (counts : gmap string Z) (file : string) : Z :=
  match counts !! file with
  | Some n => int_succ n
  | None => 1
  end.


(** The result of a registration, when the handler returns. *)
Definition registered (s : NamingServer) (storage_server : StorageServer)
    : NamingServer :=
  match HandleRegistration s storage_server with
  | Some o => server o
  | None => s
  end.

(** ** Scenarios *)

Definition storage1 (files : list string) : StorageServer :=
  mkStorageServer "127.0.0.1" 1001 2001 files.

Definition storage2 (files : list string) : StorageServer :=
  mkStorageServer "127.0.0.1" 1002 2002 files.

(** A server with one storage server that registered the file [/file]. *)
Definition one_file_server : NamingServer :=
  mkNamingServer [storage1 ["/file"]]
    (set_subLocations (newLocation "/") [newLocation "file"])
    ∅.

(** Two storage servers that both reported [/file], in this order. *)
Definition two_owner_server : NamingServer :=
  registered (registered initial_server (storage1 ["/file"]))
    (storage2 ["/file"]).

(** Two storage servers, the first with [/file], the second with nothing. *)
Definition replica_server : NamingServer :=
  registered (registered initial_server (storage1 ["/file"])) (storage2 []).


(** [one_file_server] with an exclusive lock on [/file] held. *)
Definition writing_server : NamingServer :=
  default one_file_server
    (serve storage_ok one_file_server [lock_ "/file" true]).

(** A storage server reported [/file1/b/c]: the location [/file1/b] exists
    and has the name ["file1"] above it. *)
Definition nested_server : NamingServer :=
  registered initial_server (storage1 ["/file1/b/c"]).

(** A storage server reported a file in a directory. *)
Definition directory_server : NamingServer :=
  registered initial_server (storage1 ["/directory/file1"]).

(** Two storage servers without files. *)
Definition empty_storage_server : NamingServer :=
  registered (registered initial_server (storage1 [])) (storage2 []).

(** Shared and exclusive requests for the root. *)
Definition shared_root : Lock := mkLock "/" false 0.
Definition exclusive_root : Lock := mkLock "/" true 0.

(** A shared lock is held, an exclusive request arrives and spins, the
    shared lock is released. *)
Definition before_overtaking : list Action :=
  [Arrive shared_root; Arrive exclusive_root; Release shared_root].

(** [n] rounds of shared lock and unlock of [path]. *)
Fixpoint reads (n : nat) (path : string) : list Request :=
  match n with
  | O => []
  | S n' => lock_ path false :: unlock_ path false :: reads n' path
  end.

(** Storage servers of which the one behind the command port [down] does
    not answer. *)
Definition storage_down (down : Z) : Z -> StorageCommand -> option bool :=
  fun port _ => if port =? down then None else Some true.

(** Three storage servers without files. *)
Definition storage3 (files : list string) : StorageServer :=
  mkStorageServer "127.0.0.1" 1003 2003 files.

Definition three_storage_server : NamingServer :=
  registered empty_storage_server (storage3 []).

(** ** Notions for the further properties *)


(** A file was created through the service interface on a naming server
    with two storage servers that reported no files. *)
Definition created_file_server : NamingServer :=
  default empty_storage_server
    (serve storage_ok empty_storage_server [create_file "/file"]).


(** The path that the registration handler puts in its answer for a
    reported [file]: the leading slashes are replaced by one. *)
Definition normalized (file : string) : string := "/" +:+ TrimLeft file "/".

(** No two registered storage servers share a client port or a command
    port. *)
Definition ports_distinct (reg : list StorageServer) : Prop :=
  NoDup (map ClientPort reg) /\ NoDup (map CommandPort reg).


(** The counters after one more access to [path]. *)
Definition counted_up (counts : gmap string Z) (path : string)
    : gmap string Z :=
  if 20 <=? counted counts path
  then <[path := 0]> counts
  else <[path := counted counts path]> counts.

(** No component but the last repeats the one before it; [own] is the
    name of the location the path starts from. [AppendNewLocation] skips a
    midway component that is the name of the location it is at. *)
Fixpoint no_repeat (own : string) (names : list string) : Prop :=
  match names with
  | [] => True
  | n :: names' =>
      match names' with
      | [] => True
      | _ :: _ => own <> n /\ no_repeat n names'
      end
  end.

(** No lock is held or queued anywhere in the tree. *)
Fixpoint idle (l : Location) : bool :=
  match l with
  | mkLocation _ subs lks q _ waiting =>
      (length lks =? 0)%nat && (length q =? 0)%nat
      && (length waiting =? 0)%nat && forallb idle subs
  end.

(** The indices of the exclusive requests in a queue, in order. *)
Definition exclusive_indices (q : list Lock) : list Z :=
  map queue_index (List.filter Exclusive q).

(** [exclusive_locks_waiting] lists the indices of the exclusive entries
    of [lock_queue], at every location of the tree. *)
Fixpoint waiting_recorded (l : Location) : Prop :=
  match l with
  | mkLocation _ subs _ q _ waiting =>
      waiting = exclusive_indices q
      /\ fold_right and True (map waiting_recorded subs)
  end.

(** The sub-locations split at the first one called [n]: the loops of
    [AppendNewLocation], [CheckNewPath], [LockLocation] and
    [UnlockLocation] descend into that one and stop. *)
Fixpoint split_at_name (n : string) (subs : list Location)
    : option (list Location * Location * list Location) :=
  match subs with
  | [] => None
  | sub :: subs' =>
      if String.eqb n (name sub) then Some ([], sub, subs')
      else match split_at_name n subs' with
           | Some (before, found, after) => Some (sub :: before, found, after)
           | None => None
           end
  end.

(** * Properties *)

(** ** Strings and slices *)

Lemma Split_not_nil s sep : Split s sep <> [].
Proof.
  induction s as [|c s IH]; simpl; [discriminate|].
  destruct (Ascii.eqb c sep); [discriminate|].
  destruct (Split s sep); discriminate.
Qed.

Lemma IsPathValid_leading_slash path :
  IsPathValid path = true -> exists rest, path = String "/" rest.
Proof.
  unfold IsPathValid. intros H.
  apply andb_prop in H as [H _]. apply andb_prop in H as [_ H].
  destruct path as [|c rest]; simpl in H; [discriminate|].
  apply Ascii.eqb_eq in H. subst c. eauto.
Qed.

Lemma locations_of_not_nil path :
  IsPathValid path = true -> locations_of path <> [].
Proof.
  intros [rest ->]%IsPathValid_leading_slash.
  unfold locations_of. simpl. apply Split_not_nil.
Qed.

Lemma trimmed_locations_not_nil path : trimmed_locations path <> [].
Proof. apply Split_not_nil. Qed.

Lemma reslice_length rest names :
  length (reslice rest names) = S (length rest).
Proof. unfold reslice. rewrite length_app. simpl. lia. Qed.

Lemma reslice_last rest names :
  List.last (reslice rest names) "" = List.last names "".
Proof. unfold reslice. apply last_last. Qed.

Lemma length_tl {A} (l : list A) : length (tl l) = (length l - 1)%nat.
Proof. destruct l; simpl; lia. Qed.

(** ** Induction on the location tree *)

Lemma Location_tree_ind (P : Location -> Prop) :
  (forall nm subs lks q n elw,
      Forall P subs -> P (mkLocation nm subs lks q n elw)) ->
  forall l, P l.
Proof.
  intros step. fix IH 1. intros [nm subs lks q n elw].
  apply step. induction subs as [|sub subs IHsubs]; constructor.
  - apply IH.
  - exact IHsubs.
Qed.

(** ** [LocationExists] and [GetContentsAt] return

    On a non-empty slice neither function panics; both leave the length of
    the caller's slice and its last element as they were. *)

Lemma LocationExists_returns cur :
  forall names ret, names <> [] ->
    exists names' b,
      LocationExists cur names ret = Some (names', b)
      /\ keeps_shape names names'.
Proof.
  induction cur as [nm subs lks q n elw IH] using Location_tree_ind.
  intros names ret Hne. simpl.
  destruct ((length names =? 1)%nat && (0 <? length subs)%nat) eqn:E.
  - destruct names as [|final rest]; [done|].
    eexists _, _. split; [reflexivity|]. split; reflexivity.
  - destruct names as [|midway rest0]; [done|].
    assert (Hlong : subs <> [] -> (2 <= length (midway :: rest0))%nat).
    { intros Hsubs. apply andb_false_iff in E as [E|E].
      - apply Nat.eqb_neq in E. simpl in *. lia.
      - apply Nat.ltb_ge in E. destruct subs; [done|]. simpl in E. lia. }
    clear E. set (names0 := midway :: rest0) in *.
    match goal with
    | |- exists _ _, ?f subs names0 ret = _ /\ _ =>
        enough (forall names1 ret1,
                   keeps_shape names0 names1 ->
                   exists names' b,
                     f subs names1 ret1 = Some (names', b)
                     /\ keeps_shape names0 names')
          as Hloop by (apply Hloop; split; reflexivity)
    end.
    induction IH as [|sub subs' Hsub _ IHloop];
      intros names1 ret1 [Hlen Hlast].
    + eexists _, _. split; [reflexivity|]. split; assumption.
    + specialize (Hlong ltac:(discriminate)).
      pose proof (IHloop (fun _ => Hlong)) as Hlater.
      cbn beta iota fix. fold LocationExists.
      destruct (String.eqb midway (name sub)).
      * destruct (Hsub (tl names1) ret1) as (rest' & b & -> & Hl & _).
        { intros Htl. apply (f_equal (@length string)) in Htl.
          rewrite length_tl in Htl. simpl in Htl. lia. }
        apply Hlater. split.
        -- rewrite reslice_length, Hl, length_tl. lia.
        -- rewrite reslice_last. exact Hlast.
      * apply Hlater. split; assumption.
Qed.

Lemma GetContentsAt_returns cur :
  forall names ret, names <> [] ->
    exists names' content,
      GetContentsAt cur names ret = Some (names', content)
      /\ length names' = length names.
Proof.
  induction cur as [nm subs lks q n elw IH] using Location_tree_ind.
  intros names ret Hne. simpl.
  destruct (length names =? 1)%nat eqn:E.
  - destruct names as [|final rest]; [done|].
    destruct (String.eqb nm "/" && String.eqb final nm);
      eexists _, _; (split; [reflexivity|reflexivity]).
  - apply Nat.eqb_neq in E.
    assert (Hlong : (2 <= length names)%nat).
    { destruct names; [done|]. simpl in *. lia. }
    clear E Hne.
    match goal with
    | |- exists _ _, ?f subs names ret = _ /\ _ =>
        enough (forall names1 ret1,
                   length names1 = length names ->
                   exists names' content,
                     f subs names1 ret1 = Some (names', content)
                     /\ length names' = length names)
          as Hloop by (apply Hloop; reflexivity)
    end.
    induction IH as [|sub subs' Hsub _ IHloop]; intros names1 ret1 Hlen.
    + eexists _, _. split; [reflexivity|assumption].
    + cbn beta iota fix. fold GetContentsAt.
      destruct names1 as [|midway rest1]; [simpl in Hlen; lia|].
      destruct (String.eqb (name sub) midway).
      * destruct (Hsub (tl (midway :: rest1)) ret1) as (rest' & c & -> & Hl).
        { simpl. intros ->. simpl in Hlen. lia. }
        apply IHloop. rewrite reslice_length, Hl, length_tl. lia.
      * apply IHloop. assumption.
Qed.

(** ** Path validation (C7) *)

Lemma HasPrefix_byte c s :
  HasPrefix s (String c "")
  = match s with
    | String d _ => Ascii.eqb d c
    | EmptyString => false
    end.
Proof. destruct s as [|d s]; simpl; [reflexivity|]. destruct s; apply andb_true_r. Qed.

Lemma Contains_byte c s :
  Contains s (String c "") = true <-> exists i, String.get i s = Some c.
Proof.
  induction s as [|d s IH].
  - simpl. split; [discriminate|]. intros [i Hi]. destruct i; discriminate.
  - cbn [Contains]. rewrite HasPrefix_byte, orb_true_iff, IH. split.
    + intros [Hd|[i Hi]].
      * apply Ascii.eqb_eq in Hd. subst d. exists 0%nat. reflexivity.
      * exists (S i). exact Hi.
    + intros [[|i] Hi]; simpl in Hi.
      * left. injection Hi as ->. apply Ascii.eqb_refl.
      * right. eauto.
Qed.

(** C7, the claim as stated fails: ["/a//b"] has an empty segment, the
    specification's validator rejects it, and [IsPathValid] accepts it. *)
Lemma C7_double_slash_accepted :
  Contains "/a//b" "//" = true
  /\ PathCodec_accepts "/a//b" = false
  /\ IsPathValid "/a//b" = true.
Proof. repeat split; reflexivity. Qed.

(** C7, amended: [IsPathValid] accepts a string exactly when it is not
    empty, its first byte is ['/'] and none of its bytes is [':'];
    empty segments are not looked at. *)
Theorem C7_IsPathValid_iff (s : string) :
  IsPathValid s = true
  <-> s <> ""
      /\ String.get 0 s = Some "/"%char
      /\ (forall i, String.get i s <> Some ":"%char).
Proof.
  unfold IsPathValid. rewrite !andb_true_iff, negb_true_iff. split.
  - intros [[Hlen Hfirst] Hcolon]. repeat split.
    + intros ->. discriminate.
    + destruct (String.get 0 s) as [c|]; [|discriminate].
      apply Ascii.eqb_eq in Hfirst. congruence.
    + intros i Hi.
      assert (Contains s ":" = true) by (apply Contains_byte; eauto).
      congruence.
  - intros (Hne & Hfirst & Hcolon). repeat split.
    + destruct s; [done|reflexivity].
    + rewrite Hfirst. apply Ascii.eqb_refl.
    + destruct (Contains s ":") eqn:E; [|reflexivity].
      apply Contains_byte in E as [i Hi]. destruct (Hcolon i Hi).
Qed.

(** ** Requests for a path that the server does not find *)

(** A [/lock] request with a valid path, other than ["/"], for which
    [LocationExists] answers [false] is answered with
    FileNotFoundException before [LockLocation] is called. *)
Lemma lock_on_unfound_path storage s path exclusive names :
  IsPathValid path = true ->
  path <> "/" ->
  LocationExists (root s) (locations_of path) false = Some (names, false) ->
  HandleServiceCommand storage s (lock_ path exclusive)
  = Some (mkOutcome file_not_found s []).
Proof.
  intros Hvalid Hroot Hmissing. unfold HandleServiceCommand.
  rewrite Hvalid, Hmissing. simpl.
  destruct (String.eqb_spec path "/"); [contradiction|reflexivity].
Qed.

(** ** Deletion (C4) *)

(** The [/delete] handler never changes the server: it only sends
    [storage_delete] commands. *)
Lemma delete_leaves_server storage s path o :
  HandleServiceCommand storage s (delete_ path) = Some o -> server o = s.
Proof.
  unfold HandleServiceCommand.
  destruct (negb (IsPathValid path)); [intros [= <-]; reflexivity|].
  destruct (LocationExists (root s) (locations_of path) false)
    as [[names b]|]; [|discriminate].
  destruct (negb b && negb (String.eqb path "/")); intros [= <-]; reflexivity.
Qed.

(** A [/delete] request for a path that [LocationExists] finds answers
    [{success: true}] and returns the server as it was. *)
Lemma delete_of_found_path storage s path names :
  IsPathValid path = true ->
  LocationExists (root s) (locations_of path) false = Some (names, true) ->
  HandleServiceCommand storage s (delete_ path)
  = Some (mkOutcome (ServiceResponse true) s (SendDelete storage s path true)).
Proof.
  intros Hvalid Hexists. unfold HandleServiceCommand.
  rewrite Hvalid, Hexists. reflexivity.
Qed.

Lemma one_file_server_registered :
  HandleRegistration initial_server (storage1 ["/file"])
  = Some (mkOutcome (FilesResponse []) one_file_server []).
Proof. reflexivity. Qed.

(** C4, what the code does: whatever the state of the server, [/delete] of
    ["/"] answers [{success: true}], after asking the storage servers to
    delete ["/"]; the server itself, root included, is unchanged. *)
Theorem C4_delete_root_reports_success storage s :
  HandleServiceCommand storage s (delete_ "/")
  = Some (mkOutcome (ServiceResponse true) s (SendDelete storage s "/" true)).
Proof.
  unfold HandleServiceCommand.
  destruct (LocationExists_returns (root s) (locations_of "/") false)
    as (names & b & Hle & _); [discriminate|].
  change (IsPathValid "/") with true. cbn [negb].
  rewrite Hle. rewrite String.eqb_refl, andb_false_r. reflexivity.
Qed.

(** On a server with two storage servers the delete commands for the
    root are sent. *)
Lemma delete_root_is_sent_to_storage :
  option_map sent (HandleServiceCommand storage_ok replica_server (delete_ "/"))
  = Some [mkSent 2001 (storage_delete "/"); mkSent 2002 (storage_delete "/")].
Proof. reflexivity. Qed.

(** ** Creating a file without storage servers (C8) *)

(** C8, what the code does: with an empty registry [/create_file] of a
    valid new path adds the location to the tree, sends nothing and
    answers [{success: true}]. *)
Theorem C8_create_file_without_storage storage :
  registry initial_server = []
  /\ HandleServiceCommand storage initial_server (create_file "/file")
     = Some (mkOutcome (ServiceResponse true)
               (mkNamingServer []
                  (set_subLocations (newLocation "/") [newLocation "file"]) ∅)
               []).
Proof. split; reflexivity. Qed.

(** No path through [/create_file] answers IllegalStateException. *)
Lemma create_file_never_illegal_state storage s path o status :
  HandleServiceCommand storage s (create_file path) = Some o ->
  reply o <> ExceptionResponse status IllegalStateException.
Proof.
  unfold HandleServiceCommand.
  destruct (negb (IsPathValid path)); [intros [= <-]; discriminate|].
  destruct (parent_rejected (root s) (trimmed_locations path)) as [[|]|];
    [intros [= <-]; discriminate| |discriminate].
  destruct (LocationExists (root s) (trimmed_locations path) false)
    as [[names b]|]; [|discriminate].
  destruct (b || _); [intros [= <-]; discriminate|].
  destruct (CheckNewPath (root s) (trimmed_locations path) 0)
    as [[tree created]|]; [|discriminate].
  intros [= <-]. discriminate.
Qed.

(** ** Registration (C6) *)

(** C6, what the code does: a storage server that reports [/a/a/b] to a
    server with an empty tree gets an empty list of files to delete, but
    the tree then has no location [/a/a/b]; [AppendNewLocation] skipped the
    second [a] and created [/a/b]. *)
Theorem C6_reported_path_not_materialized :
  exists o,
    HandleRegistration initial_server (storage1 ["/a/a/b"]) = Some o
    /\ reply o = FilesResponse []
    /\ has_path ["a"; "a"; "b"] (root (server o)) = false
    /\ option_map snd (LocationExists (root (server o)) ["a"; "a"; "b"] false)
       = Some false
    /\ has_path ["a"; "b"] (root (server o)) = true
    /\ root (server o)
       = set_subLocations (newLocation "/")
           [set_subLocations (newLocation "a") [newLocation "b"]].
Proof.
  eexists. split; [vm_compute; reflexivity|].
  split; [reflexivity|]. split; [vm_compute; reflexivity|].
  split; [vm_compute; reflexivity|]. split; vm_compute; reflexivity.
Qed.

(** The same defect below an empty directory: after [/create_directory] of
    [/d] and [/d/e], the reported file [/d/e/f] is accepted and ends up at
    [/d/e/d/e/f]. *)
Lemma reported_path_below_empty_directory :
  exists s o,
    serve storage_ok initial_server
      [create_directory "/d"; create_directory "/d/e"] = Some s
    /\ HandleRegistration s (storage1 ["/d/e/f"]) = Some o
    /\ reply o = FilesResponse []
    /\ option_map snd (LocationExists (root (server o)) ["d"; "e"; "f"] false)
       = Some false
    /\ option_map snd
         (LocationExists (root (server o)) ["d"; "e"; "d"; "e"; "f"] false)
       = Some true.
Proof.
  eexists _, _. split; [vm_compute; reflexivity|].
  split; [vm_compute; reflexivity|].
  split; [reflexivity|]. split; vm_compute; reflexivity.
Qed.

(** A reported path that the tree already has is put in the list of files
    to delete and the tree stays as it was. *)
Lemma reported_existing_path_is_rejected :
  HandleRegistration one_file_server (storage2 ["/file"])
  = Some (mkOutcome (FilesResponse ["/file"])
            (mkNamingServer [storage1 ["/file"]; storage2 ["/file"]]
               (root one_file_server) ∅)
            []).
Proof. reflexivity. Qed.

(** ** Invalidation on an exclusive unlock (C5) *)

(** C5, what the code does: two storage servers report [/file]; the second
    is told to delete its copy, and [/get_storage] sends clients to the
    first. After an exclusive lock and unlock of [/file], the only
    [storage_delete] goes to the first server, port 2001: [SendDelete]
    takes the last server that listed the file for the owner. *)
Theorem C5_delete_sent_to_first_owner :
  HandleRegistration (registered initial_server (storage1 ["/file"]))
    (storage2 ["/file"])
  = Some (mkOutcome (FilesResponse ["/file"]) two_owner_server [])
  /\ option_map reply
       (HandleServiceCommand storage_ok two_owner_server (get_storage "/file"))
     = Some (StorageInfo "127.0.0.1" 1001)
  /\ exists s o,
       HandleServiceCommand storage_ok two_owner_server (lock_ "/file" true)
       = Some (mkOutcome EmptyOK s [])
       /\ HandleServiceCommand storage_ok s (unlock_ "/file" true) = Some o
       /\ reply o = EmptyOK
       /\ sent o = [mkSent 2001 (storage_delete "/file")].
Proof.
  split; [vm_compute; reflexivity|]. split; [vm_compute; reflexivity|].
  eexists _, _. split; [vm_compute; reflexivity|].
  split; [vm_compute; reflexivity|]. split; reflexivity.
Qed.

(** With a single reporter the owner is spared: the delete goes to the
    other server only. *)
Lemma delete_spares_the_only_reporter :
  exists s o,
    HandleServiceCommand storage_ok replica_server (lock_ "/file" true)
    = Some (mkOutcome EmptyOK s [])
    /\ HandleServiceCommand storage_ok s (unlock_ "/file" true) = Some o
    /\ sent o = [mkSent 2002 (storage_delete "/file")].
Proof.
  eexists _, _. split; [vm_compute; reflexivity|].
  split; [vm_compute; reflexivity|]. reflexivity.
Qed.

(** A file made by [/create_file] is created on the first storage server
    and listed by none: [find_owner] finds nobody, and the exclusive unlock
    sends the delete to every server, the one with the file included. *)
Lemma delete_sent_to_the_creating_server :
  exists s1 s2 o,
    HandleServiceCommand storage_ok empty_storage_server (create_file "/file")
    = Some (mkOutcome (ServiceResponse true) s1
              [mkSent 2001 (storage_create "/file")])
    /\ HandleServiceCommand storage_ok s1 (lock_ "/file" true)
       = Some (mkOutcome EmptyOK s2 [])
    /\ HandleServiceCommand storage_ok s2 (unlock_ "/file" true) = Some o
    /\ sent o = [mkSent 2001 (storage_delete "/file");
                 mkSent 2002 (storage_delete "/file")].
Proof.
  eexists _, _, _. split; [vm_compute; reflexivity|].
  split; [vm_compute; reflexivity|]. split; [vm_compute; reflexivity|].
  reflexivity.
Qed.

(** ** Fairness of the lock queue (C1) *)

Lemma run_reachable actions :
  forall n g n' g',
    reachable n -> run n actions g = Some (n', g') -> reachable n'.
Proof.
  induction actions as [|a actions IH]; simpl; intros n g n' g' Hn Hrun.
  - injection Hrun as <- _. exact Hn.
  - destruct (act n a) as [[n1 g1]|] eqn:Hact; [|discriminate].
    apply (IH n1 g1 n' g'); [|exact Hrun].
    apply (reachable_step n g1 n1 Hn). exists a. exact Hact.
Qed.

(** C1, what the code does: a shared lock on the root is held, an
    exclusive request (queue index 2) arrives and spins, the shared lock is
    released; a shared request that arrives now finds [locks] empty and is
    granted at once (l.726) with queue index 3, ahead of the exclusive
    request, which keeps spinning. *)
Theorem C1_shared_overtakes_waiting_exclusive :
  exists n granted n',
    run fresh_node before_overtaking None = Some (n, None)
    /\ reachable n
    /\ act n (Arrive shared_root) = Some (n', Some granted)
    /\ step n (Some granted) n'
    /\ granted = mkLock "/" false 3
    /\ spinning n' = [mkLock "/" true 2]
    /\ locks (location n') = [granted]
    /\ overtakes granted n'
    /\ act n' (Poll (mkLock "/" true 2)) = Some (n', None).
Proof.
  exists (mkNode (mkLocation "/" [] [] [mkLock "/" true 2] 2 [2])
            [mkLock "/" true 2]).
  exists (mkLock "/" false 3).
  exists (mkNode (mkLocation "/" [] [mkLock "/" false 3]
                    [mkLock "/" true 2; mkLock "/" false 3] 3 [2])
            [mkLock "/" true 2]).
  assert (Hrun : run fresh_node before_overtaking None
                 = Some (mkNode (mkLocation "/" [] [] [mkLock "/" true 2] 2 [2])
                           [mkLock "/" true 2], None))
    by (vm_compute; reflexivity).
  split; [exact Hrun|]. split.
  { exact (run_reachable before_overtaking _ _ _ _ reachable_fresh Hrun). }
  split; [vm_compute; reflexivity|].
  split; [exists (Arrive shared_root); vm_compute; reflexivity|].
  split; [reflexivity|]. split; [reflexivity|]. split; [reflexivity|].
  split; [|vm_compute; reflexivity].
  split; [reflexivity|]. exists (mkLock "/" true 2).
  split; [left; reflexivity|]. split; [reflexivity|]. simpl. lia.
Qed.

(** The same run at the service interface: the exclusive [/lock] gets no
    reply, the shared [/lock] that follows the [/unlock] is answered at
    once, and the exclusive request is still not among the held locks. *)
Lemma overtaking_at_the_service_interface :
  exists s1 s2 s3 s4,
    HandleServiceCommand storage_ok initial_server (lock_ "/" false)
    = Some (mkOutcome EmptyOK s1 [])
    /\ HandleServiceCommand storage_ok s1 (lock_ "/" true)
       = Some (mkOutcome NoReply s2 [])
    /\ HandleServiceCommand storage_ok s2 (unlock_ "/" false)
       = Some (mkOutcome EmptyOK s3 [])
    /\ HandleServiceCommand storage_ok s3 (lock_ "/" false)
       = Some (mkOutcome EmptyOK s4 [])
    /\ locks (root s4) = [mkLock "/" false 3]
    /\ lock_queue (root s4) = [mkLock "/" true 2; mkLock "/" false 3].
Proof.
  eexists _, _, _, _.
  split; [vm_compute; reflexivity|]. split; [vm_compute; reflexivity|].
  split; [vm_compute; reflexivity|]. split; [vm_compute; reflexivity|].
  split; reflexivity.
Qed.

(** The shared lock of a request that passes through the location is
    taken without a look at the waiting exclusive request (l.785). *)
Lemma prefix_lock_overtakes_waiting_exclusive :
  exists n granted n',
    run fresh_node [Arrive shared_root; Arrive exclusive_root] None
    = Some (n, None)
    /\ act n PassThrough = Some (n', Some granted)
    /\ overtakes granted n'.
Proof.
  exists (mkNode (mkLocation "/" [] [mkLock "/" false 1]
                    [mkLock "/" false 1; mkLock "/" true 2] 2 [2])
            [mkLock "/" true 2]).
  exists (mkLock "/" false 3).
  exists (mkNode (mkLocation "/" [] [mkLock "/" false 1; mkLock "/" false 3]
                    [mkLock "/" false 1; mkLock "/" true 2; mkLock "/" false 3]
                    3 [2])
            [mkLock "/" true 2]).
  split; [vm_compute; reflexivity|]. split; [vm_compute; reflexivity|].
  split; [reflexivity|]. exists (mkLock "/" true 2).
  split; [left; reflexivity|]. split; [reflexivity|]. simpl. lia.
Qed.

(** Where the wait loop does decide, it keeps the order: a spinning shared
    request is granted only if no recorded exclusive index is at or below
    its own. *)
Lemma lock_poll_respects_exclusive l lock l' :
  Exclusive lock = false ->
  lock_poll l lock = Granted l' ->
  behind_exclusive (exclusive_locks_waiting l) (queue_index lock) = false
  \/ (locks l = [] /\ first_is_exclusive (lock_queue l) = true).
Proof.
  intros Hshared. unfold lock_poll.
  destruct (length (locks l) =? 0)%nat eqn:Hlen.
  - destruct (lock_queue l) as [|top queue] eqn:Hq.
    + rewrite Hshared. simpl.
      destruct (behind_exclusive _ _); [discriminate|]. left. reflexivity.
    + destruct (Exclusive top) eqn:Htop; simpl.
      * destruct (negb (queue_index lock =? queue_index top));
          [discriminate|].
        intros _. right. split; [|exact Htop].
        apply Nat.eqb_eq in Hlen. destruct (locks l); [reflexivity|discriminate].
      * destruct (behind_exclusive _ _); [discriminate|]. left. reflexivity.
  - destruct (first_is_shared (locks l)); [|discriminate].
    destruct (behind_exclusive _ _); [discriminate|]. left. reflexivity.
Qed.

(** ** Access counters and replication (C2) *)

Lemma send_each_In storage ports skip cmd m :
  In m (send_each storage ports skip cmd) ->
  command m = cmd /\ In (to_port m) ports /\ skip (to_port m) = false.
Proof.
  induction ports as [|port ports IH]; simpl; [contradiction|].
  destruct (skip port) eqn:Hskip.
  - intros Hm. destruct (IH Hm) as (? & ? & ?). auto.
  - intros [<-|Hm]; [simpl; auto|].
    destruct (storage port cmd); [|contradiction].
    destruct (IH Hm) as (? & ? & ?). auto.
Qed.

Lemma send_each_complete storage ports skip cmd :
  (forall port, storage port cmd <> None) ->
  forall port, In port ports -> skip port = false ->
    In (mkSent port cmd) (send_each storage ports skip cmd).
Proof.
  intros Hup port. induction ports as [|p ports IH]; simpl; [contradiction|].
  intros [->|Hin] Hskip.
  - rewrite Hskip. left. reflexivity.
  - destruct (skip p); [auto|]. right.
    destruct (storage p cmd) eqn:E; [auto|]. destruct (Hup p E).
Qed.


Lemma Increment_Access_Count_counted storage s file :
  Increment_Access_Count storage s file
  = if 20 <=? counted (access_counts s) file
    then (<[file := 0]> (access_counts s), CallStorageCopy storage s file)
    else (<[file := counted (access_counts s) file]> (access_counts s), []).
Proof.
  unfold Increment_Access_Count, counted.
  destruct (access_counts s !! file) as [n|];
    rewrite lookup_insert_eq; cbn [default from_option id];
    try match goal with
        | |- context [20 <=? ?x] => destruct (20 <=? x)
        end;
    rewrite ?insert_insert_eq; reflexivity.
Qed.




(** Read pressure: after 19 rounds of shared lock and unlock of [/file]
    the counter is 19; the 20th shared unlock sends one copy command, to
    the server that does not have the file, with the owner's client port
    as the source, and sets the counter to 0; the 21st sends nothing. *)
Lemma twentieth_read_replicates :
  exists s19 s20 o20 o21,
    serve storage_ok replica_server (reads 19 "/file") = Some s19
    /\ access_counts s19 !! "/file" = Some 19
    /\ HandleServiceCommand storage_ok s19 (lock_ "/file" false)
       = Some (mkOutcome EmptyOK s20 [])
    /\ HandleServiceCommand storage_ok s20 (unlock_ "/file" false) = Some o20
    /\ sent o20 = [mkSent 2002 (storage_copy "/file" "127.0.0.1" 1001)]
    /\ access_counts (server o20) !! "/file" = Some 0
    /\ serve storage_ok (server o20) [lock_ "/file" false] = Some o21
    /\ option_map sent
         (HandleServiceCommand storage_ok o21 (unlock_ "/file" false))
       = Some [].
Proof.
  eexists _, _, _, _.
  split; [vm_compute; reflexivity|]. split; [vm_compute; reflexivity|].
  split; [vm_compute; reflexivity|]. split; [vm_compute; reflexivity|].
  split; [reflexivity|]. split; [vm_compute; reflexivity|].
  split; vm_compute; reflexivity.
Qed.

(** ** Files and directories are told apart by their names (C10) *)

Lemma ContainsX_last l x :
  l <> [] -> Contains (List.last l "") x = true -> ContainsX l x = true.
Proof.
  intros Hne Hlast. unfold ContainsX. apply existsb_exists.
  exists (List.last l ""). split; [|exact Hlast].
  destruct (exists_last Hne) as (l' & a & ->).
  rewrite last_last. apply in_app_iff. right. left. reflexivity.
Qed.

Lemma LocationExists_keeps_last tree names ret names' b :
  names <> [] ->
  LocationExists tree names ret = Some (names', b) ->
  keeps_shape names names'.
Proof.
  intros Hne Hle.
  destruct (LocationExists_returns tree names ret Hne) as (n & c & Hle' & Hk).
  rewrite Hle in Hle'. injection Hle' as -> ->. exact Hk.
Qed.

Lemma parent_rejected_by_name tree locations :
  (1 < length locations)%nat ->
  Contains (List.last (take (length locations - 1) locations) "") "file"
  = true ->
  parent_rejected tree locations = Some true.
Proof.
  intros Hlen Hfile. unfold parent_rejected.
  apply Nat.ltb_lt in Hlen as Hltb. rewrite Hltb.
  assert (Hne : take (length locations - 1) locations <> []).
  { intros Hnil. apply (f_equal (@length string)) in Hnil.
    rewrite length_take in Hnil. simpl in Hnil. lia. }
  destruct (LocationExists_returns tree _ false Hne)
    as (parent & b & -> & Hlen' & Hlast).
  f_equal. apply orb_true_iff. right. apply ContainsX_last.
  - intros ->. destruct (take _ locations); [done|discriminate].
  - rewrite Hlast. exact Hfile.
Qed.

(** C10, the claim as stated fails in two places. [/list] of ["/"] lists
    the root although the last component of ["/"], the empty string, does
    not contain "directory". And [/create_directory] of [/file1/b/d]
    succeeds although the ancestor [file1] contains "file": [ContainsX]
    reads the parent slice after [LocationExists] has shifted [file1] out
    of it. *)
Lemma C10_root_is_listed_and_far_ancestor_is_not_checked :
  (Contains (List.last (trimmed_locations "/") "") "directory" = false
   /\ HandleServiceCommand storage_ok initial_server (list_ "/")
      = Some (mkOutcome (FilesResponse []) initial_server []))
  /\ (ContainsX ["file1"; "b"] "file" = true
      /\ option_map reply
           (HandleServiceCommand storage_ok nested_server
              (create_directory "/file1/b/d"))
         = Some (ServiceResponse true)).
Proof. repeat split; vm_compute; reflexivity. Qed.

(** C10, amended. For every server:
    - [/is_directory] of a path that the server finds (or of ["/"])
      answers "directory" exactly when the last component does not contain
      "file";
    - [/list] of a path other than ["/"] that the server finds answers
      with a listing when the last component contains "directory" and
      with FileNotFoundException when it does not;
    - [/get_storage] answers FileNotFoundException for every path whose
      last component contains "directory";
    - [/create_file] and [/create_directory] answer FileNotFoundException
      when the name of the immediate parent contains "file". *)
Theorem C10_kind_is_read_from_the_name storage s :
  (forall path names known,
      IsPathValid path = true ->
      LocationExists (root s) (trimmed_locations path) false
      = Some (names, known) ->
      known = true \/ path = "/" ->
      HandleServiceCommand storage s (is_directory path)
      = Some (mkOutcome
                (ServiceResponse
                   (negb (Contains (List.last (trimmed_locations path) "")
                            "file")))
                s []))
  /\ (forall path names,
        IsPathValid path = true ->
        path <> "/" ->
        LocationExists (root s) (trimmed_locations path) false
        = Some (names, true) ->
        if Contains (List.last (trimmed_locations path) "") "directory"
        then exists content,
               HandleServiceCommand storage s (list_ path)
               = Some (mkOutcome (FilesResponse content) s [])
        else HandleServiceCommand storage s (list_ path)
             = Some (mkOutcome file_not_found s []))
  /\ (forall path,
        IsPathValid path = true ->
        Contains (List.last (locations_of path) "") "directory" = true ->
        HandleServiceCommand storage s (get_storage path)
        = Some (mkOutcome file_not_found s []))
  /\ (forall path,
        IsPathValid path = true ->
        (1 < length (trimmed_locations path))%nat ->
        Contains
          (List.last (take (length (trimmed_locations path) - 1)
                        (trimmed_locations path)) "") "file" = true ->
        HandleServiceCommand storage s (create_file path)
        = Some (mkOutcome file_not_found s [])
        /\ HandleServiceCommand storage s (create_directory path)
           = Some (mkOutcome file_not_found s [])).
Proof.
  repeat apply conj.
  - intros path names known Hvalid Hle Hknown.
    pose proof (LocationExists_keeps_last _ _ _ _ _
                  (trimmed_locations_not_nil path) Hle) as [_ Hlast].
    unfold HandleServiceCommand. rewrite Hvalid, Hle, Hlast. cbn [negb].
    assert (known || String.eqb path "/" = true) as ->.
    { destruct Hknown as [->| ->]; [reflexivity|].
      rewrite String.eqb_refl. apply orb_true_r. }
    destruct (Contains _ "file"); reflexivity.
  - intros path names Hvalid Hroot Hle.
    pose proof (LocationExists_keeps_last _ _ _ _ _
                  (trimmed_locations_not_nil path) Hle) as [Hlen Hlast].
    unfold HandleServiceCommand. rewrite Hvalid, Hle, Hlast. cbn [negb orb].
    destruct (String.eqb_spec path "/") as [|_]; [contradiction|].
    destruct (Contains _ "directory"); cbn [negb andb]; [|reflexivity].
    destruct (GetContentsAt_returns (root s) names [])
      as (names' & content & -> & _).
    + intros ->. pose proof (trimmed_locations_not_nil path).
      destruct (trimmed_locations path); [done|discriminate].
    + exists content. reflexivity.
  - intros path Hvalid Hdirectory.
    destruct (LocationExists_returns (root s) (locations_of path) false
                (locations_of_not_nil path Hvalid))
      as (names & b & Hle & _).
    unfold HandleServiceCommand.
    rewrite Hvalid, Hle, Hdirectory, orb_true_r. reflexivity.
  - intros path Hvalid Hlen Hfile.
    pose proof (parent_rejected_by_name (root s) _ Hlen Hfile) as Hparent.
    unfold HandleServiceCommand. rewrite Hvalid, Hparent. split; reflexivity.
Qed.

Lemma C10_kind_is_read_from_the_name_witness :
  HandleServiceCommand storage_ok directory_server
    (is_directory "/directory/file1")
  = Some (mkOutcome (ServiceResponse false) directory_server [])
  /\ HandleServiceCommand storage_ok directory_server
       (is_directory "/directory")
     = Some (mkOutcome (ServiceResponse true) directory_server [])
  /\ HandleServiceCommand storage_ok directory_server
       (list_ "/directory/file1")
     = Some (mkOutcome file_not_found directory_server [])
  /\ HandleServiceCommand storage_ok directory_server
       (get_storage "/directory")
     = Some (mkOutcome file_not_found directory_server [])
  /\ HandleServiceCommand storage_ok directory_server
       (create_file "/directory/file1/x")
     = Some (mkOutcome file_not_found directory_server []).
Proof.
  destruct (C10_kind_is_read_from_the_name storage_ok directory_server)
    as (Hdir & Hlist & Hget & Hcreate).
  split.
  { apply (Hdir "/directory/file1" ["file1"; "file1"] true);
      [reflexivity|vm_compute; reflexivity|left; reflexivity]. }
  split.
  { apply (Hdir "/directory" ["directory"] true);
      [reflexivity|vm_compute; reflexivity|left; reflexivity]. }
  split.
  { apply (Hlist "/directory/file1" ["file1"; "file1"]);
      [reflexivity|discriminate|vm_compute; reflexivity]. }
  split.
  { apply (Hget "/directory"); reflexivity. }
  apply (Hcreate "/directory/file1/x");
    [reflexivity|vm_compute; lia|vm_compute; reflexivity].
Defined.

(** ** What [LocationExists] finds

    In a tree where, among the sub-locations of one name, only the first
    has sub-locations of its own, [LocationExists] started with [false]
    answers whether a chain of sub-locations spells the names. *)

Lemma LocationExists_leaf l names ret :
  subLocations l = [] -> names <> [] ->
  LocationExists l names ret = Some (names, ret).
Proof.
  destruct l as [nm subs lks q n elw]. simpl. intros -> Hne.
  rewrite andb_false_r. destruct names; [done|reflexivity].
Qed.

Lemma has_path_leaf l names : subLocations l = [] -> has_path names l = false.
Proof.
  intros Hleaf. destruct names as [|n1 [|n2 rest]]; simpl;
    rewrite ?Hleaf; reflexivity.
Qed.

Lemma later_leaves_have_no_path midway rest subs :
  forall seen,
    existsb (String.eqb midway) seen = true ->
    later_are_leaves seen subs = true ->
    existsb (fun sub => String.eqb midway (name sub) && has_path rest sub) subs
    = false.
Proof.
  induction subs as [|sub subs IH]; intros seen Hseen Hleaves; [reflexivity|].
  simpl in *. apply andb_prop in Hleaves as [Hsub Hleaves].
  rewrite (IH (name sub :: seen)); [|simpl; rewrite Hseen; apply orb_true_r|assumption].
  rewrite orb_false_r.
  destruct (String.eqb_spec midway (name sub)) as [->|]; [|reflexivity].
  rewrite Hseen in Hsub. apply Nat.eqb_eq in Hsub.
  rewrite has_path_leaf; [reflexivity|].
  destruct (subLocations sub); [reflexivity|discriminate].
Qed.

Lemma LocationExists_has_path l :
  forall names,
    first_born l = true -> names <> [] ->
    exists names',
      LocationExists l names false = Some (names', has_path names l).
Proof.
  induction l as [nm subs lks q n elw IH] using Location_tree_ind.
  intros names Hfb Hne. simpl in Hfb.
  apply andb_prop in Hfb as [Hleaves Hsubs].
  destruct names as [|midway rest]; [done|]. clear Hne.
  destruct rest as [|next rest].
  { (* the last name of the path *)
    simpl. destruct subs as [|sub subs]; simpl; eauto. }
  set (rest0 := next :: rest) in *.
  assert (Hrest : rest0 <> []) by (unfold rest0; discriminate).
  assert (Hpath : has_path (midway :: rest0) (mkLocation nm subs lks q n elw)
                  = existsb (fun sub => String.eqb midway (name sub)
                                        && has_path rest0 sub) subs)
    by reflexivity.
  rewrite Hpath. clear Hpath. simpl.
  match goal with
  | |- exists _, ?f subs (midway :: rest0) false = _ =>
      assert (Hseen : forall subs seen names1 ret1,
                 existsb (String.eqb midway) seen = true ->
                 later_are_leaves seen subs = true ->
                 (2 <= length names1)%nat ->
                 exists names', f subs names1 ret1 = Some (names', ret1));
      [|enough (forall seen,
                   existsb (String.eqb midway) seen = false ->
                   later_are_leaves seen subs = true ->
                   exists names',
                     f subs (midway :: rest0) false
                     = Some (names',
                             existsb (fun sub => String.eqb midway (name sub)
                                                 && has_path rest0 sub) subs))
         as Hloop by (apply (Hloop []); [reflexivity|assumption])]
  end.
  - clear. induction subs as [|sub subs IHsubs];
      intros seen names1 ret1 Hseen Hleaves Hlong; [eauto|].
    cbn beta iota fix. fold LocationExists.
    simpl in Hleaves. apply andb_prop in Hleaves as [Hsub Hleaves].
    assert (Hseen' : existsb (String.eqb midway) (name sub :: seen) = true)
      by (simpl; rewrite Hseen; apply orb_true_r).
    destruct (String.eqb_spec midway (name sub)) as [Heq|_].
    + rewrite <- Heq, Hseen in Hsub. apply Nat.eqb_eq in Hsub.
      rewrite LocationExists_leaf.
      * apply (IHsubs _ _ _ Hseen' Hleaves).
        rewrite reslice_length, length_tl. lia.
      * destruct (subLocations sub); [reflexivity|discriminate].
      * intros Htl. apply (f_equal (@length string)) in Htl.
        rewrite length_tl in Htl. simpl in Htl. lia.
    + apply (IHsubs _ _ _ Hseen' Hleaves Hlong).
  - clear Hleaves. induction IH as [|sub subs Hsub _ IHloop];
      intros seen Hunseen Hleaves; [eauto|].
    cbn beta iota fix. fold LocationExists.
    simpl in Hsubs. apply andb_prop in Hsubs as [Hfb Hsubs].
    simpl in Hleaves. apply andb_prop in Hleaves as [_ Hleaves].
    cbn [existsb].
    destruct (String.eqb_spec midway (name sub)) as [Heq|Hne].
    + destruct (Hsub rest0 Hfb Hrest) as (rest' & Hle).
      cbn [tl]. rewrite Hle.
      assert (Hnow : existsb (String.eqb midway) (name sub :: seen) = true)
        by (simpl; destruct (String.eqb_spec midway (name sub)); [reflexivity|contradiction]).
      rewrite (later_leaves_have_no_path midway rest0 subs _ Hnow Hleaves).
      rewrite orb_false_r. cbn [andb].
      apply (Hseen subs _ _ _ Hnow Hleaves).
      rewrite reslice_length.
      pose proof (LocationExists_keeps_last _ _ _ _ _ Hrest Hle) as [Hlen _].
      rewrite Hlen. unfold rest0. simpl. lia.
    + cbn [andb orb]. apply (IHloop Hsubs (name sub :: seen)); [|exact Hleaves].
      simpl. rewrite Hunseen.
      destruct (String.eqb_spec midway (name sub)); [contradiction|reflexivity].
Qed.

(** The trees of the scenarios are of that kind. *)
Lemma scenarios_first_born :
  first_born (root initial_server) = true
  /\ first_born (root one_file_server) = true
  /\ first_born (root two_owner_server) = true
  /\ first_born (root directory_server) = true.
Proof. repeat split; vm_compute; reflexivity. Qed.

(** In those trees a valid path, other than ["/"], that no chain of
    sub-locations spells is answered with FileNotFoundException. *)
Lemma lock_on_absent_location storage s path exclusive :
  first_born (root s) = true ->
  IsPathValid path = true ->
  path <> "/" ->
  has_path (locations_of path) (root s) = false ->
  HandleServiceCommand storage s (lock_ path exclusive)
  = Some (mkOutcome file_not_found s []).
Proof.
  intros Hfb Hvalid Hroot Habsent.
  destruct (LocationExists_has_path (root s) (locations_of path) Hfb
              (locations_of_not_nil path Hvalid)) as (names & Hle).
  rewrite Habsent in Hle.
  unfold HandleServiceCommand. rewrite Hvalid, Hle. simpl.
  destruct (String.eqb_spec path "/"); [contradiction|reflexivity].
Qed.

(** ** The shape of the trees that the server builds

    [AppendNewLocation] and [CheckNewPath] add sub-locations at the end of
    a list and descend into the first sub-location of a name, so among
    equally named sub-locations only the first ever gets sub-locations of
    its own; the lock functions leave the names alone. *)

Lemma unseen_cons n m seen : n <> m -> unseen n seen -> unseen n (m :: seen).
Proof.
  unfold unseen. simpl. intros Hne ->.
  destruct (String.eqb_spec n m); [contradiction|reflexivity].
Qed.

Lemma later_are_leaves_replace sub sub' l2 :
  forall l1 seen,
    name sub' = name sub ->
    unseen (name sub) seen ->
    Forall (fun x => name x <> name sub) l1 ->
    later_are_leaves seen (l1 ++ sub :: l2) = true ->
    later_are_leaves seen (l1 ++ sub' :: l2) = true.
Proof.
  intros l1 seen Hname. revert seen.
  induction l1 as [|x l1 IH]; intros seen Hunseen Hl1; simpl.
  - rewrite Hname. unfold unseen in Hunseen. rewrite Hunseen. auto.
  - inversion Hl1 as [|? ? Hx Hl1']; subst.
    intros [Hhead Htail]%andb_prop. rewrite Hhead. simpl.
    apply IH; [|assumption|assumption].
    apply unseen_cons; [congruence|assumption].
Qed.

Lemma later_are_leaves_app_leaf new :
  forall subs seen,
    subLocations new = [] ->
    later_are_leaves seen subs = true ->
    later_are_leaves seen (subs ++ [new]) = true.
Proof.
  induction subs as [|x subs IH]; intros seen Hleaf; simpl.
  - intros _. rewrite Hleaf. simpl. destruct (existsb _ seen); reflexivity.
  - intros [Hhead Htail]%andb_prop. rewrite Hhead. simpl. auto.
Qed.

Lemma later_are_leaves_app_new new :
  forall subs seen,
    unseen (name new) seen ->
    Forall (fun x => name x <> name new) subs ->
    later_are_leaves seen subs = true ->
    later_are_leaves seen (subs ++ [new]) = true.
Proof.
  induction subs as [|x subs IH]; intros seen Hunseen Hsubs; simpl.
  - intros _. unfold unseen in Hunseen. rewrite Hunseen. reflexivity.
  - inversion Hsubs as [|? ? Hx Hsubs']; subst.
    intros [Hhead Htail]%andb_prop. rewrite Hhead. simpl.
    apply IH; [|assumption|assumption].
    apply unseen_cons; [congruence|assumption].
Qed.

Lemma first_born_subs l :
  first_born l = true
  <-> later_are_leaves [] (subLocations l) = true
      /\ forallb first_born (subLocations l) = true.
Proof. destruct l. simpl. apply andb_true_iff. Qed.

Lemma AppendNewLocation_first_born names :
  forall l l',
    AppendNewLocation names l = Some l' ->
    first_born l = true ->
    first_born l' = true /\ name l' = name l.
Proof.
  induction names as [|midway rest IH]; intros l l'; [discriminate|].
  destruct rest as [|next rest].
  { (* the last name: a leaf is appended *)
    simpl. intros [= <-] [Hleaves Hsubs]%first_born_subs.
    split; [|reflexivity]. apply first_born_subs. simpl. split.
    - apply later_are_leaves_app_leaf; [reflexivity|assumption].
    - rewrite forallb_app, Hsubs. reflexivity. }
  set (rest0 := next :: rest) in *.
  change (AppendNewLocation (midway :: rest0) l)
    with (if String.eqb (name l) midway then AppendNewLocation rest0 l
          else (fix each_sub (before subs : list Location) {struct subs}
                    : option Location :=
                  match subs with
                  | sub :: subs' =>
                      if String.eqb (name sub) midway then
                        match AppendNewLocation rest0 sub with
                        | Some sub' =>
                            Some (set_subLocations l (before ++ sub' :: subs'))
                        | None => None
                        end
                      else each_sub (before ++ [sub]) subs'
                  | [] =>
                      match AppendNewLocation rest0 (newLocation midway) with
                      | Some newMidwayLocation =>
                          Some (set_subLocations l
                                  (before ++ [newMidwayLocation]))
                      | None => None
                      end
                  end) [] (subLocations l)).
  destruct (String.eqb (name l) midway); [apply IH|].
  intros Hloop [Hleaves Hsubs]%first_born_subs.
  match type of Hloop with
  | ?f [] (subLocations l) = _ =>
      enough (forall subs before,
                 Forall (fun x => name x <> midway) before ->
                 later_are_leaves [] (before ++ subs) = true ->
                 forallb first_born (before ++ subs) = true ->
                 f before subs = Some l' ->
                 first_born l' = true /\ name l' = name l)
        as Hgen by (apply (Hgen (subLocations l) []); auto)
  end.
  clear Hloop Hleaves Hsubs.
  induction subs as [|sub subs IHsubs]; intros before Hbefore Hleaves Hsubs.
  - destruct (AppendNewLocation rest0 (newLocation midway)) as [new|] eqn:Hnew;
      [|discriminate].
    intros [= <-]. apply IH in Hnew as [Hfb Hname]; [|reflexivity].
    split; [|reflexivity]. apply first_born_subs. simpl.
    rewrite app_nil_r in Hleaves, Hsubs. split.
    + apply later_are_leaves_app_new; [reflexivity| |assumption].
      rewrite Hname. exact Hbefore.
    + rewrite forallb_app, Hsubs. simpl. rewrite Hfb. reflexivity.
  - destruct (String.eqb_spec (name sub) midway) as [Heq|Hne].
    + destruct (AppendNewLocation rest0 sub) as [sub'|] eqn:Hsub;
        [|discriminate].
      intros [= <-]. rewrite forallb_app in Hsubs.
      apply andb_prop in Hsubs as [Hb Hs]. simpl in Hs.
      apply andb_prop in Hs as [Hfbsub Hs].
      apply IH in Hsub as [Hfb Hname]; [|assumption].
      split; [|reflexivity]. apply first_born_subs. simpl. split.
      * apply (later_are_leaves_replace sub); [assumption|reflexivity| |assumption].
        rewrite Heq. exact Hbefore.
      * rewrite forallb_app, Hb. simpl. rewrite Hfb, Hs. reflexivity.
    + apply IHsubs.
      * apply Forall_app. split; [assumption|]. constructor; [assumption|constructor].
      * rewrite <- app_assoc. exact Hleaves.
      * rewrite <- app_assoc. exact Hsubs.
Qed.

Lemma CheckNewPath_first_born l :
  forall names idx l' b,
    CheckNewPath l names idx = Some (l', b) ->
    first_born l = true ->
    first_born l' = true /\ name l' = name l.
Proof.
  induction l as [nm subs lks q n elw IH] using Location_tree_ind.
  intros names idx l' b. cbn [CheckNewPath].
  destruct (length subs =? 0)%nat.
  { destruct (AppendNewLocation names _) as [l1|] eqn:Happend; [|discriminate].
    intros [= <- _]. apply (AppendNewLocation_first_born _ _ _ Happend). }
  destruct (S idx =? length names)%nat.
  { destruct (has_sub _ subs); [intros [= <- _]; auto|].
    destruct (AppendNewLocation [_] _) as [l1|] eqn:Happend; [|discriminate].
    intros [= <- _]. apply (AppendNewLocation_first_born _ _ _ Happend). }
  destruct (names !! idx) as [midway|]; [|discriminate].
  match goal with
  | |- match ?f subs with _ => _ end = _ -> _ =>
      assert (Hloop : forall subs' b' seen,
                 Forall (fun sub =>
                           forall names idx l' b,
                             CheckNewPath sub names idx = Some (l', b) ->
                             first_born sub = true ->
                             first_born l' = true /\ name l' = name sub)
                        subs ->
                 f subs = Descended subs' b' ->
                 unseen midway seen ->
                 later_are_leaves seen subs = true ->
                 forallb first_born subs = true ->
                 later_are_leaves seen subs' = true
                 /\ forallb first_born subs' = true);
      [|destruct (f subs) as [|subs' b'|] eqn:Hdescent]
  end.
  - clear. induction subs as [|sub subs IHsubs];
      intros subs' b' seen HIH; [discriminate|].
    inversion HIH as [|? ? Hsub HIH']; subst.
    destruct (String.eqb_spec midway (name sub)) as [Heq|Hne].
    + destruct (CheckNewPath sub names (S idx)) as [[sub' bsub]|] eqn:Hcheck;
        [|discriminate].
      intros [= <- _] Hunseen. simpl.
      intros [Hhead Htail]%andb_prop [Hfbsub Hfbs]%andb_prop.
      destruct (Hsub _ _ _ _ Hcheck Hfbsub) as [Hfb Hname].
      rewrite Hname, Hfb, Hfbs, Htail. rewrite <- Heq.
      unfold unseen in Hunseen. rewrite Hunseen. auto.
    + match goal with
      | |- match ?g subs with _ => _ end = _ -> _ =>
          destruct (g subs) as [|subs'' b''|] eqn:Hrest; try discriminate
      end.
      intros [= <- _] Hunseen. simpl.
      intros [Hhead Htail]%andb_prop [Hfbsub Hfbs]%andb_prop.
      destruct (IHsubs subs'' b'' (name sub :: seen) HIH' eq_refl) as [Hl Hf];
        [apply unseen_cons; assumption|assumption|assumption|].
      rewrite Hhead, Hfbsub, Hl, Hf. auto.
  - destruct (AppendNewLocation (drop idx names) _) as [l1|] eqn:Happend;
      [|discriminate].
    intros [= <- _]. apply (AppendNewLocation_first_born _ _ _ Happend).
  - intros [= <- _] [Hleaves Hsubs]%first_born_subs.
    destruct (Hloop subs' b' [] IH eq_refl) as [Hl Hf];
      [reflexivity|assumption|assumption|].
    split; [|reflexivity]. apply first_born_subs. auto.
  - discriminate.
Qed.

Lemma skeleton_name l : name (skeleton l) = name l.
Proof. destruct l; reflexivity. Qed.

Lemma skeleton_subLocations l :
  subLocations (skeleton l) = map skeleton (subLocations l).
Proof. destruct l; reflexivity. Qed.

Lemma skeleton_eq l l' :
  name l = name l' ->
  map skeleton (subLocations l) = map skeleton (subLocations l') ->
  skeleton l = skeleton l'.
Proof. destruct l, l'. simpl. intros -> ->. reflexivity. Qed.

Lemma later_are_leaves_skeleton subs :
  forall seen,
    later_are_leaves seen (map skeleton subs) = later_are_leaves seen subs.
Proof.
  induction subs as [|sub subs IH]; intros seen; [reflexivity|].
  simpl. rewrite skeleton_name, skeleton_subLocations, length_map, IH.
  reflexivity.
Qed.

Lemma first_born_skeleton l : first_born (skeleton l) = first_born l.
Proof.
  induction l as [nm subs lks q n elw IH] using Location_tree_ind.
  simpl. rewrite later_are_leaves_skeleton. f_equal.
  induction IH as [|sub subs Hsub _ IHsubs]; [reflexivity|].
  simpl. rewrite Hsub, IHsubs. reflexivity.
Qed.

Lemma same_skeleton_first_born l l' :
  skeleton l' = skeleton l -> first_born l = true -> first_born l' = true.
Proof.
  intros Heq. rewrite <- (first_born_skeleton l), <- (first_born_skeleton l').
  rewrite Heq. auto.
Qed.

(** The steps at one location change its lock state only. *)
Ltac same_names :=
  repeat match goal with
         | |- context [if ?c then _ else _] => destruct c
         | |- context [match ?x with _ => _ end] => destruct x
         end;
  simpl; auto.

Lemma lock_request_names l lock :
  match lock_request l lock with
  | Granted l' | Waits l' _ =>
      name l' = name l /\ subLocations l' = subLocations l
  end.
Proof. unfold lock_request. destruct l. cbn. same_names. Qed.

Lemma take_prefix_lock_names l :
  name (take_prefix_lock l) = name l
  /\ subLocations (take_prefix_lock l) = subLocations l.
Proof. destruct l. cbn. auto. Qed.

Lemma Pop_names l unlock l' :
  Pop l unlock = Some l' ->
  name l' = name l /\ subLocations l' = subLocations l.
Proof.
  unfold Pop. destruct l as [nm subs lks q n elw]. cbn.
  destruct q as [|top q]; [intros [= <-]; auto|].
  destruct lks as [|held lks]; [discriminate|].
  destruct (_ && _); [intros [= <-]; auto|].
  destruct (_ && _); [|intros [= <-]; auto].
  destruct elw; [discriminate|]. intros [= <-]. auto.
Qed.

Lemma unlock_target_names l unlock ret l' ret' :
  unlock_target l unlock ret = Some (l', ret') ->
  name l' = name l /\ subLocations l' = subLocations l.
Proof.
  unfold unlock_target.
  destruct (_ && _).
  { destruct (Pop l unlock) as [l1|] eqn:Hpop; [|discriminate].
    intros [= <- _]. apply Pop_names in Hpop. destruct l1. exact Hpop. }
  destruct (_ && _); [|intros [= <- _]; auto].
  destruct (Pop l unlock) as [l1|] eqn:Hpop; [|discriminate].
  intros [= <- _]. apply Pop_names in Hpop. destruct l1. exact Hpop.
Qed.

Lemma unlock_prefix_names l l' :
  unlock_prefix l = Some l' ->
  name l' = name l /\ subLocations l' = subLocations l.
Proof.
  unfold unlock_prefix. destruct (locks l) as [|held lks];
    [intros [= <-]; auto|].
  destruct (negb (Exclusive held)); [|intros [= <-]; auto].
  destruct (Pop l held) as [l1|] eqn:Hpop; [|discriminate].
  intros [= <-]. apply Pop_names in Hpop. destruct l1. exact Hpop.
Qed.

Lemma LockLocation_skeleton l :
  forall lock idx l',
    locked_tree (LockLocation l lock idx) = Some l' ->
    skeleton l' = skeleton l.
Proof.
  induction l as [nm subs lks q n elw IH] using Location_tree_ind.
  intros lock idx l'. cbn [LockLocation].
  set (cur := mkLocation nm subs lks q n elw) in *.
  destruct (is_target cur (PathString lock)) as [[|]|]; [| |discriminate].
  { pose proof (lock_request_names cur lock) as Hnames.
    destruct (lock_request cur lock) as [l1|l1 w]; intros [= <-];
      destruct Hnames as [Hn Hs]; apply skeleton_eq; congruence. }
  destruct (locations_of (PathString lock) !! idx) as [next|]; [|discriminate].
  match goal with
  | |- locked_tree (?f [] subs) = _ -> _ =>
      enough (forall subs0 before,
                 Forall (fun sub =>
                           forall lock idx l',
                             locked_tree (LockLocation sub lock idx) = Some l' ->
                             skeleton l' = skeleton sub) subs0 ->
                 before ++ subs0 = subs ->
                 locked_tree (f before subs0) = Some l' ->
                 skeleton l' = skeleton cur)
        as Hloop by (apply (Hloop subs []); [exact IH|reflexivity])
  end.
  clear IH. induction subs0 as [|sub subs0 IHsubs]; intros before HIH Hsplit.
  - intros [= <-]. reflexivity.
  - inversion HIH as [|? ? Hsub HIH']; subst.
    destruct (String.eqb next (name sub)).
    + destruct (prefix_lock cur) as [l1|] eqn:Hprefix;
        [|intros [= <-]; reflexivity].
      unfold prefix_lock in Hprefix.
      destruct (_ && _); [discriminate|]. injection Hprefix as <-.
      destruct (take_prefix_lock_names cur) as [Hn _].
      destruct (LockLocation sub lock (S idx)) as [sub'|sub'|sub'|] eqn:Hrec;
        try discriminate; intros [= <-];
        (apply skeleton_eq; [exact Hn|]);
        cbn [subLocations set_subLocations cur];
        rewrite !map_app; cbn [map];
        rewrite (Hsub lock (S idx) sub') by (rewrite Hrec; reflexivity);
        reflexivity.
    + apply IHsubs; [assumption|]. rewrite <- app_assoc. reflexivity.
Qed.

Lemma UnlockLocation_skeleton l :
  forall unlock idx ret l' ret',
    UnlockLocation l unlock idx ret = Some (l', ret') ->
    skeleton l' = skeleton l.
Proof.
  induction l as [nm subs lks q n elw IH] using Location_tree_ind.
  intros unlock idx ret l' ret'. cbn [UnlockLocation].
  set (cur := mkLocation nm subs lks q n elw) in *.
  destruct (is_target cur (PathString unlock)) as [[|]|]; [| |discriminate].
  { intros [Hn Hs]%unlock_target_names. apply skeleton_eq; congruence. }
  destruct (locations_of (PathString unlock) !! idx) as [next|];
    [|discriminate].
  match goal with
  | |- ?f [] subs = _ -> _ =>
      enough (forall subs0 before,
                 Forall (fun sub =>
                           forall unlock idx ret l' ret',
                             UnlockLocation sub unlock idx ret = Some (l', ret') ->
                             skeleton l' = skeleton sub) subs0 ->
                 before ++ subs0 = subs ->
                 f before subs0 = Some (l', ret') ->
                 skeleton l' = skeleton cur)
        as Hloop by (apply (Hloop subs []); [exact IH|reflexivity])
  end.
  clear IH. induction subs0 as [|sub subs0 IHsubs]; intros before HIH Hsplit.
  - intros [= <- _]. reflexivity.
  - inversion HIH as [|? ? Hsub HIH']; subst.
    destruct (String.eqb (name sub) next).
    + destruct (unlock_prefix cur) as [l1|] eqn:Hprefix; [|discriminate].
      apply unlock_prefix_names in Hprefix as [Hn _].
      destruct (UnlockLocation sub unlock (S idx) ret) as [[sub' r]|] eqn:Hrec;
        [|discriminate].
      intros [= <- _]. apply skeleton_eq; [exact Hn|].
      cbn [subLocations set_subLocations cur].
      rewrite !map_app. cbn [map]. rewrite (Hsub _ _ _ _ _ Hrec).
      reflexivity.
    + apply IHsubs; [assumption|]. rewrite <- app_assoc. reflexivity.
Qed.

Lemma register_files_first_born files :
  forall tree rejected tree' rejected',
    register_files files tree rejected = Some (tree', rejected') ->
    first_born tree = true -> first_born tree' = true.
Proof.
  induction files as [|file files IH]; simpl; intros tree rejected tree' rejected'.
  - intros [= <- _]. auto.
  - destruct (CheckNewPath tree _ 0) as [[tree1 ok]|] eqn:Hcheck; [|discriminate].
    intros Hrest Hfb. apply (IH _ _ _ _ Hrest).
    apply (CheckNewPath_first_born _ _ _ _ _ Hcheck Hfb).
Qed.

Lemma HandleRegistration_first_born s storage_server o :
  HandleRegistration s storage_server = Some o ->
  first_born (root s) = true -> first_born (root (server o)) = true.
Proof.
  unfold HandleRegistration. destruct (existsb _ (registry s)).
  { intros [= <-]. auto. }
  destruct (register_files _ _ _) as [[tree rejected]|] eqn:Hfiles;
    [|discriminate].
  intros [= <-]. apply (register_files_first_born _ _ _ _ _ Hfiles).
Qed.

Lemma created_first_born tree locations (o : Outcome)
    (k : Location -> bool -> option Outcome) :
  match CheckNewPath tree locations 0 with
  | Some (tree', b) => k tree' b
  | None => None
  end = Some o ->
  (forall tree' b, k tree' b = Some o -> root (server o) = tree') ->
  first_born tree = true -> first_born (root (server o)) = true.
Proof.
  destruct (CheckNewPath tree locations 0) as [[tree' b]|] eqn:Hcheck;
    [|discriminate].
  intros Hk Hroot Hfb. rewrite (Hroot _ _ Hk).
  apply (CheckNewPath_first_born _ _ _ _ _ Hcheck Hfb).
Qed.

Lemma HandleServiceCommand_first_born storage s r o :
  HandleServiceCommand storage s r = Some o ->
  first_born (root s) = true -> first_born (root (server o)) = true.
Proof.
  assert (Hsame : forall a sent', Some (mkOutcome a s sent') = Some o ->
                    first_born (root s) = true ->
                    first_born (root (server o)) = true)
    by (intros a sent' [= <-]; auto).
  destruct r as [path|path|path|path|path|path|path ex|path ex|path|];
    cbn [HandleServiceCommand]; try (apply Hsame).
  - (* is_directory *)
    destruct (negb (IsPathValid path)); [apply Hsame|].
    destruct (LocationExists _ _ _) as [[names b]|]; [|discriminate].
    destruct (b || _); [destruct (Contains _ _)|]; apply Hsame.
  - (* list *)
    destruct (negb (IsPathValid path)); [apply Hsame|].
    destruct (LocationExists _ _ _) as [[names b]|]; [|discriminate].
    destruct (b || _); [|apply Hsame].
    destruct (_ && _); [apply Hsame|].
    destruct (GetContentsAt _ _ _) as [[names' content]|]; [|discriminate].
    apply Hsame.
  - (* create_directory *)
    destruct (negb (IsPathValid path)); [apply Hsame|].
    destruct (parent_rejected _ _) as [[|]|]; [apply Hsame| |discriminate].
    destruct (LocationExists _ _ _) as [[names b]|]; [|discriminate].
    destruct (b || _); [apply Hsame|].
    intros Hcreate. apply (created_first_born _ _ _ _ Hcreate).
    intros tree' b' [= <-]. reflexivity.
  - (* create_file *)
    destruct (negb (IsPathValid path)); [apply Hsame|].
    destruct (parent_rejected _ _) as [[|]|]; [apply Hsame| |discriminate].
    destruct (LocationExists _ _ _) as [[names b]|]; [|discriminate].
    destruct (b || _); [apply Hsame|].
    intros Hcreate. apply (created_first_born _ _ _ _ Hcreate).
    intros tree' b' [= <-]. reflexivity.
  - (* get_storage *)
    destruct (negb (IsPathValid path)); [apply Hsame|].
    destruct (LocationExists _ _ _) as [[names b]|]; [|discriminate].
    destruct (negb b || _); [apply Hsame|].
    destruct (hosting_server _ _); apply Hsame.
  - (* lock *)
    destruct (negb (IsPathValid path)); [apply Hsame|].
    destruct (LocationExists _ _ _) as [[names b]|]; [|discriminate].
    destruct (negb b && _); [apply Hsame|].
    pose proof (LockLocation_skeleton (root s) (mkLock path ex 0) 0) as Hsk.
    destruct (LockLocation _ _ _) as [tree|tree|tree|]; try discriminate;
      intros [= <-] Hfb; cbn [server root with_root];
      apply (same_skeleton_first_born (root s)); auto.
  - (* unlock *)
    destruct (negb (IsPathValid path)); [apply Hsame|].
    destruct (LocationExists _ _ _) as [[names b]|]; [|discriminate].
    destruct (negb b && _); [apply Hsame|].
    destruct (UnlockLocation _ _ _ _) as [[tree ok]|] eqn:Hunlock;
      [|discriminate].
    apply UnlockLocation_skeleton in Hunlock.
    destruct ok.
    + destruct (Increment_Access_Count _ _ _) as [counts copies].
      intros [= <-] Hfb. cbn [server root with_root with_access_counts].
      apply (same_skeleton_first_born (root s)); auto.
    + intros [= <-] Hfb. cbn [server root with_root].
      apply (same_skeleton_first_born (root s)); auto.
  - (* delete *)
    destruct (negb (IsPathValid path)); [apply Hsame|].
    destruct (LocationExists _ _ _) as [[names b]|]; [|discriminate].
    destruct (negb b && _); apply Hsame.
Qed.

(** In every server that the handlers can produce, among equally named
    sub-locations only the first has sub-locations of its own. *)
Lemma reachable_server_first_born s :
  reachable_server s -> first_born (root s) = true.
Proof.
  induction 1 as [|s ss o _ IH Hreg|storage s r o _ IH Hserve].
  - reflexivity.
  - apply (HandleRegistration_first_born _ _ _ Hreg IH).
  - apply (HandleServiceCommand_first_born _ _ _ _ Hserve IH).
Qed.

(** Hence, in every such server, [LocationExists] finds a path exactly
    when a chain of sub-locations spells it. *)
Lemma reachable_LocationExists s names :
  reachable_server s -> names <> [] ->
  exists names',
    LocationExists (root s) names false = Some (names', has_path names (root s)).
Proof.
  intros Hreach. apply LocationExists_has_path.
  apply (reachable_server_first_born s Hreach).
Qed.

Lemma one_file_server_reachable : reachable_server one_file_server.
Proof.
  apply (reachable_registration initial_server (storage1 ["/file"])
           (mkOutcome (FilesResponse []) one_file_server [])).
  - apply reachable_initial.
  - reflexivity.
Qed.

(** ** Locking a path that does not exist (C9) *)

(** C9: in every server that the handlers can produce, a [/lock] request
    with a valid path, other than ["/"], that no chain of sub-locations
    spells is answered with FileNotFoundException; nothing is sent and the
    server, with every lock queue and every list of held locks, is left as
    it was. *)
Theorem C9_lock_on_missing_path storage s path exclusive :
  reachable_server s ->
  IsPathValid path = true ->
  path <> "/" ->
  has_path (locations_of path) (root s) = false ->
  HandleServiceCommand storage s (lock_ path exclusive)
  = Some (mkOutcome file_not_found s []).
Proof.
  intros Hreach Hvalid Hroot Habsent.
  destruct (reachable_LocationExists s (locations_of path) Hreach
              (locations_of_not_nil path Hvalid)) as (names & Hle).
  rewrite Habsent in Hle.
  apply (lock_on_unfound_path storage s path exclusive names);
    assumption.
Qed.

Lemma C9_lock_on_missing_path_witness :
  IsPathValid "/missing" = true
  /\ has_path (locations_of "/missing") (root one_file_server) = false
  /\ HandleServiceCommand storage_ok one_file_server (lock_ "/missing" true)
     = Some (mkOutcome file_not_found one_file_server []).
Proof.
  split; [reflexivity|]. split; [reflexivity|].
  apply (C9_lock_on_missing_path storage_ok one_file_server "/missing" true);
    [apply one_file_server_reachable|reflexivity|discriminate|reflexivity].
Defined.

(** ** Deleting a path that exists (C3) *)

(** C3, what the code does: in every server that the handlers can
    produce, [/delete] of a valid path that a chain of sub-locations spells
    answers [{success: true}] and leaves the server as it was; the chain is
    still there afterwards, and [/is_directory] answers as before the
    deletion. *)
Theorem C3_delete_keeps_the_location storage s path :
  reachable_server s ->
  IsPathValid path = true ->
  has_path (locations_of path) (root s) = true ->
  exists o,
    HandleServiceCommand storage s (delete_ path) = Some o
    /\ reply o = ServiceResponse true
    /\ server o = s
    /\ has_path (locations_of path) (root (server o)) = true
    /\ HandleServiceCommand storage (server o) (is_directory path)
       = HandleServiceCommand storage s (is_directory path).
Proof.
  intros Hreach Hvalid Hexists.
  destruct (reachable_LocationExists s (locations_of path) Hreach
              (locations_of_not_nil path Hvalid)) as (names & Hle).
  rewrite Hexists in Hle.
  eexists. split; [apply (delete_of_found_path storage s path names Hvalid Hle)|].
  simpl. repeat split. exact Hexists.
Qed.

Lemma C3_delete_keeps_the_location_witness :
  exists o,
    HandleServiceCommand storage_ok one_file_server (delete_ "/file") = Some o
    /\ reply o = ServiceResponse true
    /\ HandleServiceCommand storage_ok (server o) (is_directory "/file")
       = Some (mkOutcome (ServiceResponse false) one_file_server []).
Proof.
  destruct (C3_delete_keeps_the_location storage_ok one_file_server "/file"
              one_file_server_reachable eq_refl eq_refl)
    as (o & Ho & Hreply & Hserver & _ & _).
  exists o. split; [exact Ho|]. split; [exact Hreply|].
  rewrite Hserver. reflexivity.
Defined.

(** ** What [SendDelete] sends after an exclusive unlock

    Relative to the server that [find_owner] returns, the invalidation
    works as intended: nothing goes to its command port, and with at least
    two registered servers and no failing request every other server is
    told to delete the file. *)

Lemma SendDelete_skips_found_owner storage s file m :
  In m (SendDelete storage s file false) ->
  command m = storage_delete file
  /\ to_port m <> snd (find_owner (registry s) file).
Proof.
  unfold SendDelete. destruct (1 <? length (registry s))%nat; [|contradiction].
  intros (Hcmd & _ & Hskip)%send_each_In. split; [exact Hcmd|].
  rewrite andb_true_r in Hskip. apply Z.eqb_neq. exact Hskip.
Qed.

Lemma SendDelete_reaches_the_others storage s file storage_server :
  (1 < length (registry s))%nat ->
  (forall port cmd, storage port cmd <> None) ->
  In storage_server (registry s) ->
  CommandPort storage_server <> snd (find_owner (registry s) file) ->
  In (mkSent (CommandPort storage_server) (storage_delete file))
     (SendDelete storage s file false).
Proof.
  intros Hmany Hup Hin Hport. unfold SendDelete.
  apply Nat.ltb_lt in Hmany. rewrite Hmany.
  apply send_each_complete.
  - intros port. apply Hup.
  - apply in_map. exact Hin.
  - rewrite andb_true_r. apply Z.eqb_neq. exact Hport.
Qed.

(** The owner that [find_owner] returns is the last server of the registry
    that lists the file. *)
Lemma find_owner_last reg storage_server later file :
  existsb (String.eqb file) (Files storage_server) = true ->
  Forall (fun ss => existsb (String.eqb file) (Files ss) = false) later ->
  find_owner (reg ++ storage_server :: later) file
  = (ClientPort storage_server, CommandPort storage_server).
Proof.
  intros Hlists Hlater. unfold find_owner.
  rewrite fold_left_app. cbn [fold_left]. rewrite Hlists.
  generalize (ClientPort storage_server, CommandPort storage_server).
  induction Hlater as [|ss later Hss _ IH]; intros owner; [reflexivity|].
  cbn [fold_left]. rewrite Hss. apply IH.
Qed.

(** ** Reported paths that the tree already has

    The half of the reconciliation that holds: in a tree of the shape
    above, [CheckNewPath] answers [false] for a path that a chain of
    sub-locations spells and leaves the tree alone, so the path is put in
    the list of files to delete. *)

Lemma drop_cons_inv {A} (l : list A) idx x rest :
  drop idx l = x :: rest ->
  l !! idx = Some x /\ drop (S idx) l = rest
  /\ length l = (S idx + length rest)%nat.
Proof.
  intros Hdrop. repeat split.
  - rewrite <- (Nat.add_0_r idx), <- lookup_drop, Hdrop. reflexivity.
  - change (S idx) with (1 + idx)%nat.
    rewrite Nat.add_comm, <- drop_drop, Hdrop. reflexivity.
  - apply (f_equal (@length A)) in Hdrop. rewrite length_drop in Hdrop.
    simpl in Hdrop. lia.
Qed.

Lemma CheckNewPath_rejects_existing l :
  forall names idx,
    first_born l = true ->
    has_path (drop idx names) l = true ->
    CheckNewPath l names idx = Some (l, false).
Proof.
  induction l as [nm subs lks q n elw IH] using Location_tree_ind.
  intros names idx [Hleaves Hfb]%first_born_subs Hpath.
  cbn [subLocations] in Hleaves, Hfb.
  destruct (drop idx names) as [|midway rest] eqn:Hdrop; [discriminate|].
  apply drop_cons_inv in Hdrop as (Hlookup & Hrest & Hlen).
  assert (Hsubs : (length subs =? 0)%nat = false).
  { destruct subs; [|reflexivity]. destruct rest; discriminate. }
  cbn [CheckNewPath]. rewrite Hsubs.
  destruct rest as [|next rest].
  { (* the last name *)
    assert ((S idx =? length names)%nat = true) as ->
      by (apply Nat.eqb_eq; simpl in Hlen; lia).
    assert (List.last names "" = midway) as ->.
    { rewrite <- (take_drop idx names). rewrite (drop_S _ _ _ Hlookup), Hrest.
      apply last_last. }
    simpl in Hpath. rewrite Hpath. reflexivity. }
  assert ((S idx =? length names)%nat = false) as ->
    by (apply Nat.eqb_neq; simpl in Hlen; lia).
  rewrite Hlookup.
  set (rest0 := next :: rest) in *.
  change (has_path (midway :: rest0) (mkLocation nm subs lks q n elw))
    with (existsb (fun sub => String.eqb midway (name sub)
                              && has_path rest0 sub) subs) in Hpath.
  match goal with
  | |- match ?f subs with _ => _ end = _ =>
      enough (forall seen,
                 unseen midway seen ->
                 later_are_leaves seen subs = true ->
                 f subs = Descended subs false)
        as Hloop by (rewrite (Hloop []); [reflexivity|reflexivity|assumption])
  end.
  clear Hleaves Hsubs.
  induction IH as [|sub subs Hsub _ IHloop]; [discriminate|].
  intros seen Hunseen [Hhead Htail]%andb_prop.
  cbn [forallb] in Hfb. apply andb_prop in Hfb as [Hfbsub Hfbs].
  cbn [existsb] in Hpath.
  destruct (String.eqb_spec midway (name sub)) as [Heq|Hne].
  - rewrite (later_leaves_have_no_path midway rest0 subs (name sub :: seen))
      in Hpath.
    + rewrite orb_false_r in Hpath. cbn [andb] in Hpath.
      rewrite (Hsub names (S idx) Hfbsub); [reflexivity|].
      rewrite Hrest. exact Hpath.
    + simpl. rewrite Heq, String.eqb_refl. reflexivity.
    + exact Htail.
  - cbn [andb orb] in Hpath.
    rewrite (IHloop Hfbs Hpath (name sub :: seen));
      [reflexivity|apply unseen_cons; assumption|exact Htail].
Qed.

Lemma reported_existing_path_is_listed s file :
  reachable_server s ->
  has_path (trimmed_locations file) (root s) = true ->
  register_files [file] (root s) []
  = Some (root s, ["/" +:+ TrimLeft file "/"]).
Proof.
  intros Hreach Hpath. cbn [register_files].
  fold (trimmed_locations file).
  rewrite (CheckNewPath_rejects_existing (root s) (trimmed_locations file) 0);
    [reflexivity|apply (reachable_server_first_born s Hreach)|exact Hpath].
Qed.

(** * Further properties of the naming server *)

(** ** What a handled request can change

    A service request leaves the registry alone; the tree afterwards is
    the old one or the result of one call of [CheckNewPath],
    [LockLocation] or [UnlockLocation] at the root; the counters change
    only through [Increment_Access_Count]. A registration appends one
    storage server and runs [CheckNewPath] once for every reported file. *)

Lemma HandleServiceCommand_frame storage s r o :
  HandleServiceCommand storage s r = Some o ->
  registry (server o) = registry s
  /\ (root (server o) = root s
      \/ (exists path b,
            CheckNewPath (root s) (trimmed_locations path) 0
            = Some (root (server o), b))
      \/ (exists path ex,
            IsPathValid path = true
            /\ locked_tree (LockLocation (root s) (mkLock path ex 0) 0)
               = Some (root (server o)))
      \/ (exists path ex ret,
            IsPathValid path = true
            /\ UnlockLocation (root s) (mkLock path ex 0) 0 false
               = Some (root (server o), ret)))
  /\ (access_counts (server o) = access_counts s
      \/ exists path,
           access_counts (server o) = counted_up (access_counts s) path).
Proof.
  assert (Hsame : forall a sent', Some (mkOutcome a s sent') = Some o ->
            registry (server o) = registry s
            /\ (root (server o) = root s
                \/ (exists path b,
                      CheckNewPath (root s) (trimmed_locations path) 0
                      = Some (root (server o), b))
                \/ (exists path ex,
                      IsPathValid path = true
                      /\ locked_tree (LockLocation (root s) (mkLock path ex 0) 0)
                         = Some (root (server o)))
                \/ (exists path ex ret,
                      IsPathValid path = true
                      /\ UnlockLocation (root s) (mkLock path ex 0) 0 false
                         = Some (root (server o), ret)))
            /\ (access_counts (server o) = access_counts s
                \/ exists path,
                     access_counts (server o)
                     = counted_up (access_counts s) path))
    by (intros a sent' [= <-]; auto).
  destruct r as [path|path|path|path|path|path|path ex|path ex|path|];
    cbn [HandleServiceCommand]; try (apply Hsame).
  - destruct (negb (IsPathValid path)); [apply Hsame|].
    destruct (LocationExists _ _ _) as [[names b]|]; [|discriminate].
    destruct (b || _); [destruct (Contains _ _)|]; apply Hsame.
  - destruct (negb (IsPathValid path)); [apply Hsame|].
    destruct (LocationExists _ _ _) as [[names b]|]; [|discriminate].
    destruct (b || _); [|apply Hsame].
    destruct (_ && _); [apply Hsame|].
    destruct (GetContentsAt _ _ _) as [[names' content]|]; [|discriminate].
    apply Hsame.
  - destruct (negb (IsPathValid path)); [apply Hsame|].
    destruct (parent_rejected _ _) as [[|]|]; [apply Hsame| |discriminate].
    destruct (LocationExists _ _ _) as [[names b]|]; [|discriminate].
    destruct (b || _); [apply Hsame|].
    destruct (CheckNewPath _ _ 0) as [[tree ok]|] eqn:Hcheck; [|discriminate].
    intros [= <-]. cbn [server root registry access_counts with_root].
    split; [reflexivity|]. split; [|auto].
    right. left. exists path, ok. exact Hcheck.
  - destruct (negb (IsPathValid path)); [apply Hsame|].
    destruct (parent_rejected _ _) as [[|]|]; [apply Hsame| |discriminate].
    destruct (LocationExists _ _ _) as [[names b]|]; [|discriminate].
    destruct (b || _); [apply Hsame|].
    destruct (CheckNewPath _ _ 0) as [[tree ok]|] eqn:Hcheck; [|discriminate].
    intros [= <-]. cbn [server root registry access_counts with_root].
    split; [reflexivity|]. split; [|auto].
    right. left. exists path, ok. exact Hcheck.
  - destruct (negb (IsPathValid path)); [apply Hsame|].
    destruct (LocationExists _ _ _) as [[names b]|]; [|discriminate].
    destruct (negb b || _); [apply Hsame|].
    destruct (hosting_server _ _); apply Hsame.
  - destruct (negb (IsPathValid path)) eqn:Hvalid; [apply Hsame|].
    apply negb_false_iff in Hvalid.
    destruct (LocationExists _ _ _) as [[names b]|]; [|discriminate].
    destruct (negb b && _); [apply Hsame|].
    destruct (LockLocation _ _ _) as [tree|tree|tree|] eqn:Hlock;
      try discriminate; intros [= <-];
      cbn [server root registry access_counts with_root];
      (split; [reflexivity|]); (split; [|auto]);
      right; right; left; exists path, ex; rewrite Hlock; auto.
  - destruct (negb (IsPathValid path)) eqn:Hvalid; [apply Hsame|].
    apply negb_false_iff in Hvalid.
    destruct (LocationExists _ _ _) as [[names b]|]; [|discriminate].
    destruct (negb b && _); [apply Hsame|].
    destruct (UnlockLocation _ _ _ _) as [[tree ok]|] eqn:Hunlock;
      [|discriminate].
    destruct ok.
    + rewrite Increment_Access_Count_counted.
      cbn [access_counts with_root].
      destruct (20 <=? counted (access_counts s) path) eqn:Hcount;
        intros [= <-];
        cbn [server root registry access_counts with_root with_access_counts];
        (split; [reflexivity|]); split;
        try (right; right; right; exists path, ex, true; auto);
        right; exists path; unfold counted_up; rewrite Hcount; reflexivity.
    + intros [= <-]. cbn [server root registry access_counts with_root].
      split; [reflexivity|]. split; [|auto].
      right. right. right. exists path, ex, false. auto.
  - destruct (negb (IsPathValid path)); [apply Hsame|].
    destruct (LocationExists _ _ _) as [[names b]|]; [|discriminate].
    destruct (negb b && _); apply Hsame.
Qed.

Lemma HandleRegistration_frame s storage_server o :
  HandleRegistration s storage_server = Some o ->
  (o = mkOutcome (ExceptionResponse 409 IllegalStateException) s []
   /\ exists ss, In ss (registry s)
                 /\ (ClientPort ss = ClientPort storage_server
                     \/ CommandPort ss = CommandPort storage_server))
  \/ (Forall (fun ss => ClientPort ss <> ClientPort storage_server
                        /\ CommandPort ss <> CommandPort storage_server)
        (registry s)
      /\ exists rejected,
           register_files (Files storage_server) (root s) []
           = Some (root (server o), rejected)
           /\ reply o = FilesResponse rejected
           /\ registry (server o) = registry s ++ [storage_server]
           /\ access_counts (server o) = access_counts s).
Proof.
  unfold HandleRegistration.
  destruct (existsb _ (registry s)) eqn:Hclash.
  - intros [= <-]. left. split; [reflexivity|].
    apply existsb_exists in Hclash as (ss & Hin & Hports).
    exists ss. split; [exact Hin|].
    apply orb_true_iff in Hports as [H|H]; apply Z.eqb_eq in H; auto.
  - destruct (register_files _ _ _) as [[tree rejected]|] eqn:Hfiles;
      [|discriminate].
    intros [= <-]. right. split.
    + apply List.Forall_forall. intros ss Hin.
      assert (Hss : (ClientPort ss =? ClientPort storage_server)
                    || (CommandPort ss =? CommandPort storage_server) = false).
      { destruct (_ || _) eqn:E; [|reflexivity].
        assert (existsb
                  (fun ss => (ClientPort ss =? ClientPort storage_server)
                             || (CommandPort ss =? CommandPort storage_server))
                  (registry s) = true)
          by (apply existsb_exists; eauto).
        congruence. }
      apply orb_false_iff in Hss as [H1 H2].
      apply Z.eqb_neq in H1, H2. auto.
    + exists rejected. cbn. auto.
Qed.

(** ** The registry *)

Lemma not_in_map_ports {A} (f : A -> Z) (reg : list A) (x : Z) :
  Forall (fun ss => f ss <> x) reg -> x ∉ map f reg.
Proof.
  intros Hall Hin. apply list_elem_of_In, in_map_iff in Hin as (ss & Heq & Hss).
  rewrite Forall_forall in Hall. apply list_elem_of_In in Hss.
  exact (Hall ss Hss Heq).
Qed.

Lemma two_owner_server_reachable : reachable_server two_owner_server.
Proof.
  apply (reachable_registration one_file_server (storage2 ["/file"])
           (mkOutcome (FilesResponse ["/file"]) two_owner_server [])).
  - apply one_file_server_reachable.
  - vm_compute. reflexivity.
Qed.

(** X1: in every server that the handlers can produce, no two registered
    storage servers have the same client port and no two have the same
    command port. *)
Theorem registry_ports_stay_distinct s :
  reachable_server s -> ports_distinct (registry s).
Proof.
  induction 1 as [|s ss o _ IH Hreg|storage s r o _ IH Hserve].
  - split; constructor.
  - apply HandleRegistration_frame in Hreg
      as [[-> _]|(Hfresh & rejected & _ & _ & -> & _)]; [exact IH|].
    destruct IH as [Hclient Hcommand]. unfold ports_distinct.
    rewrite !map_app. cbn [map]. split; apply NoDup_app.
    + split; [exact Hclient|]. split; [|apply NoDup_singleton].
      intros x Hx ->%list_elem_of_singleton. revert Hx.
      apply not_in_map_ports. eapply Forall_impl; [exact Hfresh|].
      intros ss' [H1 _]. exact H1.
    + split; [exact Hcommand|]. split; [|apply NoDup_singleton].
      intros x Hx ->%list_elem_of_singleton. revert Hx.
      apply not_in_map_ports. eapply Forall_impl; [exact Hfresh|].
      intros ss' [_ H2]. exact H2.
  - apply HandleServiceCommand_frame in Hserve as (-> & _). exact IH.
Qed.

Lemma registry_ports_stay_distinct_witness :
  ports_distinct (registry two_owner_server).
Proof.
  apply (registry_ports_stay_distinct two_owner_server).
  apply two_owner_server_reachable.
Defined.

(** X2: a storage server that registers a second time, right after its
    registration was accepted, is answered with 409 and
    IllegalStateException, and the second request changes nothing. *)
Theorem second_registration_is_refused s storage_server o files :
  HandleRegistration s storage_server = Some o ->
  reply o = FilesResponse files ->
  HandleRegistration (server o) storage_server
  = Some (mkOutcome (ExceptionResponse 409 IllegalStateException)
            (server o) []).
Proof.
  intros Hreg Hreply.
  apply HandleRegistration_frame in Hreg
    as [[-> _]|(_ & rejected & _ & _ & Hregistry & _)]; [discriminate|].
  unfold HandleRegistration. rewrite Hregistry.
  rewrite existsb_app. cbn [existsb]. rewrite !Z.eqb_refl.
  cbn [orb]. rewrite orb_true_r. reflexivity.
Qed.

Lemma second_registration_is_refused_witness :
  HandleRegistration one_file_server (storage1 ["/file"])
  = Some (mkOutcome (ExceptionResponse 409 IllegalStateException)
            one_file_server []).
Proof.
  apply (second_registration_is_refused initial_server (storage1 ["/file"])
           (mkOutcome (FilesResponse []) one_file_server []) []);
    reflexivity.
Defined.

(** ** The access counters *)




(** ** The loops over the sub-locations *)

Lemma split_at_name_Some n subs before sub after :
  split_at_name n subs = Some (before, sub, after) ->
  subs = before ++ sub :: after
  /\ name sub = n
  /\ Forall (fun x => name x <> n) before.
Proof.
  revert before. induction subs as [|x subs IH]; intros before; [discriminate|].
  simpl. destruct (String.eqb_spec n (name x)) as [Heq|Hne].
  - intros [= <- <- <-]. auto.
  - destruct (split_at_name n subs) as [[[b f] a]|]; [|discriminate].
    intros [= <- <- <-]. destruct (IH b eq_refl) as (-> & Hname & Hbefore).
    repeat split; auto.
Qed.

Lemma split_at_name_None n subs :
  split_at_name n subs = None -> has_sub n subs = false.
Proof.
  induction subs as [|x subs IH]; [reflexivity|].
  simpl. destruct (String.eqb n (name x)); [discriminate|].
  destruct (split_at_name n subs) as [[[b f] a]|]; [discriminate|].
  intros _. apply IH. reflexivity.
Qed.

Lemma split_at_name_has_sub n subs :
  has_sub n subs = match split_at_name n subs with
                   | Some _ => true
                   | None => false
                   end.
Proof.
  unfold has_sub. induction subs as [|x subs IH]; [reflexivity|].
  cbn [existsb split_at_name].
  destruct (String.eqb n (name x)); [reflexivity|].
  cbn [orb]. rewrite IH.
  destruct (split_at_name n subs) as [[[b f] a]|]; reflexivity.
Qed.

Lemma split_at_name_In n subs before sub after :
  split_at_name n subs = Some (before, sub, after) -> In sub subs.
Proof.
  intros (-> & _ & _)%split_at_name_Some. apply in_elt.
Qed.

Lemma AppendNewLocation_step midway next rest l :
  AppendNewLocation (midway :: next :: rest) l
  = if String.eqb (name l) midway then AppendNewLocation (next :: rest) l
    else match split_at_name midway (subLocations l) with
         | Some (before, sub, after) =>
             match AppendNewLocation (next :: rest) sub with
             | Some sub' => Some (set_subLocations l (before ++ sub' :: after))
             | None => None
             end
         | None =>
             match AppendNewLocation (next :: rest) (newLocation midway) with
             | Some new => Some (set_subLocations l (subLocations l ++ [new]))
             | None => None
             end
         end.
Proof.
  set (rest0 := next :: rest).
  change (AppendNewLocation (midway :: rest0) l)
    with (if String.eqb (name l) midway then AppendNewLocation rest0 l
          else (fix each_sub (before subs : list Location) {struct subs}
                    : option Location :=
                  match subs with
                  | sub :: subs' =>
                      if String.eqb (name sub) midway then
                        match AppendNewLocation rest0 sub with
                        | Some sub' =>
                            Some (set_subLocations l (before ++ sub' :: subs'))
                        | None => None
                        end
                      else each_sub (before ++ [sub]) subs'
                  | [] =>
                      match AppendNewLocation rest0 (newLocation midway) with
                      | Some newMidwayLocation =>
                          Some (set_subLocations l
                                  (before ++ [newMidwayLocation]))
                      | None => None
                      end
                  end) [] (subLocations l)).
  destruct (String.eqb (name l) midway); [reflexivity|].
  match goal with
  | |- ?f [] (subLocations l) = _ =>
      enough (forall subs before0,
                 f before0 subs
                 = match split_at_name midway subs with
                   | Some (before, sub, after) =>
                       match AppendNewLocation rest0 sub with
                       | Some sub' =>
                           Some (set_subLocations l
                                   (before0 ++ before ++ sub' :: after))
                       | None => None
                       end
                   | None =>
                       match AppendNewLocation rest0 (newLocation midway) with
                       | Some new =>
                           Some (set_subLocations l (before0 ++ subs ++ [new]))
                       | None => None
                       end
                   end)
        as Hgen by (apply (Hgen (subLocations l) []))
  end.
  induction subs as [|sub subs IH]; intros before0; [reflexivity|].
  cbn [split_at_name]. rewrite (String.eqb_sym midway (name sub)).
  destruct (String.eqb (name sub) midway); [reflexivity|].
  rewrite IH.
  destruct (split_at_name midway subs) as [[[b f] a]|];
    [destruct (AppendNewLocation rest0 f)
    |destruct (AppendNewLocation rest0 (newLocation midway))];
    rewrite <- ?app_assoc; reflexivity.
Qed.

Lemma CheckNewPath_step l names idx :
  CheckNewPath l names idx
  = if (length (subLocations l) =? 0)%nat then
      match AppendNewLocation names l with
      | Some l' => Some (l', true)
      | None => None
      end
    else if (S idx =? length names)%nat then
      if has_sub (List.last names "") (subLocations l) then Some (l, false)
      else match AppendNewLocation [List.last names ""] l with
           | Some l' => Some (l', true)
           | None => None
           end
    else
      match names !! idx with
      | None => None
      | Some midway =>
          match split_at_name midway (subLocations l) with
          | Some (before, sub, after) =>
              match CheckNewPath sub names (S idx) with
              | Some (sub', b) =>
                  Some (set_subLocations l (before ++ sub' :: after), b)
              | None => None
              end
          | None =>
              match AppendNewLocation (drop idx names) l with
              | Some l' => Some (l', true)
              | None => None
              end
          end
      end.
Proof.
  destruct l as [nm subs lks q n elw]. cbn [CheckNewPath subLocations].
  destruct (length subs =? 0)%nat; [reflexivity|].
  destruct (S idx =? length names)%nat; [reflexivity|].
  destruct (names !! idx) as [midway|]; [|reflexivity].
  match goal with
  | |- match ?f subs with _ => _ end = _ =>
      assert (Hloop : forall subs0,
                 f subs0
                 = match split_at_name midway subs0 with
                   | Some (before, sub, after) =>
                       match CheckNewPath sub names (S idx) with
                       | Some (sub', b) => Descended (before ++ sub' :: after) b
                       | None => DescentPanic
                       end
                   | None => NoSuchSub
                   end)
  end.
  { induction subs0 as [|sub subs0 IH]; [reflexivity|].
    cbn [split_at_name]. destruct (String.eqb midway (name sub)).
    - destruct (CheckNewPath sub names (S idx)) as [[sub' b]|]; reflexivity.
    - rewrite IH. destruct (split_at_name midway subs0) as [[[b f] a]|];
        [|reflexivity].
      destruct (CheckNewPath f names (S idx)) as [[sub' b']|]; reflexivity. }
  rewrite Hloop. destruct (split_at_name midway subs) as [[[b f] a]|];
    [|reflexivity].
  destruct (CheckNewPath f names (S idx)) as [[sub' b']|]; reflexivity.
Qed.

Lemma LockLocation_step l lock idx :
  LockLocation l lock idx
  = match is_target l (PathString lock) with
    | None => LockPanic
    | Some true =>
        match lock_request l lock with
        | Granted l' => Locked l'
        | Waits l' _ => Spinning l'
        end
    | Some false =>
        match locations_of (PathString lock) !! idx with
        | None => LockPanic
        | Some nextLocation =>
            match split_at_name nextLocation (subLocations l) with
            | None => NotReached l
            | Some (before, sub, after) =>
                match prefix_lock l with
                | None => Spinning l
                | Some l1 =>
                    let put sub' :=
                      set_subLocations l1 (before ++ sub' :: after) in
                    match LockLocation sub lock (S idx) with
                    | Locked sub' => Locked (put sub')
                    | Spinning sub' => Spinning (put sub')
                    | NotReached sub' => NotReached (put sub')
                    | LockPanic => LockPanic
                    end
                end
            end
        end
    end.
Proof.
  destruct l as [nm subs lks q n elw]. cbn [LockLocation subLocations].
  set (cur := mkLocation nm subs lks q n elw).
  destruct (is_target cur (PathString lock)) as [[|]|]; try reflexivity.
  destruct (locations_of (PathString lock) !! idx) as [next|]; [|reflexivity].
  match goal with
  | |- ?f [] subs = _ =>
      enough (forall subs0 before0,
                 f before0 subs0
                 = match split_at_name next subs0 with
                   | None => NotReached cur
                   | Some (before, sub, after) =>
                       match prefix_lock cur with
                       | None => Spinning cur
                       | Some l1 =>
                           let put sub' :=
                             set_subLocations l1
                               (before0 ++ before ++ sub' :: after) in
                           match LockLocation sub lock (S idx) with
                           | Locked sub' => Locked (put sub')
                           | Spinning sub' => Spinning (put sub')
                           | NotReached sub' => NotReached (put sub')
                           | LockPanic => LockPanic
                           end
                       end
                   end)
        as Hgen by (apply (Hgen subs []))
  end.
  induction subs0 as [|sub subs0 IH]; intros before0; [reflexivity|].
  cbn [split_at_name]. destruct (String.eqb next (name sub)); [reflexivity|].
  rewrite IH. destruct (split_at_name next subs0) as [[[b f] a]|];
    [|reflexivity].
  destruct (prefix_lock cur); [|reflexivity].
  cbn zeta. destruct (LockLocation f lock (S idx));
    rewrite <- ?app_assoc; reflexivity.
Qed.

Lemma UnlockLocation_step l unlock idx ret :
  UnlockLocation l unlock idx ret
  = match is_target l (PathString unlock) with
    | None => None
    | Some true => unlock_target l unlock ret
    | Some false =>
        match locations_of (PathString unlock) !! idx with
        | None => None
        | Some nextLocation =>
            match split_at_name nextLocation (subLocations l) with
            | None => Some (l, ret)
            | Some (before, sub, after) =>
                match unlock_prefix l with
                | None => None
                | Some l1 =>
                    match UnlockLocation sub unlock (S idx) ret with
                    | Some (sub', ret') =>
                        Some (set_subLocations l1 (before ++ sub' :: after),
                              ret')
                    | None => None
                    end
                end
            end
        end
    end.
Proof.
  destruct l as [nm subs lks q n elw]. cbn [UnlockLocation subLocations].
  set (cur := mkLocation nm subs lks q n elw).
  destruct (is_target cur (PathString unlock)) as [[|]|]; try reflexivity.
  destruct (locations_of (PathString unlock) !! idx) as [next|];
    [|reflexivity].
  match goal with
  | |- ?f [] subs = _ =>
      enough (forall subs0 before0,
                 f before0 subs0
                 = match split_at_name next subs0 with
                   | None => Some (cur, ret)
                   | Some (before, sub, after) =>
                       match unlock_prefix cur with
                       | None => None
                       | Some l1 =>
                           match UnlockLocation sub unlock (S idx) ret with
                           | Some (sub', ret') =>
                               Some (set_subLocations l1
                                       (before0 ++ before ++ sub' :: after),
                                     ret')
                           | None => None
                           end
                       end
                   end)
        as Hgen by (apply (Hgen subs []))
  end.
  induction subs0 as [|sub subs0 IH]; intros before0; [reflexivity|].
  cbn [split_at_name]. rewrite (String.eqb_sym next (name sub)).
  destruct (String.eqb (name sub) next); [reflexivity|].
  rewrite IH. destruct (split_at_name next subs0) as [[[b f] a]|];
    [|reflexivity].
  destruct (unlock_prefix cur); [|reflexivity].
  destruct (UnlockLocation f unlock (S idx) ret) as [[sub' ret']|];
    rewrite <- ?app_assoc; reflexivity.
Qed.

(** ** Properties of the tree that every handler keeps *)

Lemma register_files_invariant (P : Location -> Prop) :
  (forall l names l' b,
      CheckNewPath l names 0 = Some (l', b) -> P l -> P l') ->
  forall files tree rejected tree' rejected',
    register_files files tree rejected = Some (tree', rejected') ->
    P tree -> P tree'.
Proof.
  intros Hcheck.
  induction files as [|file files IH]; simpl; intros tree rejected tree' rejected'.
  - intros [= <- _]. auto.
  - destruct (CheckNewPath tree _ 0) as [[tree1 ok]|] eqn:Hc; [|discriminate].
    intros Hrest Htree. apply (IH _ _ _ _ Hrest). apply (Hcheck _ _ _ _ Hc Htree).
Qed.

Lemma reachable_tree_invariant (P : Location -> Prop) :
  P (newLocation "/") ->
  (forall l names l' b,
      CheckNewPath l names 0 = Some (l', b) -> P l -> P l') ->
  (forall l lock l',
      locked_tree (LockLocation l lock 0) = Some l' -> P l -> P l') ->
  (forall l unlock ret l' ret',
      UnlockLocation l unlock 0 ret = Some (l', ret') -> P l -> P l') ->
  forall s, reachable_server s -> P (root s).
Proof.
  intros Hinit Hcheck Hlock Hunlock.
  induction 1 as [|s ss o _ IH Hreg|storage s r o _ IH Hserve].
  - exact Hinit.
  - apply HandleRegistration_frame in Hreg
      as [[-> _]|(_ & rejected & Hfiles & _)]; [exact IH|].
    apply (register_files_invariant P Hcheck _ _ _ _ _ Hfiles IH).
  - apply HandleServiceCommand_frame in Hserve
      as (_ & [-> |[(path & b & Hc)|[(path & ex & _ & Hl)
                                     |(path & ex & ret & _ & Hu)]]] & _).
    + exact IH.
    + apply (Hcheck _ _ _ _ Hc IH).
    + apply (Hlock _ _ _ Hl IH).
    + apply (Hunlock _ _ _ _ _ Hu IH).
Qed.

(** ** No index runs out of range *)

Lemma AppendNewLocation_returns names :
  names <> [] ->
  forall l, exists l',
    AppendNewLocation names l = Some l' /\ name l' = name l.
Proof.
  induction names as [|midway rest IH]; [congruence|]. intros _ l.
  destruct rest as [|next rest]; [eexists; split; reflexivity|].
  rewrite AppendNewLocation_step.
  assert (Hrest : next :: rest <> []) by discriminate.
  destruct (String.eqb (name l) midway); [apply (IH Hrest)|].
  destruct (split_at_name midway (subLocations l)) as [[[before sub] after]|].
  - destruct (IH Hrest sub) as (sub' & -> & _). eexists; split; reflexivity.
  - destruct (IH Hrest (newLocation midway)) as (new & -> & _).
    eexists; split; reflexivity.
Qed.

Lemma CheckNewPath_returns l :
  forall names idx,
    (idx < length names)%nat ->
    exists l' b, CheckNewPath l names idx = Some (l', b).
Proof.
  induction l as [nm subs lks q n elw IH] using Location_tree_ind.
  intros names idx Hidx. rewrite CheckNewPath_step.
  set (cur := mkLocation nm subs lks q n elw).
  assert (Hnames : names <> []) by (destruct names; [simpl in Hidx; lia|discriminate]).
  destruct (length (subLocations cur) =? 0)%nat.
  { destruct (AppendNewLocation_returns names Hnames cur) as (l' & -> & _).
    eauto. }
  destruct (S idx =? length names)%nat eqn:Hlast.
  { destruct (has_sub _ _); [eauto|].
    destruct (AppendNewLocation_returns [List.last names ""]
                ltac:(discriminate) cur) as (l' & -> & _).
    eauto. }
  apply Nat.eqb_neq in Hlast.
  destruct (lookup_lt_is_Some_2 names idx Hidx) as [midway ->].
  destruct (split_at_name midway (subLocations cur))
    as [[[before sub] after]|] eqn:Hsplit.
  - apply split_at_name_In in Hsplit.
    rewrite List.Forall_forall in IH.
    destruct (IH sub Hsplit names (S idx)) as (sub' & b & ->); [lia|].
    eauto.
  - assert (Hdrop : drop idx names <> []).
    { intros Hnil. apply (f_equal length) in Hnil.
      rewrite length_drop in Hnil. simpl in Hnil. lia. }
    destruct (AppendNewLocation_returns _ Hdrop cur) as (l' & -> & _).
    eauto.
Qed.

Lemma register_files_returns files :
  forall tree rejected,
    exists tree' rejected',
      register_files files tree rejected = Some (tree', rejected').
Proof.
  induction files as [|file files IH]; intros tree rejected; simpl; [eauto|].
  destruct (CheckNewPath_returns tree (Split (TrimLeft file "/") "/") 0)
    as (tree1 & ok & ->).
  { pose proof (Split_not_nil (TrimLeft file "/") "/") as Hne.
    destruct (Split _ _); [congruence|simpl; lia]. }
  apply IH.
Qed.

(** X4: a registration request never makes the handler read a slice out of
    range: whatever the server and whatever the storage server reports, the
    handler returns. *)
Theorem registration_never_panics s storage_server :
  exists o, HandleRegistration s storage_server = Some o.
Proof.
  unfold HandleRegistration. destruct (existsb _ (registry s)); [eauto|].
  destruct (register_files_returns (Files storage_server) (root s) [])
    as (tree & rejected & ->).
  eauto.
Qed.

(** ** The record of the waiting exclusive requests *)

Lemma waiting_recorded_unfold l :
  waiting_recorded l
  <-> exclusive_locks_waiting l = exclusive_indices (lock_queue l)
      /\ Forall waiting_recorded (subLocations l).
Proof.
  destruct l as [nm subs lks q n elw]. cbn [waiting_recorded subLocations
    exclusive_locks_waiting lock_queue].
  assert (Hsubs : fold_right and True (map waiting_recorded subs)
                  <-> Forall waiting_recorded subs).
  { induction subs as [|sub subs IH]; simpl.
    - split; auto.
    - rewrite IH, Forall_cons. reflexivity. }
  rewrite Hsubs. reflexivity.
Qed.

Lemma exclusive_indices_app q lock :
  exclusive_indices (q ++ [lock])
  = exclusive_indices q
    ++ (if Exclusive lock then [queue_index lock] else []).
Proof.
  unfold exclusive_indices. rewrite List.filter_app, map_app. simpl.
  destruct (Exclusive lock); reflexivity.
Qed.

Lemma lock_request_recorded l lock :
  exclusive_locks_waiting l = exclusive_indices (lock_queue l) ->
  match lock_request l lock with
  | Granted l' | Waits l' _ =>
      exclusive_locks_waiting l' = exclusive_indices (lock_queue l')
  end.
Proof.
  intros Hrec. unfold lock_request. destruct l as [nm subs lks q n elw].
  cbn -[exclusive_indices int_succ] in *. subst elw.
  destruct (Exclusive lock) eqn:Hex; cbn -[exclusive_indices int_succ];
    repeat match goal with
           | |- context [if ?c then _ else _] => destruct c
           end;
    cbn -[exclusive_indices int_succ]; rewrite exclusive_indices_app;
    cbn -[exclusive_indices int_succ];
    rewrite ?app_nil_r; reflexivity.
Qed.

Lemma take_prefix_lock_recorded l :
  exclusive_locks_waiting l = exclusive_indices (lock_queue l) ->
  exclusive_locks_waiting (take_prefix_lock l)
  = exclusive_indices (lock_queue (take_prefix_lock l)).
Proof.
  intros Hrec. destruct l as [nm subs lks q n elw].
  cbn -[exclusive_indices int_succ] in *.
  rewrite exclusive_indices_app. cbn -[exclusive_indices int_succ].
  rewrite app_nil_r. exact Hrec.
Qed.

Lemma Pop_recorded l unlock l' :
  Pop l unlock = Some l' ->
  exclusive_locks_waiting l = exclusive_indices (lock_queue l) ->
  exclusive_locks_waiting l' = exclusive_indices (lock_queue l').
Proof.
  unfold Pop. destruct l as [nm subs lks q n elw]. cbn.
  destruct q as [|top q]; [intros [= <-]; auto|].
  destruct lks as [|held lks]; [discriminate|].
  unfold exclusive_indices. cbn [List.filter].
  destruct (Exclusive unlock), (Exclusive held), (Exclusive top) eqn:Htop;
    cbn; try (intros [= <-]; cbn; rewrite ?Htop; auto; fail).
  destruct elw as [|first elw]; [discriminate|].
  intros [= <-] Hrec. cbn in *. congruence.
Qed.

Lemma unlock_target_recorded l unlock ret l' ret' :
  unlock_target l unlock ret = Some (l', ret') ->
  exclusive_locks_waiting l = exclusive_indices (lock_queue l) ->
  exclusive_locks_waiting l' = exclusive_indices (lock_queue l').
Proof.
  unfold unlock_target.
  destruct (_ && _).
  { destruct (Pop l unlock) as [l1|] eqn:Hpop; [|discriminate].
    intros [= <- _] Hrec. apply (Pop_recorded _ _ _ Hpop) in Hrec.
    destruct l1. exact Hrec. }
  destruct (_ && _); [|intros [= <- _]; auto].
  destruct (Pop l unlock) as [l1|] eqn:Hpop; [|discriminate].
  intros [= <- _] Hrec. apply (Pop_recorded _ _ _ Hpop) in Hrec.
  destruct l1. exact Hrec.
Qed.

Lemma unlock_prefix_recorded l l' :
  unlock_prefix l = Some l' ->
  exclusive_locks_waiting l = exclusive_indices (lock_queue l) ->
  exclusive_locks_waiting l' = exclusive_indices (lock_queue l').
Proof.
  unfold unlock_prefix. destruct (locks l) as [|held lks];
    [intros [= <-]; auto|].
  destruct (negb (Exclusive held)); [|intros [= <-]; auto].
  destruct (Pop l held) as [l1|] eqn:Hpop; [|discriminate].
  intros [= <-] Hrec. apply (Pop_recorded _ _ _ Hpop) in Hrec.
  destruct l1. exact Hrec.
Qed.

Lemma waiting_recorded_new n : waiting_recorded (newLocation n).
Proof. apply waiting_recorded_unfold. split; [reflexivity|constructor]. Qed.

Lemma waiting_recorded_replace l l1 before sub sub' after :
  subLocations l = before ++ sub :: after ->
  waiting_recorded l ->
  exclusive_locks_waiting l1 = exclusive_indices (lock_queue l1) ->
  waiting_recorded sub' ->
  waiting_recorded (set_subLocations l1 (before ++ sub' :: after)).
Proof.
  intros Hsubs [_ Hall]%waiting_recorded_unfold Hrec Hsub'.
  apply waiting_recorded_unfold. split; [exact Hrec|].
  cbn [subLocations set_subLocations]. rewrite Hsubs in Hall.
  apply Forall_app in Hall as [Hbefore Hafter].
  apply Forall_cons in Hafter as [_ Hafter].
  apply Forall_app. split; [exact Hbefore|]. constructor; assumption.
Qed.

Lemma waiting_recorded_append l new :
  waiting_recorded l -> waiting_recorded new ->
  waiting_recorded (set_subLocations l (subLocations l ++ [new])).
Proof.
  intros [Hrec Hall]%waiting_recorded_unfold Hnew.
  apply waiting_recorded_unfold. split; [exact Hrec|].
  cbn [subLocations set_subLocations]. apply Forall_app. split; [exact Hall|].
  constructor; [exact Hnew|constructor].
Qed.

Lemma waiting_recorded_sub l before sub after :
  subLocations l = before ++ sub :: after ->
  waiting_recorded l -> waiting_recorded sub.
Proof.
  intros Hsubs [_ Hall]%waiting_recorded_unfold. rewrite Hsubs in Hall.
  apply Forall_app in Hall as [_ Hafter].
  apply Forall_cons in Hafter as [Hsub _]. exact Hsub.
Qed.

Lemma AppendNewLocation_recorded names :
  forall l l',
    AppendNewLocation names l = Some l' ->
    waiting_recorded l -> waiting_recorded l'.
Proof.
  induction names as [|midway rest IH]; intros l l'; [discriminate|].
  destruct rest as [|next rest].
  { simpl. intros [= <-] Hl.
    apply waiting_recorded_append; [exact Hl|apply waiting_recorded_new]. }
  rewrite AppendNewLocation_step.
  destruct (String.eqb (name l) midway); [apply IH|].
  destruct (split_at_name midway (subLocations l))
    as [[[before sub] after]|] eqn:Hsplit.
  - apply split_at_name_Some in Hsplit as (Hsubs & _ & _).
    destruct (AppendNewLocation (next :: rest) sub) as [sub'|] eqn:Hsub;
      [|discriminate].
    intros [= <-] Hl.
    apply (waiting_recorded_replace l l before sub sub' after Hsubs Hl).
    + apply waiting_recorded_unfold in Hl as [Hrec _]. exact Hrec.
    + apply (IH _ _ Hsub). apply (waiting_recorded_sub _ _ _ _ Hsubs Hl).
  - destruct (AppendNewLocation (next :: rest) (newLocation midway))
      as [new|] eqn:Hnew; [|discriminate].
    intros [= <-] Hl. apply waiting_recorded_append; [exact Hl|].
    apply (IH _ _ Hnew). apply waiting_recorded_new.
Qed.

Lemma CheckNewPath_recorded l :
  forall names idx l' b,
    CheckNewPath l names idx = Some (l', b) ->
    waiting_recorded l -> waiting_recorded l'.
Proof.
  induction l as [nm subs lks q n elw IH] using Location_tree_ind.
  intros names idx l' b. rewrite CheckNewPath_step.
  set (cur := mkLocation nm subs lks q n elw).
  destruct (length (subLocations cur) =? 0)%nat.
  { destruct (AppendNewLocation names cur) as [l1|] eqn:Happend;
      [|discriminate].
    intros [= <- _]. apply (AppendNewLocation_recorded _ _ _ Happend). }
  destruct (S idx =? length names)%nat.
  { destruct (has_sub _ _); [intros [= <- _]; auto|].
    destruct (AppendNewLocation [_] cur) as [l1|] eqn:Happend; [|discriminate].
    intros [= <- _]. apply (AppendNewLocation_recorded _ _ _ Happend). }
  destruct (names !! idx) as [midway|]; [|discriminate].
  destruct (split_at_name midway (subLocations cur))
    as [[[before sub] after]|] eqn:Hsplit.
  - pose proof (split_at_name_In _ _ _ _ _ Hsplit) as Hin.
    apply split_at_name_Some in Hsplit as (Hsubs & _ & _).
    destruct (CheckNewPath sub names (S idx)) as [[sub' b']|] eqn:Hsub;
      [|discriminate].
    intros [= <- _] Hl.
    apply (waiting_recorded_replace cur cur before sub sub' after Hsubs Hl).
    + apply waiting_recorded_unfold in Hl as [Hrec _]. exact Hrec.
    + rewrite List.Forall_forall in IH. apply (IH sub Hin _ _ _ _ Hsub).
      apply (waiting_recorded_sub _ _ _ _ Hsubs Hl).
  - destruct (AppendNewLocation (drop idx names) cur) as [l1|] eqn:Happend;
      [|discriminate].
    intros [= <- _]. apply (AppendNewLocation_recorded _ _ _ Happend).
Qed.

Lemma LockLocation_recorded l :
  forall lock idx l',
    locked_tree (LockLocation l lock idx) = Some l' ->
    waiting_recorded l -> waiting_recorded l'.
Proof.
  induction l as [nm subs lks q n elw IH] using Location_tree_ind.
  intros lock idx l'. rewrite LockLocation_step.
  set (cur := mkLocation nm subs lks q n elw).
  destruct (is_target cur (PathString lock)) as [[|]|]; [| |discriminate].
  { pose proof (lock_request_recorded cur lock) as Hrec.
    pose proof (lock_request_names cur lock) as Hnames.
    destruct (lock_request cur lock) as [l1|l1 w]; intros [= <-];
      intros [Hcur Hall]%waiting_recorded_unfold;
      apply waiting_recorded_unfold; destruct Hnames as [_ ->]; auto. }
  destruct (locations_of (PathString lock) !! idx) as [next|]; [|discriminate].
  destruct (split_at_name next (subLocations cur))
    as [[[before sub] after]|] eqn:Hsplit; [|intros [= <-]; auto].
  pose proof (split_at_name_In _ _ _ _ _ Hsplit) as Hin.
  apply split_at_name_Some in Hsplit as (Hsubs & _ & _).
  destruct (prefix_lock cur) as [l1|] eqn:Hprefix; [|intros [= <-]; auto].
  unfold prefix_lock in Hprefix. destruct (_ && _); [discriminate|].
  injection Hprefix as <-. cbn zeta.
  rewrite List.Forall_forall in IH. specialize (IH sub Hin lock (S idx)).
  intros Hresult Hl.
  assert (Hput : forall sub',
             locked_tree (LockLocation sub lock (S idx)) = Some sub' ->
             waiting_recorded
               (set_subLocations (take_prefix_lock cur)
                  (before ++ sub' :: after))).
  { intros sub' Hsub'.
    apply (waiting_recorded_replace cur _ before sub sub' after Hsubs Hl).
    - apply take_prefix_lock_recorded.
      apply waiting_recorded_unfold in Hl as [Hrec _]. exact Hrec.
    - apply (IH _ Hsub'). apply (waiting_recorded_sub _ _ _ _ Hsubs Hl). }
  destruct (LockLocation sub lock (S idx)) as [sub'|sub'|sub'|];
    try discriminate; injection Hresult as <-; apply Hput; reflexivity.
Qed.

Lemma UnlockLocation_recorded l :
  forall unlock idx ret l' ret',
    UnlockLocation l unlock idx ret = Some (l', ret') ->
    waiting_recorded l -> waiting_recorded l'.
Proof.
  induction l as [nm subs lks q n elw IH] using Location_tree_ind.
  intros unlock idx ret l' ret'. rewrite UnlockLocation_step.
  set (cur := mkLocation nm subs lks q n elw).
  destruct (is_target cur (PathString unlock)) as [[|]|]; [| |discriminate].
  { intros Htarget [Hcur Hall]%waiting_recorded_unfold.
    apply waiting_recorded_unfold.
    destruct (unlock_target_names _ _ _ _ _ Htarget) as [_ ->].
    split; [|exact Hall]. apply (unlock_target_recorded _ _ _ _ _ Htarget Hcur). }
  destruct (locations_of (PathString unlock) !! idx) as [next|];
    [|discriminate].
  destruct (split_at_name next (subLocations cur))
    as [[[before sub] after]|] eqn:Hsplit; [|intros [= <- _]; auto].
  pose proof (split_at_name_In _ _ _ _ _ Hsplit) as Hin.
  apply split_at_name_Some in Hsplit as (Hsubs & _ & _).
  destruct (unlock_prefix cur) as [l1|] eqn:Hprefix; [|discriminate].
  destruct (UnlockLocation sub unlock (S idx) ret) as [[sub' r]|] eqn:Hsub;
    [|discriminate].
  intros [= <- _] Hl.
  apply (waiting_recorded_replace cur _ before sub sub' after Hsubs Hl).
  - apply (unlock_prefix_recorded _ _ Hprefix).
    apply waiting_recorded_unfold in Hl as [Hrec _]. exact Hrec.
  - rewrite List.Forall_forall in IH. apply (IH sub Hin _ _ _ _ _ Hsub).
    apply (waiting_recorded_sub _ _ _ _ Hsubs Hl).
Qed.

(** X5: in every server that the handlers can produce, at every location
    of the tree, [exclusive_locks_waiting] holds exactly the queue indices
    of the exclusive requests in [lock_queue], in the order of the queue. *)
Theorem exclusive_waiters_are_the_queued_ones s :
  reachable_server s -> waiting_recorded (root s).
Proof.
  apply reachable_tree_invariant.
  - apply waiting_recorded_new.
  - intros l names l' b. apply CheckNewPath_recorded.
  - intros l lock l'. apply LockLocation_recorded.
  - intros l unlock ret l' ret'. apply UnlockLocation_recorded.
Qed.

Lemma exclusive_waiters_are_the_queued_ones_witness :
  waiting_recorded (root writing_server).
Proof.
  apply (exclusive_waiters_are_the_queued_ones writing_server).
  apply (reachable_service storage_ok one_file_server (lock_ "/file" true)
           (mkOutcome EmptyOK writing_server [])).
  - apply one_file_server_reachable.
  - vm_compute. reflexivity.
Defined.

Lemma Pop_returns l unlock :
  locks l <> [] ->
  exclusive_locks_waiting l = exclusive_indices (lock_queue l) ->
  exists l', Pop l unlock = Some l'.
Proof.
  unfold Pop. destruct l as [nm subs lks q n elw]. cbn.
  intros Hlocks ->. destruct q as [|top q]; [eauto|].
  destruct lks as [|held lks]; [congruence|].
  destruct (_ && _); [eauto|].
  destruct (Exclusive unlock && Exclusive top && _) eqn:Hex; [|eauto].
  apply andb_prop in Hex as [[_ Htop]%andb_prop _].
  unfold exclusive_indices. cbn. rewrite Htop. cbn. eauto.
Qed.

Lemma unlock_target_returns l unlock ret :
  exclusive_locks_waiting l = exclusive_indices (lock_queue l) ->
  exists l' ret', unlock_target l unlock ret = Some (l', ret').
Proof.
  intros Hrec. unfold unlock_target.
  assert (Hpop : locks l <> [] -> exists l', Pop l unlock = Some l')
    by (intros Hlocks; apply Pop_returns; assumption).
  destruct (negb (Exclusive unlock) && _ && _) eqn:Hshared.
  { apply andb_prop in Hshared as [_ Hfirst].
    destruct Hpop as [l' ->]; [|eauto].
    destruct (locks l); [discriminate|discriminate]. }
  destruct (Exclusive unlock && _ && _) eqn:Hexclusive; [|eauto].
  apply andb_prop in Hexclusive as [_ Hfirst].
  destruct Hpop as [l' ->]; [|eauto].
  destruct (locks l); [discriminate|discriminate].
Qed.

Lemma unlock_prefix_returns l :
  exclusive_locks_waiting l = exclusive_indices (lock_queue l) ->
  exists l', unlock_prefix l = Some l'.
Proof.
  intros Hrec. unfold unlock_prefix.
  destruct (locks l) as [|held lks] eqn:Hlocks; [eauto|].
  destruct (negb (Exclusive held)); [|eauto].
  destruct (Pop_returns l held) as [l' ->]; [congruence|assumption|eauto].
Qed.

Lemma lookup_last_index (l : list string) idx x :
  l !! idx = Some x -> S idx = length l -> List.last l "" = x.
Proof.
  revert idx. induction l as [|y l IH]; intros idx; [discriminate|].
  destruct idx as [|idx]; simpl.
  - intros [= ->] Hlen. destruct l; [reflexivity|discriminate].
  - intros Hx Hlen. destruct l as [|z l]; [discriminate|].
    apply (IH idx Hx). simpl in *. lia.
Qed.

Lemma is_target_returns l path :
  locations_of path <> [] ->
  exists b, is_target l path = Some b
            /\ (b = false -> name l <> List.last (locations_of path) "").
Proof.
  intros Hne. unfold is_target.
  destruct (String.eqb (name l) path); [exists true; split; [auto|discriminate]|].
  destruct (last (locations_of path)) as [x|] eqn:Hlast.
  - apply last_Some in Hlast as [l' Hl']. rewrite Hl', List.last_last.
    exists (String.eqb x (name l)). split; [reflexivity|].
    intros Hneq%String.eqb_neq. congruence.
  - apply last_None in Hlast. congruence.
Qed.

(** The index that a call of [LockLocation] or [UnlockLocation] reads is
    in range, or the call is at a location with the last name of the path
    and reads none. *)
Lemma next_index_in_range (locations : list string) idx next sub :
  locations !! idx = Some next ->
  name sub = next ->
  (S idx < length locations)%nat
  \/ name sub = List.last locations "".
Proof.
  intros Hnext Hname.
  pose proof (lookup_lt_Some _ _ _ Hnext) as Hlt.
  destruct (decide (S idx = length locations)) as [Hlast|Hmore]; [|left; lia].
  right. rewrite Hname. symmetry. apply (lookup_last_index _ _ _ Hnext Hlast).
Qed.

Lemma LockLocation_returns l :
  forall lock idx,
    locations_of (PathString lock) <> [] ->
    (idx < length (locations_of (PathString lock)))%nat
    \/ name l = List.last (locations_of (PathString lock)) "" ->
    exists l', locked_tree (LockLocation l lock idx) = Some l'.
Proof.
  induction l as [nm subs lks q n elw IH] using Location_tree_ind.
  intros lock idx Hne Hidx. rewrite LockLocation_step.
  set (cur := mkLocation nm subs lks q n elw) in *.
  destruct (is_target_returns cur _ Hne) as (target & -> & Htarget).
  destruct target.
  { destruct (lock_request cur lock); cbn; eauto. }
  destruct Hidx as [Hidx|Hlast]; [|destruct (Htarget eq_refl Hlast)].
  destruct (lookup_lt_is_Some_2 _ _ Hidx) as [next Hnext]. rewrite Hnext.
  destruct (split_at_name next (subLocations cur))
    as [[[before sub] after]|] eqn:Hsplit; [|cbn; eauto].
  pose proof (split_at_name_In _ _ _ _ _ Hsplit) as Hin.
  apply split_at_name_Some in Hsplit as (_ & Hname & _).
  destruct (prefix_lock cur); [|cbn; eauto]. cbn zeta.
  rewrite List.Forall_forall in IH.
  destruct (IH sub Hin lock (S idx) Hne) as [sub' Hsub'].
  { apply (next_index_in_range _ _ _ _ Hnext Hname). }
  destruct (LockLocation sub lock (S idx)); cbn in *; eauto; discriminate.
Qed.

Lemma UnlockLocation_returns l :
  forall unlock idx ret,
    locations_of (PathString unlock) <> [] ->
    (idx < length (locations_of (PathString unlock)))%nat
    \/ name l = List.last (locations_of (PathString unlock)) "" ->
    waiting_recorded l ->
    exists l' ret', UnlockLocation l unlock idx ret = Some (l', ret').
Proof.
  induction l as [nm subs lks q n elw IH] using Location_tree_ind.
  intros unlock idx ret Hne Hidx Hl. rewrite UnlockLocation_step.
  set (cur := mkLocation nm subs lks q n elw) in *.
  pose proof Hl as [Hrec _]%waiting_recorded_unfold.
  destruct (is_target_returns cur _ Hne) as (target & -> & Htarget).
  destruct target; [apply unlock_target_returns; exact Hrec|].
  destruct Hidx as [Hidx|Hlast]; [|destruct (Htarget eq_refl Hlast)].
  destruct (lookup_lt_is_Some_2 _ _ Hidx) as [next Hnext]. rewrite Hnext.
  destruct (split_at_name next (subLocations cur))
    as [[[before sub] after]|] eqn:Hsplit; [|eauto].
  pose proof (split_at_name_In _ _ _ _ _ Hsplit) as Hin.
  apply split_at_name_Some in Hsplit as (Hsubs & Hname & _).
  destruct (unlock_prefix_returns cur Hrec) as [l1 ->].
  rewrite List.Forall_forall in IH.
  destruct (IH sub Hin unlock (S idx) ret Hne) as (sub' & ret' & ->).
  { apply (next_index_in_range _ _ _ _ Hnext Hname). }
  { apply (waiting_recorded_sub _ _ _ _ Hsubs Hl). }
  eauto.
Qed.

Lemma parent_rejected_returns tree locations :
  exists b, parent_rejected tree locations = Some b.
Proof.
  unfold parent_rejected.
  destruct (1 <? length locations)%nat eqn:Hlen; [|eauto].
  apply Nat.ltb_lt in Hlen.
  destruct (LocationExists_returns tree
              (take (length locations - 1) locations) false)
    as (names' & b & -> & _); [|eauto].
  intros Hnil. apply (f_equal length) in Hnil.
  rewrite length_take in Hnil. simpl in Hnil. lia.
Qed.

(** X6: in every server that the handlers can produce, no request of the
    service interface makes the handler read a slice out of range: the
    handler returns or, for a lock request, waits. *)
Theorem service_never_panics storage s r :
  reachable_server s -> exists o, HandleServiceCommand storage s r = Some o.
Proof.
  intros Hreach.
  assert (Hrecorded : waiting_recorded (root s)).
  { revert s Hreach. apply reachable_tree_invariant.
    - apply waiting_recorded_new.
    - intros l names l' b. apply CheckNewPath_recorded.
    - intros l lock l'. apply LockLocation_recorded.
    - intros l unlock ret l' ret'. apply UnlockLocation_recorded. }
  assert (Hexists : forall names ret, names <> [] ->
             exists names' b,
               LocationExists (root s) names ret = Some (names', b)
               /\ names' <> []).
  { intros names ret Hne.
    destruct (LocationExists_returns (root s) names ret Hne)
      as (names' & b & Heq & Hlen & _).
    exists names', b. split; [exact Heq|].
    destruct names'; [|discriminate]. destruct names; [congruence|discriminate]. }
  assert (Hcreate : forall path,
             exists tree b,
               CheckNewPath (root s) (trimmed_locations path) 0
               = Some (tree, b)).
  { intros path. apply CheckNewPath_returns.
    pose proof (trimmed_locations_not_nil path) as Hne.
    destruct (trimmed_locations path); [congruence|simpl; lia]. }
  destruct r as [path|path|path|path|path|path|path ex|path ex|path|];
    cbn [HandleServiceCommand]; eauto.
  - (* is_directory *)
    destruct (negb (IsPathValid path)); [eauto|].
    destruct (Hexists (trimmed_locations path) false
                (trimmed_locations_not_nil path)) as (names & b & -> & _).
    destruct (b || _); [destruct (Contains _ _)|]; eauto.
  - (* list *)
    destruct (negb (IsPathValid path)); [eauto|].
    destruct (Hexists (trimmed_locations path) false
                (trimmed_locations_not_nil path)) as (names & b & -> & Hnames).
    destruct (b || _); [|eauto]. destruct (_ && _); [eauto|].
    destruct (GetContentsAt_returns (root s)
                (if String.eqb path "/" then ["/"] else names) [])
      as (names' & content & -> & _); [|eauto].
    destruct (String.eqb path "/"); [discriminate|exact Hnames].
  - (* create_directory *)
    destruct (negb (IsPathValid path)); [eauto|].
    destruct (parent_rejected_returns (root s) (trimmed_locations path))
      as [[|] ->]; [eauto|].
    destruct (Hexists (trimmed_locations path) false
                (trimmed_locations_not_nil path)) as (names & b & -> & _).
    destruct (b || _); [eauto|].
    destruct (Hcreate path) as (tree & ok & ->). eauto.
  - (* create_file *)
    destruct (negb (IsPathValid path)); [eauto|].
    destruct (parent_rejected_returns (root s) (trimmed_locations path))
      as [[|] ->]; [eauto|].
    destruct (Hexists (trimmed_locations path) false
                (trimmed_locations_not_nil path)) as (names & b & -> & _).
    destruct (b || _); [eauto|].
    destruct (Hcreate path) as (tree & ok & ->). eauto.
  - (* get_storage *)
    destruct (negb (IsPathValid path)) eqn:Hvalid; [eauto|].
    apply negb_false_iff in Hvalid.
    destruct (Hexists (locations_of path) false
                (locations_of_not_nil path Hvalid)) as (names & b & -> & _).
    destruct (negb b || _); [eauto|].
    destruct (hosting_server _ _); eauto.
  - (* lock *)
    destruct (negb (IsPathValid path)) eqn:Hvalid; [eauto|].
    apply negb_false_iff in Hvalid.
    pose proof (locations_of_not_nil path Hvalid) as Hne.
    destruct (Hexists (locations_of path) false Hne) as (names & b & -> & _).
    destruct (negb b && _); [eauto|].
    destruct (LockLocation_returns (root s) (mkLock path ex 0) 0) as [tree Htree].
    { exact Hne. }
    { left. cbn. destruct (locations_of path); [congruence|simpl; lia]. }
    destruct (LockLocation _ _ _); try discriminate; eauto.
  - (* unlock *)
    destruct (negb (IsPathValid path)) eqn:Hvalid; [eauto|].
    apply negb_false_iff in Hvalid.
    pose proof (locations_of_not_nil path Hvalid) as Hne.
    destruct (Hexists (locations_of path) false Hne) as (names & b & -> & _).
    destruct (negb b && _); [eauto|].
    destruct (UnlockLocation_returns (root s) (mkLock path ex 0) 0 false)
      as (tree & ok & ->).
    { exact Hne. }
    { left. cbn. destruct (locations_of path); [congruence|simpl; lia]. }
    { exact Hrecorded. }
    destruct ok; [|eauto].
    destruct (Increment_Access_Count _ _ _) as [counts copies]. eauto.
  - (* delete *)
    destruct (negb (IsPathValid path)) eqn:Hvalid; [eauto|].
    apply negb_false_iff in Hvalid.
    destruct (Hexists (locations_of path) false
                (locations_of_not_nil path Hvalid)) as (names & b & -> & _).
    destruct (negb b && _); eauto.
Qed.

Lemma service_never_panics_witness :
  exists o,
    HandleServiceCommand storage_ok writing_server (unlock_ "/file" true)
    = Some o.
Proof.
  apply (service_never_panics storage_ok writing_server (unlock_ "/file" true)).
  apply (reachable_service storage_ok one_file_server (lock_ "/file" true)
           (mkOutcome EmptyOK writing_server [])).
  - apply one_file_server_reachable.
  - vm_compute. reflexivity.
Defined.

(** ** Paths stay *)

Lemma has_path_subLocations path l l' :
  subLocations l' = subLocations l -> has_path path l' = has_path path l.
Proof.
  intros Hsubs. destruct path as [|a [|b rest]]; simpl; rewrite ?Hsubs;
    reflexivity.
Qed.

Lemma has_path_cons midway next rest l :
  has_path (midway :: next :: rest) l
  = existsb (fun sub => String.eqb midway (name sub)
                        && has_path (next :: rest) sub)
      (subLocations l).
Proof. reflexivity. Qed.

Lemma has_path_found midway rest sub l :
  rest <> [] ->
  In sub (subLocations l) ->
  name sub = midway ->
  has_path rest sub = true ->
  has_path (midway :: rest) l = true.
Proof.
  intros Hrest Hin Hname Hsub. destruct rest as [|next rest]; [congruence|].
  rewrite has_path_cons. apply existsb_exists. exists sub. split; [exact Hin|].
  rewrite Hsub, andb_true_r. apply String.eqb_eq. auto.
Qed.

Lemma has_path_inv midway rest l :
  rest <> [] ->
  has_path (midway :: rest) l = true ->
  exists sub, In sub (subLocations l) /\ name sub = midway
              /\ has_path rest sub = true.
Proof.
  intros Hrest. destruct rest as [|next rest]; [congruence|].
  rewrite has_path_cons.
  intros (sub & Hin & [Hname Hsub]%andb_prop)%existsb_exists.
  exists sub. apply String.eqb_eq in Hname. auto.
Qed.

Lemma has_sub_In n subs :
  has_sub n subs = true <-> exists sub, In sub subs /\ name sub = n.
Proof.
  unfold has_sub. rewrite existsb_exists. split.
  - intros (sub & Hin & Heq%String.eqb_eq). eauto.
  - intros (sub & Hin & Heq). exists sub. split; [exact Hin|].
    apply String.eqb_eq. auto.
Qed.

(** A tree that grew keeps its paths: one sub-location was replaced by
    one of the same name with at least its paths, or one was appended. *)
Lemma has_path_replace path l l1 before sub sub' after :
  subLocations l = before ++ sub :: after ->
  subLocations l1 = before ++ sub' :: after ->
  name sub' = name sub ->
  (forall p, has_path p sub = true -> has_path p sub' = true) ->
  has_path path l = true -> has_path path l1 = true.
Proof.
  intros Hl Hl1 Hname Hsub.
  assert (Hin : forall x, In x (subLocations l) ->
                  exists x', In x' (subLocations l1) /\ name x' = name x
                             /\ forall p, has_path p x = true ->
                                          has_path p x' = true).
  { intros x. rewrite Hl, Hl1, !in_app_iff. cbn [In].
    intros [Hx|[<-|Hx]]; [exists x|exists sub'|exists x];
      rewrite !in_app_iff; cbn [In]; auto. }
  destruct path as [|a [|b rest]]; [discriminate| |].
  - cbn [has_path]. rewrite !has_sub_In. intros (x & Hx & Hn).
    destruct (Hin x Hx) as (x' & Hx' & Hn' & _). exists x'. split; congruence.
  - intros (x & Hx & Hn & Hp)%has_path_inv; [|discriminate].
    destruct (Hin x Hx) as (x' & Hx' & Hn' & Hp').
    apply (has_path_found _ _ x'); [discriminate|assumption|congruence|auto].
Qed.

Lemma has_path_append path l l1 new :
  subLocations l1 = subLocations l ++ [new] ->
  has_path path l = true -> has_path path l1 = true.
Proof.
  intros Hl1.
  destruct path as [|a [|b rest]]; [discriminate| |].
  - cbn [has_path]. rewrite !has_sub_In, Hl1. intros (x & Hx & Hn).
    exists x. rewrite in_app_iff. auto.
  - intros (x & Hx & Hn & Hp)%has_path_inv; [|discriminate].
    apply (has_path_found _ _ x); [discriminate| |assumption|assumption].
    rewrite Hl1, in_app_iff. auto.
Qed.

Lemma AppendNewLocation_keeps_paths names :
  forall l l',
    AppendNewLocation names l = Some l' ->
    name l' = name l
    /\ forall path, has_path path l = true -> has_path path l' = true.
Proof.
  induction names as [|midway rest IH]; intros l l'; [discriminate|].
  destruct rest as [|next rest].
  { simpl. intros [= <-]. split; [reflexivity|]. intros path.
    apply (has_path_append _ _ _ (newLocation midway)). reflexivity. }
  rewrite AppendNewLocation_step.
  destruct (String.eqb (name l) midway); [apply IH|].
  destruct (split_at_name midway (subLocations l))
    as [[[before sub] after]|] eqn:Hsplit.
  - apply split_at_name_Some in Hsplit as (Hsubs & _ & _).
    destruct (AppendNewLocation (next :: rest) sub) as [sub'|] eqn:Hsub;
      [|discriminate].
    intros [= <-]. split; [reflexivity|]. intros path.
    destruct (IH _ _ Hsub) as [Hname Hpaths].
    apply (has_path_replace _ _ _ before sub sub' after); auto.
  - destruct (AppendNewLocation (next :: rest) (newLocation midway))
      as [new|] eqn:Hnew; [|discriminate].
    intros [= <-]. split; [reflexivity|]. intros path.
    apply (has_path_append _ _ _ new). reflexivity.
Qed.

Lemma CheckNewPath_keeps_paths l :
  forall names idx l' b,
    CheckNewPath l names idx = Some (l', b) ->
    name l' = name l
    /\ forall path, has_path path l = true -> has_path path l' = true.
Proof.
  induction l as [nm subs lks q n elw IH] using Location_tree_ind.
  intros names idx l' b. rewrite CheckNewPath_step.
  set (cur := mkLocation nm subs lks q n elw).
  destruct (length (subLocations cur) =? 0)%nat.
  { destruct (AppendNewLocation names cur) as [l1|] eqn:Happend;
      [|discriminate].
    intros [= <- _]. apply (AppendNewLocation_keeps_paths _ _ _ Happend). }
  destruct (S idx =? length names)%nat.
  { destruct (has_sub _ _); [intros [= <- _]; auto|].
    destruct (AppendNewLocation [_] cur) as [l1|] eqn:Happend; [|discriminate].
    intros [= <- _]. apply (AppendNewLocation_keeps_paths _ _ _ Happend). }
  destruct (names !! idx) as [midway|]; [|discriminate].
  destruct (split_at_name midway (subLocations cur))
    as [[[before sub] after]|] eqn:Hsplit.
  - pose proof (split_at_name_In _ _ _ _ _ Hsplit) as Hin.
    apply split_at_name_Some in Hsplit as (Hsubs & _ & _).
    destruct (CheckNewPath sub names (S idx)) as [[sub' b']|] eqn:Hsub;
      [|discriminate].
    intros [= <- _]. split; [reflexivity|]. intros path.
    rewrite List.Forall_forall in IH.
    destruct (IH sub Hin _ _ _ _ Hsub) as [Hname Hpaths].
    apply (has_path_replace _ _ _ before sub sub' after); auto.
  - destruct (AppendNewLocation (drop idx names) cur) as [l1|] eqn:Happend;
      [|discriminate].
    intros [= <- _]. apply (AppendNewLocation_keeps_paths _ _ _ Happend).
Qed.

Lemma has_path_skeleton path :
  forall l, has_path path (skeleton l) = has_path path l.
Proof.
  induction path as [|a rest IH]; intros l; [reflexivity|].
  destruct rest as [|b rest].
  - cbn [has_path]. rewrite skeleton_subLocations. unfold has_sub.
    induction (subLocations l) as [|sub subs IHsubs]; [reflexivity|].
    cbn [map existsb]. rewrite skeleton_name, IHsubs. reflexivity.
  - rewrite !has_path_cons, skeleton_subLocations.
    induction (subLocations l) as [|sub subs IHsubs]; [reflexivity|].
    cbn [map existsb]. rewrite skeleton_name, IHsubs, (IH sub). reflexivity.
Qed.

Lemma same_skeleton_has_path path l l' :
  skeleton l' = skeleton l -> has_path path l' = has_path path l.
Proof.
  intros Heq. rewrite <- (has_path_skeleton path l), <- (has_path_skeleton path l').
  rewrite Heq. reflexivity.
Qed.

(** X7: no request of the service interface removes a path from the tree:
    a path that exists before a request is handled exists afterwards,
    whatever the request, a deletion included. *)
Theorem service_never_removes_a_path storage s r o names :
  HandleServiceCommand storage s r = Some o ->
  has_path names (root s) = true ->
  has_path names (root (server o)) = true.
Proof.
  intros Hserve Hpath.
  apply HandleServiceCommand_frame in Hserve
    as (_ & [-> |[(path & b & Hc)|[(path & ex & _ & Hl)
                                   |(path & ex & ret & _ & Hu)]]] & _).
  - exact Hpath.
  - apply (CheckNewPath_keeps_paths _ _ _ _ _ Hc). exact Hpath.
  - rewrite (same_skeleton_has_path _ (root s)); [exact Hpath|].
    apply (LockLocation_skeleton _ _ _ _ Hl).
  - rewrite (same_skeleton_has_path _ (root s)); [exact Hpath|].
    apply (UnlockLocation_skeleton _ _ _ _ _ _ Hu).
Qed.

Lemma service_never_removes_a_path_witness :
  exists o,
    HandleServiceCommand storage_ok one_file_server (delete_ "/file") = Some o
    /\ has_path ["file"] (root (server o)) = true.
Proof.
  eexists. split; [reflexivity|].
  apply (service_never_removes_a_path storage_ok one_file_server
           (delete_ "/file") _ ["file"]); reflexivity.
Defined.

(** X8: a registration never removes a path from the tree either. *)
Theorem registration_never_removes_a_path s storage_server o names :
  HandleRegistration s storage_server = Some o ->
  has_path names (root s) = true ->
  has_path names (root (server o)) = true.
Proof.
  intros Hreg Hpath.
  apply HandleRegistration_frame in Hreg
    as [[-> _]|(_ & rejected & Hfiles & _)]; [exact Hpath|].
  refine (register_files_invariant (fun l => has_path names l = true) _
            _ _ _ _ _ Hfiles Hpath).
  intros l locations l' b Hc. apply (CheckNewPath_keeps_paths _ _ _ _ _ Hc).
Qed.

Lemma registration_never_removes_a_path_witness :
  exists o,
    HandleRegistration one_file_server (storage2 ["/other"]) = Some o
    /\ has_path ["file"] (root (server o)) = true.
Proof.
  eexists. split; [reflexivity|].
  apply (registration_never_removes_a_path one_file_server
           (storage2 ["/other"]) _ ["file"]); reflexivity.
Defined.

(** X9: only [/create_directory] and [/create_file] change the names in
    the tree: after any other request of the service interface the tree
    has the same locations, with the same names in the same order, and
    differs in its lock state at most. *)
Theorem only_creation_changes_the_names storage s r o :
  HandleServiceCommand storage s r = Some o ->
  (forall path, r <> create_directory path) ->
  (forall path, r <> create_file path) ->
  skeleton (root (server o)) = skeleton (root s).
Proof.
  assert (Hsame : forall a sent', Some (mkOutcome a s sent') = Some o ->
                    skeleton (root (server o)) = skeleton (root s))
    by (intros a sent' [= <-]; reflexivity).
  destruct r as [path|path|path|path|path|path|path ex|path ex|path|];
    cbn [HandleServiceCommand]; intros Hserve Hdir Hfile;
    try (apply (Hsame _ _ Hserve)); try (destruct (Hdir path eq_refl));
    try (destruct (Hfile path eq_refl)); revert Hserve.
  - (* is_directory *)
    destruct (negb (IsPathValid path)); [apply Hsame|].
    destruct (LocationExists _ _ _) as [[names b]|]; [|discriminate].
    destruct (b || _); [destruct (Contains _ _)|]; apply Hsame.
  - (* list *)
    destruct (negb (IsPathValid path)); [apply Hsame|].
    destruct (LocationExists _ _ _) as [[names b]|]; [|discriminate].
    destruct (b || _); [|apply Hsame].
    destruct (_ && _); [apply Hsame|].
    destruct (GetContentsAt _ _ _) as [[names' content]|]; [|discriminate].
    apply Hsame.
  - (* get_storage *)
    destruct (negb (IsPathValid path)); [apply Hsame|].
    destruct (LocationExists _ _ _) as [[names b]|]; [|discriminate].
    destruct (negb b || _); [apply Hsame|].
    destruct (hosting_server _ _); apply Hsame.
  - (* lock *)
    destruct (negb (IsPathValid path)); [apply Hsame|].
    destruct (LocationExists _ _ _) as [[names b]|]; [|discriminate].
    destruct (negb b && _); [apply Hsame|].
    pose proof (LockLocation_skeleton (root s) (mkLock path ex 0) 0) as Hsk.
    destruct (LockLocation _ _ _) as [tree|tree|tree|]; try discriminate;
      intros [= <-]; cbn [server root with_root]; apply Hsk; reflexivity.
  - (* unlock *)
    destruct (negb (IsPathValid path)); [apply Hsame|].
    destruct (LocationExists _ _ _) as [[names b]|]; [|discriminate].
    destruct (negb b && _); [apply Hsame|].
    destruct (UnlockLocation _ _ _ _) as [[tree ok]|] eqn:Hunlock;
      [|discriminate].
    apply UnlockLocation_skeleton in Hunlock.
    destruct ok.
    + destruct (Increment_Access_Count _ _ _) as [counts copies].
      intros [= <-]. exact Hunlock.
    + intros [= <-]. exact Hunlock.
  - (* delete *)
    destruct (negb (IsPathValid path)); [apply Hsame|].
    destruct (LocationExists _ _ _) as [[names b]|]; [|discriminate].
    destruct (negb b && _); apply Hsame.
Qed.

Lemma only_creation_changes_the_names_witness :
  skeleton (root writing_server) = skeleton (root one_file_server).
Proof.
  apply (only_creation_changes_the_names storage_ok one_file_server
           (lock_ "/file" true) (mkOutcome EmptyOK writing_server []));
    [vm_compute; reflexivity|discriminate|discriminate].
Defined.

(** ** Requests for a path that does not exist *)

(** X10: in every server that the handlers can produce, a request for a
    valid path other than the root that does not exist in the tree is
    refused and changes nothing: [/is_directory], [/list], [/get_storage]
    and [/delete] answer 404 with FileNotFoundException, [/unlock] answers
    404 with IllegalArgumentException, and nothing is sent to a storage
    server. *)
Theorem request_for_a_missing_path_is_refused storage s path :
  reachable_server s ->
  IsPathValid path = true ->
  path <> "/" ->
  (has_path (trimmed_locations path) (root s) = false ->
   HandleServiceCommand storage s (is_directory path)
   = Some (mkOutcome file_not_found s [])
   /\ HandleServiceCommand storage s (list_ path)
      = Some (mkOutcome file_not_found s []))
  /\ (has_path (locations_of path) (root s) = false ->
      HandleServiceCommand storage s (get_storage path)
      = Some (mkOutcome file_not_found s [])
      /\ HandleServiceCommand storage s (delete_ path)
         = Some (mkOutcome file_not_found s [])
      /\ forall exclusive,
           HandleServiceCommand storage s (unlock_ path exclusive)
           = Some (mkOutcome illegal_argument s [])).
Proof.
  intros Hreach Hvalid Hroot%String.eqb_neq.
  split; intros Hmissing.
  - destruct (reachable_LocationExists s (trimmed_locations path) Hreach
                (trimmed_locations_not_nil path)) as [names Hexists].
    cbn [HandleServiceCommand].
    rewrite Hvalid, Hexists, Hmissing, Hroot. split; reflexivity.
  - destruct (reachable_LocationExists s (locations_of path) Hreach
                (locations_of_not_nil path Hvalid)) as [names Hexists].
    cbn [HandleServiceCommand].
    rewrite Hvalid, Hexists, Hmissing, Hroot. repeat split; reflexivity.
Qed.

Lemma request_for_a_missing_path_is_refused_witness :
  HandleServiceCommand storage_ok one_file_server (is_directory "/missing")
  = Some (mkOutcome file_not_found one_file_server [])
  /\ HandleServiceCommand storage_ok one_file_server (delete_ "/missing")
     = Some (mkOutcome file_not_found one_file_server [])
  /\ HandleServiceCommand storage_ok one_file_server (unlock_ "/missing" true)
     = Some (mkOutcome illegal_argument one_file_server []).
Proof.
  assert (Hpath : "/missing" <> "/") by discriminate.
  destruct (request_for_a_missing_path_is_refused storage_ok one_file_server
              "/missing" one_file_server_reachable eq_refl Hpath)
    as [Htrimmed Hlocations].
  destruct (Htrimmed eq_refl) as [His_directory _].
  destruct (Hlocations eq_refl) as (_ & Hdelete & Hunlock).
  split; [exact His_directory|].
  split; [exact Hdelete|exact (Hunlock true)].
Defined.

(** ** Paths that are created *)

Lemma Split_piece_is_not_the_separator s sep :
  forall piece, In piece (Split s sep) -> piece <> String sep "".
Proof.
  induction s as [|c s IH]; intros piece; simpl.
  - intros [<-|[]]. discriminate.
  - destruct (Ascii.eqb_spec c sep) as [Heq|Hne].
    + intros [<-|Hin]; [discriminate|]. apply (IH _ Hin).
    + destruct (Split s sep) as [|first pieces].
      * intros [<-|[]]. congruence.
      * intros [<-|Hin]; [congruence|]. apply IH. right. exact Hin.
Qed.

Lemma reachable_root_name s : reachable_server s -> name (root s) = "/".
Proof.
  apply (reachable_tree_invariant (fun l => name l = "/")).
  - reflexivity.
  - intros l names l' b Hc Hl.
    destruct (CheckNewPath_keeps_paths _ _ _ _ _ Hc) as [-> _]. exact Hl.
  - intros l lock l' Hlock Hl. apply LockLocation_skeleton in Hlock.
    rewrite <- skeleton_name, Hlock, skeleton_name. exact Hl.
  - intros l unlock ret l' ret' Hunlock Hl.
    apply UnlockLocation_skeleton in Hunlock.
    rewrite <- skeleton_name, Hunlock, skeleton_name. exact Hl.
Qed.

Lemma has_sub_app_new n subs : has_sub n (subs ++ [newLocation n]) = true.
Proof.
  apply has_sub_In. exists (newLocation n). rewrite in_app_iff.
  split; [right; left; reflexivity|reflexivity].
Qed.

(** [AppendNewLocation] makes the path it is given when no component
    repeats the name above it. *)
Lemma AppendNewLocation_materializes names :
  forall l l',
    no_repeat (name l) names ->
    AppendNewLocation names l = Some l' ->
    has_path names l' = true.
Proof.
  induction names as [|midway rest IH]; intros l l'; [discriminate|].
  destruct rest as [|next rest].
  { simpl. intros _ [= <-]. apply has_sub_app_new. }
  intros [Hname Hrest]. rewrite AppendNewLocation_step.
  apply String.eqb_neq in Hname. rewrite Hname.
  destruct (split_at_name midway (subLocations l))
    as [[[before sub] after]|] eqn:Hsplit.
  - apply split_at_name_Some in Hsplit as (Hsubs & Hsub & _).
    destruct (AppendNewLocation (next :: rest) sub) as [sub'|] eqn:Happend;
      [|discriminate].
    intros [= <-].
    apply (has_path_found _ _ sub'); [discriminate| | |].
    + cbn [subLocations set_subLocations]. apply in_elt.
    + destruct (AppendNewLocation_keeps_paths _ _ _ Happend) as [-> _].
      exact Hsub.
    + apply (IH sub); [rewrite Hsub; exact Hrest|exact Happend].
  - destruct (AppendNewLocation (next :: rest) (newLocation midway))
      as [new|] eqn:Happend; [|discriminate].
    intros [= <-].
    apply (has_path_found _ _ new); [discriminate| | |].
    + cbn [subLocations set_subLocations]. rewrite in_app_iff.
      right. left. reflexivity.
    + destruct (AppendNewLocation_keeps_paths _ _ _ Happend) as [-> _].
      reflexivity.
    + apply (IH (newLocation midway)); [exact Hrest|exact Happend].
Qed.

Lemma CheckNewPath_makes_the_last a b sub sub' ok :
  name sub = a ->
  CheckNewPath sub [a; b] 1 = Some (sub', ok) ->
  name sub' = a /\ has_path [b] sub' = true.
Proof.
  intros Hname Hcheck.
  destruct (CheckNewPath_keeps_paths _ _ _ _ _ Hcheck) as [Hname' _].
  split; [congruence|]. revert Hcheck. rewrite CheckNewPath_step.
  destruct (length (subLocations sub) =? 0)%nat.
  { rewrite AppendNewLocation_step.
    apply String.eqb_eq in Hname. rewrite Hname.
    simpl. intros [= <- _]. apply has_sub_app_new. }
  cbn [Nat.eqb length List.last].
  destruct (has_sub b (subLocations sub)) eqn:Hhas; [intros [= <- _]; exact Hhas|].
  simpl. intros [= <- _]. apply has_sub_app_new.
Qed.

(** [CheckNewPath] makes a path of one or two components. *)
Lemma CheckNewPath_makes_short_paths l names l' ok :
  names <> [] ->
  (length names <= 2)%nat ->
  name l <> hd "" names ->
  CheckNewPath l names 0 = Some (l', ok) ->
  has_path names l' = true.
Proof.
  intros Hne Hlen Hname.
  destruct names as [|a [|b rest]]; [congruence| |].
  - (* one component *)
    rewrite CheckNewPath_step.
    destruct (length (subLocations l) =? 0)%nat.
    { simpl. intros [= <- _]. apply has_sub_app_new. }
    cbn [Nat.eqb length List.last].
    destruct (has_sub a (subLocations l)) eqn:Hhas;
      [intros [= <- _]; exact Hhas|].
    simpl. intros [= <- _]. apply has_sub_app_new.
  - (* two components *)
    destruct rest; [|simpl in Hlen; lia]. cbn [hd] in Hname.
    assert (Hfresh : forall l1,
               match AppendNewLocation [a; b] l with
               | Some l2 => Some (l2, true)
               | None => None
               end = Some (l1, ok) ->
               has_path [a; b] l1 = true).
    { intros l1. destruct (AppendNewLocation [a; b] l) as [l2|] eqn:Happend;
        [|discriminate].
      intros [= <- _]. apply (AppendNewLocation_materializes _ _ _) in Happend;
        [exact Happend|].
      simpl. auto. }
    rewrite CheckNewPath_step.
    destruct (length (subLocations l) =? 0)%nat; [apply Hfresh|].
    cbn [Nat.eqb length lookup list_lookup drop].
    destruct (split_at_name a (subLocations l))
      as [[[before sub] after]|] eqn:Hsplit; [|apply Hfresh].
    apply split_at_name_Some in Hsplit as (Hsubs & Hsub & _).
    destruct (CheckNewPath sub [a; b] 1) as [[sub' ok']|] eqn:Hcheck;
      [|discriminate].
    intros [= <- _].
    destruct (CheckNewPath_makes_the_last _ _ _ _ _ Hsub Hcheck)
      as [Hsub' Hlast].
    apply (has_path_found _ _ sub'); [discriminate| |exact Hsub'|exact Hlast].
    cbn [subLocations set_subLocations]. apply in_elt.
Qed.

Lemma creation_reported storage s r path o :
  r = create_directory path \/ r = create_file path ->
  HandleServiceCommand storage s r = Some o ->
  reply o = ServiceResponse true ->
  IsPathValid path = true
  /\ CheckNewPath (root s) (trimmed_locations path) 0
     = Some (root (server o), true).
Proof.
  intros [-> | ->]; cbn [HandleServiceCommand];
    (destruct (IsPathValid path); cbn [negb]; [|intros [= <-]; discriminate]);
    (destruct (parent_rejected _ _) as [[|]|];
       [intros [= <-]; discriminate| |discriminate]);
    (destruct (LocationExists _ _ _) as [[names b]|]; [|discriminate]);
    (destruct (b || _); [intros [= <-]; discriminate|]);
    (destruct (CheckNewPath _ _ _) as [[tree ok]|]; [|discriminate]);
    intros [= <-]; cbn; intros [= ->]; auto.
Qed.

(** X11: in every server that the handlers can produce, when
    [/create_directory] or [/create_file] answers [success: true] for a
    path of one or two components, the path exists in the tree afterwards,
    and [/is_directory] for it then answers by the name of its last
    component. *)
Theorem short_created_path_exists storage s r path o :
  reachable_server s ->
  r = create_directory path \/ r = create_file path ->
  (length (trimmed_locations path) <= 2)%nat ->
  HandleServiceCommand storage s r = Some o ->
  reply o = ServiceResponse true ->
  has_path (trimmed_locations path) (root (server o)) = true
  /\ HandleServiceCommand storage (server o) (is_directory path)
     = Some (mkOutcome
               (ServiceResponse
                  (negb (Contains (List.last (trimmed_locations path) "")
                           "file")))
               (server o) []).
Proof.
  intros Hreach Hr Hlen Hserve Hreply.
  destruct (creation_reported _ _ _ _ _ Hr Hserve Hreply) as [Hvalid Hcheck].
  pose proof (trimmed_locations_not_nil path) as Hne.
  assert (Hpath : has_path (trimmed_locations path) (root (server o)) = true).
  { apply (CheckNewPath_makes_short_paths _ _ _ _ Hne Hlen) in Hcheck;
      [exact Hcheck|].
    rewrite (reachable_root_name s Hreach). intros Heq.
    apply (Split_piece_is_not_the_separator (TrimLeft path "/") "/"
             (hd "" (trimmed_locations path))); [|auto].
    fold (trimmed_locations path).
    destruct (trimmed_locations path); [congruence|left; reflexivity]. }
  split; [exact Hpath|].
  assert (Hreach' : reachable_server (server o))
    by (apply (reachable_service _ _ _ _ Hreach Hserve)).
  destruct (reachable_LocationExists (server o) (trimmed_locations path)
              Hreach' Hne) as [names Hexists].
  destruct (LocationExists_keeps_last _ _ _ _ _ Hne Hexists) as [_ Hlast].
  cbn [HandleServiceCommand]. rewrite Hvalid, Hexists, Hpath, Hlast.
  cbn [negb orb]. destruct (Contains _ "file"); reflexivity.
Qed.

Lemma short_created_path_exists_witness :
  exists o,
    HandleServiceCommand storage_ok directory_server
      (create_file "/directory/file2") = Some o
    /\ has_path ["directory"; "file2"] (root (server o)) = true
    /\ HandleServiceCommand storage_ok (server o)
         (is_directory "/directory/file2")
       = Some (mkOutcome (ServiceResponse false) (server o) []).
Proof.
  eexists. split; [vm_compute; reflexivity|].
  apply (short_created_path_exists storage_ok directory_server
           (create_file "/directory/file2") "/directory/file2").
  - apply (reachable_registration initial_server
             (storage1 ["/directory/file1"])
             (mkOutcome (FilesResponse []) directory_server [])).
    + apply reachable_initial.
    + vm_compute. reflexivity.
  - right. reflexivity.
  - vm_compute. lia.
  - vm_compute. reflexivity.
  - reflexivity.
Defined.

(** ** What a registration answers *)

Lemma drop_last_index (names : list string) idx :
  S idx = length names -> drop idx names = [List.last names ""].
Proof.
  revert idx. induction names as [|a names IH]; intros idx; [discriminate|].
  destruct idx as [|idx]; simpl.
  - destruct names; [reflexivity|discriminate].
  - intros Hlen. destruct names as [|b names]; [discriminate|].
    apply IH. simpl in *. lia.
Qed.

Lemma set_subLocations_same l : set_subLocations l (subLocations l) = l.
Proof. destruct l. reflexivity. Qed.

(** [CheckNewPath] answers false only for a path that exists, and then it
    leaves the tree as it is. *)
Lemma CheckNewPath_false l :
  forall names idx l',
    CheckNewPath l names idx = Some (l', false) ->
    l' = l /\ has_path (drop idx names) l = true.
Proof.
  induction l as [nm subs lks q n elw IH] using Location_tree_ind.
  intros names idx l'. rewrite CheckNewPath_step.
  set (cur := mkLocation nm subs lks q n elw).
  destruct (length (subLocations cur) =? 0)%nat.
  { destruct (AppendNewLocation names cur); discriminate. }
  destruct (S idx =? length names)%nat eqn:Hlast.
  { apply Nat.eqb_eq in Hlast.
    destruct (has_sub _ _) eqn:Hhas.
    - intros [= <-]. split; [reflexivity|].
      rewrite (drop_last_index _ _ Hlast). exact Hhas.
    - destruct (AppendNewLocation [_] cur); discriminate. }
  destruct (names !! idx) as [midway|] eqn:Hmidway; [|discriminate].
  destruct (split_at_name midway (subLocations cur))
    as [[[before sub] after]|] eqn:Hsplit.
  - pose proof (split_at_name_In _ _ _ _ _ Hsplit) as Hin.
    apply split_at_name_Some in Hsplit as (Hsubs & Hname & _).
    destruct (CheckNewPath sub names (S idx)) as [[sub' b']|] eqn:Hsub;
      [|discriminate].
    intros [= <- ->]. rewrite List.Forall_forall in IH.
    destruct (IH sub Hin _ _ _ Hsub) as [-> Hpath].
    rewrite <- Hsubs. split; [apply set_subLocations_same|].
    rewrite (drop_S _ _ _ Hmidway).
    apply (has_path_found _ _ sub); auto.
    intros Hnil. rewrite Hnil in Hpath. discriminate.
  - destruct (AppendNewLocation (drop idx names) cur); discriminate.
Qed.

Lemma register_files_rejected files :
  forall tree rejected tree' rejected',
    first_born tree = true ->
    register_files files tree rejected = Some (tree', rejected') ->
    (forall f, In f rejected' ->
       In f rejected
       \/ exists file,
            In file files /\ f = normalized file
            /\ has_path (trimmed_locations file) tree' = true)
    /\ (forall f, In f rejected -> In f rejected')
    /\ (forall file,
          In file files ->
          has_path (trimmed_locations file) tree = true ->
          In (normalized file) rejected').
Proof.
  induction files as [|file files IH]; intros tree rejected tree' rejected' Hfb.
  { simpl. intros [= <- <-]. repeat split; auto. intros file []. }
  cbn [register_files]. fold (trimmed_locations file).
  destruct (CheckNewPath tree (trimmed_locations file) 0)
    as [[tree1 ok]|] eqn:Hcheck; [|discriminate].
  intros Hrest.
  destruct (CheckNewPath_first_born _ _ _ _ _ Hcheck Hfb) as [Hfb1 _].
  destruct (CheckNewPath_keeps_paths _ _ _ _ _ Hcheck) as [_ Hgrow].
  assert (Hgrow' : forall path, has_path path tree1 = true ->
                     has_path path tree' = true).
  { intros path.
    refine (register_files_invariant (fun l => has_path path l = true) _
              _ _ _ _ _ Hrest).
    intros l locations l' b Hc. apply (CheckNewPath_keeps_paths _ _ _ _ _ Hc). }
  destruct (IH _ _ _ _ Hfb1 Hrest) as (Hfrom & Hincl & Hexisting).
  split; [|split].
  - intros f Hf. destruct (Hfrom f Hf) as [Hin|(file' & Hin & -> & Hpath)].
    + destruct ok; [left; exact Hin|].
      apply in_app_iff in Hin as [Hin|[<-|[]]]; [left; exact Hin|].
      right. exists file. split; [left; reflexivity|]. split; [reflexivity|].
      destruct (CheckNewPath_false _ _ _ _ Hcheck) as [-> Hpath].
      apply Hgrow'. exact Hpath.
    + right. exists file'. split; [right; exact Hin|]. auto.
  - intros f Hf. apply Hincl. destruct ok; [exact Hf|].
    apply in_app_iff. left. exact Hf.
  - intros file0 [<-|Hin] Hpath.
    + rewrite (CheckNewPath_rejects_existing tree (trimmed_locations file) 0
                 Hfb Hpath) in Hcheck.
      injection Hcheck as <- <-. apply Hincl. apply in_app_iff.
      right. left. reflexivity.
    + apply (Hexisting file0 Hin). apply Hgrow. exact Hpath.
Qed.

(** X12: in every server that the handlers can produce, the answer to an
    accepted registration lists for deletion every reported file whose path
    existed in the tree before, with one leading slash; and whatever it
    lists is such a reported file, whose path exists in the tree
    afterwards. *)
Theorem registration_lists_the_existing_files s storage_server o rejected :
  reachable_server s ->
  HandleRegistration s storage_server = Some o ->
  reply o = FilesResponse rejected ->
  (forall file,
      In file (Files storage_server) ->
      has_path (trimmed_locations file) (root s) = true ->
      In (normalized file) rejected)
  /\ (forall f,
        In f rejected ->
        exists file,
          In file (Files storage_server) /\ f = normalized file
          /\ has_path (trimmed_locations file) (root (server o)) = true).
Proof.
  intros Hreach Hreg Hreply.
  assert (Hfb : first_born (root s) = true)
    by (apply reachable_server_first_born; exact Hreach).
  apply HandleRegistration_frame in Hreg
    as [[-> _]|(_ & rejected0 & Hfiles & Hreply0 & _)]; [discriminate|].
  rewrite Hreply in Hreply0. injection Hreply0 as <-.
  destruct (register_files_rejected _ _ _ _ _ Hfb Hfiles)
    as (Hfrom & _ & Hexisting).
  split; [exact Hexisting|].
  intros f Hf. destruct (Hfrom f Hf) as [[]|Hfile]. exact Hfile.
Qed.

Lemma registration_lists_the_existing_files_witness :
  exists o,
    HandleRegistration one_file_server (storage2 ["//file"; "/other"])
    = Some o
    /\ reply o = FilesResponse ["/file"]
    /\ In (normalized "//file") ["/file"].
Proof.
  eexists. split; [vm_compute; reflexivity|]. split; [reflexivity|].
  apply (registration_lists_the_existing_files one_file_server
           (storage2 ["//file"; "/other"]) _ ["/file"]
           one_file_server_reachable eq_refl eq_refl).
  - left. reflexivity.
  - reflexivity.
Defined.

(** ** What is sent to the storage servers *)

Lemma find_owner_registered reg file :
  find_owner reg file = (0, 0)
  \/ exists ss,
       In ss reg /\ In file (Files ss)
       /\ find_owner reg file = (ClientPort ss, CommandPort ss).
Proof.
  unfold find_owner.
  enough (forall acc,
             let f := fun (owner : Z * Z) ss =>
                        if existsb (String.eqb file) (Files ss)
                        then (ClientPort ss, CommandPort ss) else owner in
             fold_left f reg acc = acc
             \/ exists ss,
                  In ss reg /\ In file (Files ss)
                  /\ fold_left f reg acc = (ClientPort ss, CommandPort ss))
    as Hgen by apply Hgen.
  induction reg as [|x reg IH]; intros acc f; [left; reflexivity|].
  cbn [fold_left]. destruct (IH (f acc x)) as [Heq|(ss & Hin & Hfile & Heq)].
  - fold f in Heq. rewrite Heq. unfold f.
    destruct (existsb (String.eqb file) (Files x)) eqn:Hlists;
      [|left; reflexivity].
    right. exists x. split; [left; reflexivity|]. split; [|reflexivity].
    apply existsb_exists in Hlists as (file' & Hin & <-%String.eqb_eq).
    exact Hin.
  - right. exists ss. split; [right; exact Hin|]. auto.
Qed.

Lemma SendDelete_sent storage s file all m :
  In m (SendDelete storage s file all) ->
  command m = storage_delete file
  /\ In (to_port m) (map CommandPort (registry s))
  /\ (1 < length (registry s))%nat.
Proof.
  unfold SendDelete. destruct (1 <? length (registry s))%nat eqn:Hlen;
    [|intros []].
  intros (Hcmd & Hport & _)%send_each_In. apply Nat.ltb_lt in Hlen. auto.
Qed.

Lemma CallStorageCopy_sent storage s file m :
  In m (CallStorageCopy storage s file) ->
  In (to_port m) (map CommandPort (registry s))
  /\ (1 < length (registry s))%nat
  /\ exists ss,
       In ss (registry s) /\ In file (Files ss)
       /\ command m = storage_copy file "127.0.0.1" (ClientPort ss)
       /\ to_port m <> CommandPort ss.
Proof.
  unfold CallStorageCopy.
  destruct (1 <? length (registry s))%nat eqn:Hlen; [|intros []].
  destruct (negb (fst (find_owner (registry s) file) =? 0)) eqn:Howner;
    [|intros []].
  cbn [andb]. intros (Hcmd & Hport & Hskip)%send_each_In.
  apply Nat.ltb_lt in Hlen. apply Z.eqb_neq in Hskip.
  split; [exact Hport|]. split; [exact Hlen|].
  destruct (find_owner_registered (registry s) file)
    as [Hnone|(ss & Hin & Hfile & Hfound)].
  - rewrite Hnone in Howner. discriminate.
  - rewrite Hfound in *. exists ss. auto.
Qed.

(** X13: whatever a request of the service interface sends goes to the
    command port of a registered storage server, and:
    - a create command is sent only by [/create_file], for its path, to
      the server that registered first;
    - a delete command is sent only by [/delete] and by an exclusive
      [/unlock], for their path, and only when at least two storage
      servers are registered;
    - a copy command is sent only by [/unlock], for its path, only when at
      least two storage servers are registered, it names as source the
      client port of a registered server that lists the path, and it is
      not sent to the command port of that server. *)
Theorem what_a_request_sends storage s r o m :
  HandleServiceCommand storage s r = Some o ->
  In m (sent o) ->
  In (to_port m) (map CommandPort (registry s))
  /\ match command m with
     | storage_create path =>
         r = create_file path
         /\ head (map CommandPort (registry s)) = Some (to_port m)
     | storage_delete path =>
         (r = delete_ path \/ r = unlock_ path true)
         /\ (1 < length (registry s))%nat
     | storage_copy path server_ip server_port =>
         (exists exclusive, r = unlock_ path exclusive)
         /\ (1 < length (registry s))%nat
         /\ server_ip = "127.0.0.1"
         /\ exists ss,
              In ss (registry s) /\ In path (Files ss)
              /\ ClientPort ss = server_port
              /\ to_port m <> CommandPort ss
     end.
Proof.
  assert (Hnone : forall a (P : Prop),
             Some (mkOutcome a s []) = Some o -> In m (sent o) -> P)
    by (intros a P [= <-] []).
  destruct r as [path|path|path|path|path|path|path ex|path ex|path|];
    cbn [HandleServiceCommand]; try (apply Hnone).
  - (* is_directory *)
    destruct (negb (IsPathValid path)); [apply Hnone|].
    destruct (LocationExists _ _ _) as [[names b]|]; [|discriminate].
    destruct (b || _); [destruct (Contains _ _)|]; apply Hnone.
  - (* list *)
    destruct (negb (IsPathValid path)); [apply Hnone|].
    destruct (LocationExists _ _ _) as [[names b]|]; [|discriminate].
    destruct (b || _); [|apply Hnone].
    destruct (_ && _); [apply Hnone|].
    destruct (GetContentsAt _ _ _) as [[names' content]|]; [|discriminate].
    apply Hnone.
  - (* create_directory *)
    destruct (negb (IsPathValid path)); [apply Hnone|].
    destruct (parent_rejected _ _) as [[|]|]; [apply Hnone| |discriminate].
    destruct (LocationExists _ _ _) as [[names b]|]; [|discriminate].
    destruct (b || _); [apply Hnone|].
    destruct (CheckNewPath _ _ _) as [[tree ok]|]; [|discriminate].
    intros [= <-] [].
  - (* create_file *)
    destruct (negb (IsPathValid path)); [apply Hnone|].
    destruct (parent_rejected _ _) as [[|]|]; [apply Hnone| |discriminate].
    destruct (LocationExists _ _ _) as [[names b]|]; [|discriminate].
    destruct (b || _); [apply Hnone|].
    destruct (CheckNewPath _ _ _) as [[tree ok]|]; [|discriminate].
    intros [= <-]. cbn [sent]. destruct ok; [|intros []].
    unfold CreateFileOnStorage. destruct (registry s) as [|first reg];
      [intros []|].
    intros [<-|[]]. cbn. auto.
  - (* get_storage *)
    destruct (negb (IsPathValid path)); [apply Hnone|].
    destruct (LocationExists _ _ _) as [[names b]|]; [|discriminate].
    destruct (negb b || _); [apply Hnone|].
    destruct (hosting_server _ _); apply Hnone.
  - (* lock *)
    destruct (negb (IsPathValid path)); [apply Hnone|].
    destruct (LocationExists _ _ _) as [[names b]|]; [|discriminate].
    destruct (negb b && _); [apply Hnone|].
    destruct (LockLocation _ _ _) as [tree|tree|tree|]; try discriminate;
      intros [= <-] [].
  - (* unlock *)
    destruct (negb (IsPathValid path)); [apply Hnone|].
    destruct (LocationExists _ _ _) as [[names b]|]; [|discriminate].
    destruct (negb b && _); [apply Hnone|].
    destruct (UnlockLocation _ _ _ _) as [[tree ok]|]; [|discriminate].
    destruct ok; [|intros [= <-] []].
    rewrite Increment_Access_Count_counted.
    assert (Hdelete : forall s2,
               registry s2 = registry s ->
               In m (if ex then SendDelete storage s2 path false else []) ->
               In (to_port m) (map CommandPort (registry s))
               /\ match command m with
                  | storage_create p =>
                      unlock_ path ex = create_file p
                      /\ head (map CommandPort (registry s))
                         = Some (to_port m)
                  | storage_delete p =>
                      (unlock_ path ex = delete_ p
                       \/ unlock_ path ex = unlock_ p true)
                      /\ (1 < length (registry s))%nat
                  | storage_copy p server_ip server_port =>
                      (exists exclusive, unlock_ path ex = unlock_ p exclusive)
                      /\ (1 < length (registry s))%nat
                      /\ server_ip = "127.0.0.1"
                      /\ exists ss,
                           In ss (registry s) /\ In p (Files ss)
                           /\ ClientPort ss = server_port
                           /\ to_port m <> CommandPort ss
                  end).
    { intros s2 Hregistry. destruct ex; [|intros []].
      intros (-> & Hport & Hlen)%SendDelete_sent.
      rewrite Hregistry in Hport, Hlen. auto. }
    destruct (20 <=? _); cbv beta iota zeta; intros [= <-]; cbn [sent];
      [|intros Hdel; apply (Hdelete _ eq_refl Hdel)].
    intros [Hcopy|Hdel]%in_app_iff; [|apply (Hdelete _ eq_refl Hdel)].
    apply CallStorageCopy_sent in Hcopy
      as (Hport & Hlen & ss & Hin & Hfile & -> & Hother).
    cbn [registry with_root] in *. split; [exact Hport|].
    split; [eauto|]. split; [exact Hlen|]. split; [reflexivity|].
    exists ss. auto.
  - (* delete *)
    destruct (negb (IsPathValid path)); [apply Hnone|].
    destruct (LocationExists _ _ _) as [[names b]|]; [|discriminate].
    destruct (negb b && _); [apply Hnone|].
    intros [= <-]. cbn [sent].
    intros (-> & Hport & Hlen)%SendDelete_sent. auto.
Qed.

Lemma what_a_request_sends_witness :
  exists o,
    HandleServiceCommand storage_ok replica_server (delete_ "/file") = Some o
    /\ In (mkSent 2002 (storage_delete "/file")) (sent o)
    /\ In 2002 (map CommandPort (registry replica_server)).
Proof.
  eexists. split; [vm_compute; reflexivity|].
  assert (Hsent : In (mkSent 2002 (storage_delete "/file"))
                    [mkSent 2001 (storage_delete "/file");
                     mkSent 2002 (storage_delete "/file")])
    by (right; left; reflexivity).
  split; [exact Hsent|].
  apply (what_a_request_sends storage_ok replica_server (delete_ "/file")
           _ (mkSent 2002 (storage_delete "/file")) eq_refl Hsent).
Defined.

Lemma send_each_all storage ports skip cmd :
  (forall port, In port ports -> storage port cmd <> None) ->
  send_each storage ports skip cmd
  = map (fun port => mkSent port cmd)
      (List.filter (fun port => negb (skip port)) ports).
Proof.
  induction ports as [|port ports IH]; intros Hup; [reflexivity|].
  cbn [send_each List.filter].
  assert (Hrest : forall p, In p ports -> storage p cmd <> None)
    by (intros p Hp; apply Hup; right; exact Hp).
  destruct (skip port); cbn [negb]; [apply IH; exact Hrest|].
  destruct (storage port cmd) eqn:Hport.
  - cbn [map]. rewrite (IH Hrest). reflexivity.
  - destruct (Hup port (or_introl eq_refl) Hport).
Qed.

Lemma send_each_until_failure storage before down after skip cmd :
  (forall port, In port before -> storage port cmd <> None) ->
  skip down = false ->
  storage down cmd = None ->
  send_each storage (before ++ down :: after) skip cmd
  = map (fun port => mkSent port cmd)
      (List.filter (fun port => negb (skip port)) before ++ [down]).
Proof.
  intros Hup Hskip Hdown.
  induction before as [|port before IH].
  - cbn. rewrite Hskip, Hdown. reflexivity.
  - cbn [app send_each List.filter].
    assert (Hrest : forall p, In p before -> storage p cmd <> None)
      by (intros p Hp; apply Hup; right; exact Hp).
    destruct (skip port); cbn [negb]; [apply IH; exact Hrest|].
    destruct (storage port cmd) eqn:Hport.
    + cbn [app map]. rewrite (IH Hrest). reflexivity.
    + destruct (Hup port (or_introl eq_refl) Hport).
Qed.

Lemma delete_accepted storage s path o :
  HandleServiceCommand storage s (delete_ path) = Some o ->
  reply o = ServiceResponse true ->
  sent o = SendDelete storage s path true.
Proof.
  cbn [HandleServiceCommand].
  destruct (negb (IsPathValid path)); [intros [= <-]; discriminate|].
  destruct (LocationExists _ _ _) as [[names b]|]; [|discriminate].
  destruct (negb b && _); [intros [= <-]; discriminate|].
  intros [= <-]. reflexivity.
Qed.

Lemma filter_all {A} (l : list A) : List.filter (fun _ => true) l = l.
Proof. induction l as [|x l IH]; [reflexivity|]. simpl. rewrite IH. reflexivity. Qed.

(** X14: when at least two storage servers are registered and every one
    of them answers, an accepted [/delete] sends the delete command for
    the path to every registered storage server, once each, in the order
    of registration. *)
Theorem delete_reaches_every_server storage s path o :
  HandleServiceCommand storage s (delete_ path) = Some o ->
  reply o = ServiceResponse true ->
  (1 < length (registry s))%nat ->
  (forall ss, In ss (registry s) ->
     storage (CommandPort ss) (storage_delete path) <> None) ->
  sent o
  = map (fun ss => mkSent (CommandPort ss) (storage_delete path)) (registry s).
Proof.
  intros Hserve Hreply Hlen Hup.
  rewrite (delete_accepted _ _ _ _ Hserve Hreply). unfold SendDelete.
  apply Nat.ltb_lt in Hlen. rewrite Hlen.
  rewrite send_each_all.
  - rewrite (List.filter_ext _ (fun _ => true)), filter_all, map_map;
      [reflexivity|].
    intros port. rewrite andb_false_r. reflexivity.
  - intros port (ss & <- & Hin)%in_map_iff. apply (Hup ss Hin).
Qed.

Lemma delete_reaches_every_server_witness :
  exists o,
    HandleServiceCommand storage_ok replica_server (delete_ "/file") = Some o
    /\ sent o = [mkSent 2001 (storage_delete "/file");
                 mkSent 2002 (storage_delete "/file")].
Proof.
  eexists. split; [vm_compute; reflexivity|].
  apply (delete_reaches_every_server storage_ok replica_server "/file" _
           eq_refl eq_refl).
  - vm_compute. lia.
  - intros ss _. discriminate.
Defined.

(** X15: the loop that sends the delete commands stops at the first
    storage server that cannot be reached: an accepted [/delete] still
    answers [success: true], the servers registered before the failing one
    and the failing one are sent the command, the servers registered after
    it are sent nothing. *)
Theorem delete_stops_at_the_first_failure
    storage s path o before down after :
  HandleServiceCommand storage s (delete_ path) = Some o ->
  reply o = ServiceResponse true ->
  registry s = before ++ down :: after ->
  (1 < length (registry s))%nat ->
  (forall ss, In ss before ->
     storage (CommandPort ss) (storage_delete path) <> None) ->
  storage (CommandPort down) (storage_delete path) = None ->
  sent o
  = map (fun ss => mkSent (CommandPort ss) (storage_delete path))
      (before ++ [down]).
Proof.
  intros Hserve Hreply Hregistry Hlen Hup Hdown.
  rewrite (delete_accepted _ _ _ _ Hserve Hreply). unfold SendDelete.
  apply Nat.ltb_lt in Hlen. rewrite Hlen, Hregistry, map_app. cbn [map].
  rewrite send_each_until_failure.
  - rewrite (List.filter_ext _ (fun _ => true)), filter_all, !map_app, map_map;
      [reflexivity|].
    intros port. rewrite andb_false_r. reflexivity.
  - intros port (ss & <- & Hin)%in_map_iff. apply (Hup ss Hin).
  - apply andb_false_r.
  - exact Hdown.
Qed.

Lemma delete_stops_at_the_first_failure_witness :
  exists o,
    HandleServiceCommand (storage_down 2002) three_storage_server
      (delete_ "/") = Some o
    /\ reply o = ServiceResponse true
    /\ sent o = [mkSent 2001 (storage_delete "/");
                 mkSent 2002 (storage_delete "/")].
Proof.
  eexists. split; [vm_compute; reflexivity|]. split; [reflexivity|].
  apply (delete_stops_at_the_first_failure (storage_down 2002)
           three_storage_server "/" _ [storage1 []] (storage2 [])
           [storage3 []] eq_refl eq_refl eq_refl).
  - vm_compute. lia.
  - intros ss [<-|[]]. discriminate.
  - reflexivity.
Defined.

(** ** A lock that nobody contends for *)

Lemma split_at_name_intro n before sub after :
  Forall (fun x => name x <> n) before ->
  name sub = n ->
  split_at_name n (before ++ sub :: after) = Some (before, sub, after).
Proof.
  intros Hbefore Hname.
  induction Hbefore as [|x before Hx _ IH]; cbn [app split_at_name].
  - apply String.eqb_eq in Hname. rewrite String.eqb_sym, Hname. reflexivity.
  - apply String.eqb_neq in Hx. rewrite String.eqb_sym, Hx, IH. reflexivity.
Qed.

Lemma is_target_name l l' path :
  name l' = name l -> is_target l' path = is_target l path.
Proof. unfold is_target. intros ->. reflexivity. Qed.

Lemma idle_inv l :
  idle l = true ->
  exists n,
    l = mkLocation (name l) (subLocations l) [] [] n []
    /\ forallb idle (subLocations l) = true.
Proof.
  destruct l as [nm subs lks q n elw]. cbn [idle name subLocations].
  intros [[[Hlks Hq]%andb_prop Helw]%andb_prop Hsubs]%andb_prop.
  destruct lks, q, elw; try discriminate. eauto.
Qed.

Lemma idle_intro nm subs n :
  forallb idle subs = true -> idle (mkLocation nm subs [] [] n []) = true.
Proof. intros Hsubs. cbn. exact Hsubs. Qed.

Lemma forallb_replace {A} (f : A -> bool) before x x' after :
  forallb f (before ++ x :: after) = true ->
  f x' = true ->
  forallb f (before ++ x' :: after) = true.
Proof.
  rewrite !forallb_app. cbn [forallb].
  intros [Hb [_ Ha]%andb_prop]%andb_prop ->. rewrite Hb, Ha. reflexivity.
Qed.

(** The lock state that a granted request leaves on an idle location, and
    that the matching unlock removes. *)
Lemma lock_request_idle nm subs n lock :
  lock_request (mkLocation nm subs [] [] n []) lock
  = Granted
      (mkLocation nm subs
         [mkLock (PathString lock) (Exclusive lock) (int_succ n)]
         [mkLock (PathString lock) (Exclusive lock) (int_succ n)]
         (int_succ n)
         (if Exclusive lock then [int_succ n] else [])).
Proof.
  unfold lock_request. cbn -[int_succ].
  destruct (Exclusive lock); reflexivity.
Qed.

Lemma unlock_target_granted nm subs n path ex index index' ret :
  unlock_target
    (mkLocation nm subs [mkLock path ex index] [mkLock path ex index] n
       (if ex then [index] else []))
    (mkLock path ex index') ret
  = Some (mkLocation nm subs [] [] n [], true).
Proof. destruct ex; reflexivity. Qed.

Lemma unlock_prefix_taken nm subs n subs' :
  unlock_prefix
    (set_subLocations (take_prefix_lock (mkLocation nm subs [] [] n [])) subs')
  = Some (mkLocation nm subs' [] [] (int_succ n) []).
Proof. reflexivity. Qed.

Lemma lock_unlock_idle l :
  forall path ex idx,
    idle l = true ->
    match LockLocation l (mkLock path ex 0) idx with
    | Locked l1 =>
        exists l2,
          UnlockLocation l1 (mkLock path ex 0) idx false = Some (l2, true)
          /\ idle l2 = true /\ skeleton l2 = skeleton l
    | NotReached l1 =>
        exists l2,
          UnlockLocation l1 (mkLock path ex 0) idx false = Some (l2, false)
          /\ idle l2 = true /\ skeleton l2 = skeleton l
    | Spinning _ => False
    | LockPanic => True
    end.
Proof.
  induction l as [nm subs lks q n elw IH] using Location_tree_ind.
  intros path ex idx Hidle.
  destruct (idle_inv _ Hidle) as (n' & Heq & Hsubs).
  cbn [name subLocations] in Heq, Hsubs. injection Heq as -> -> <- ->.
  set (cur := mkLocation nm subs [] [] n []) in *.
  rewrite LockLocation_step. cbn [PathString].
  destruct (is_target cur path) as [[|]|] eqn:Htarget; [| |exact I].
  { (* the location asked for *)
    unfold cur at 1. rewrite lock_request_idle. cbn [PathString Exclusive].
    eexists. rewrite UnlockLocation_step. cbn [PathString].
    rewrite (is_target_name cur) by reflexivity. rewrite Htarget.
    rewrite unlock_target_granted. split; [reflexivity|].
    split; [apply idle_intro; exact Hsubs|reflexivity]. }
  destruct (locations_of path !! idx) as [next|] eqn:Hnext; [|exact I].
  destruct (split_at_name next (subLocations cur))
    as [[[before sub] after]|] eqn:Hsplit.
  2:{ (* no sub-location of the next name *)
      exists cur. rewrite UnlockLocation_step. cbn [PathString].
      rewrite Htarget, Hnext, Hsplit. auto. }
  pose proof (split_at_name_In _ _ _ _ _ Hsplit) as Hin.
  apply split_at_name_Some in Hsplit as (Hsplit & Hname & Hbefore).
  cbn [subLocations cur] in Hsplit.
  change (prefix_lock cur) with (Some (take_prefix_lock cur)). cbn zeta.
  rewrite List.Forall_forall in IH.
  assert (Hsub : idle sub = true).
  { rewrite Hsplit, forallb_app in Hsubs.
    apply andb_prop in Hsubs as [_ [Hsub _]%andb_prop]. exact Hsub. }
  specialize (IH sub Hin path ex (S idx) Hsub).
  assert (Hback : forall sub1 sub2 ret,
             name sub1 = name sub ->
             UnlockLocation sub1 (mkLock path ex 0) (S idx) false
             = Some (sub2, ret) ->
             idle sub2 = true -> skeleton sub2 = skeleton sub ->
             exists l2,
               UnlockLocation
                 (set_subLocations (take_prefix_lock cur)
                    (before ++ sub1 :: after))
                 (mkLock path ex 0) idx false
               = Some (l2, ret)
               /\ idle l2 = true /\ skeleton l2 = skeleton cur).
  { intros sub1 sub2 ret Hname1 Hunlock Hidle2 Hskeleton.
    eexists. rewrite UnlockLocation_step. cbn [PathString].
    rewrite (is_target_name cur) by reflexivity. rewrite Htarget, Hnext.
    cbn [subLocations set_subLocations].
    rewrite (split_at_name_intro next before sub1 after Hbefore)
      by congruence.
    unfold cur at 1. rewrite unlock_prefix_taken, Hunlock.
    split; [reflexivity|]. split.
    - cbn [set_subLocations name locks lock_queue num_locks
             exclusive_locks_waiting].
      apply idle_intro. rewrite Hsplit in Hsubs.
      apply (forallb_replace _ _ _ _ _ Hsubs Hidle2).
    - cbn [skeleton set_subLocations name subLocations cur].
      rewrite Hsplit, !map_app. cbn [map]. rewrite Hskeleton. reflexivity. }
  destruct (LockLocation sub (mkLock path ex 0) (S idx))
    as [sub1|sub1|sub1|] eqn:Hlock; [| | |exact I].
  - destruct IH as (sub2 & Hunlock & Hidle2 & Hskeleton).
    apply (Hback sub1 sub2 true); auto.
    rewrite <- (skeleton_name sub1), <- (skeleton_name sub).
    f_equal. apply (LockLocation_skeleton sub (mkLock path ex 0) (S idx)).
    rewrite Hlock. reflexivity.
  - exact IH.
  - destruct IH as (sub2 & Hunlock & Hidle2 & Hskeleton).
    apply (Hback sub1 sub2 false); auto.
    rewrite <- (skeleton_name sub1), <- (skeleton_name sub).
    f_equal. apply (LockLocation_skeleton sub (mkLock path ex 0) (S idx)).
    rewrite Hlock. reflexivity.
Qed.

(** X16: in a server that the handlers can produce and in whose tree no
    lock is held or queued, a [/lock] request never waits; and when it is
    answered 200, the [/unlock] request for the same path and kind is
    answered 200 and leaves a tree in which again no lock is held or
    queued, the shared locks on the locations above the target included,
    with the same locations as before. *)
Theorem uncontended_lock_round_trip storage s path exclusive o1 :
  reachable_server s ->
  idle (root s) = true ->
  HandleServiceCommand storage s (lock_ path exclusive) = Some o1 ->
  reply o1 <> NoReply
  /\ (reply o1 = EmptyOK ->
      exists o2,
        HandleServiceCommand storage (server o1) (unlock_ path exclusive)
        = Some o2
        /\ reply o2 = EmptyOK
        /\ idle (root (server o2)) = true
        /\ skeleton (root (server o2)) = skeleton (root s)).
Proof.
  intros Hreach Hidle Hserve.
  assert (Hreach1 : reachable_server (server o1))
    by (apply (reachable_service _ _ _ _ Hreach Hserve)).
  cbn [HandleServiceCommand] in Hserve. revert Hserve Hreach1.
  destruct (IsPathValid path) eqn:Hvalid; cbn [negb];
    [|intros [= <-] _; split; discriminate].
  pose proof (locations_of_not_nil path Hvalid) as Hne.
  destruct (reachable_LocationExists s _ Hreach Hne) as [names ->].
  destruct (negb (has_path (locations_of path) (root s))
            && negb (String.eqb path "/")) eqn:Hfound;
    [intros [= <-] _; split; discriminate|].
  pose proof (lock_unlock_idle (root s) path exclusive 0 Hidle) as Htrip.
  pose proof (LockLocation_skeleton (root s) (mkLock path exclusive 0) 0)
    as Hskeleton.
  assert (Hunlock : forall tree1 tree2 ok,
             reachable_server (with_root s tree1) ->
             skeleton tree1 = skeleton (root s) ->
             UnlockLocation tree1 (mkLock path exclusive 0) 0 false
             = Some (tree2, ok) ->
             idle tree2 = true ->
             skeleton tree2 = skeleton (root s) ->
             exists o2,
               HandleServiceCommand storage (with_root s tree1)
                 (unlock_ path exclusive) = Some o2
               /\ reply o2 = EmptyOK
               /\ idle (root (server o2)) = true
               /\ skeleton (root (server o2)) = skeleton (root s)).
  { intros tree1 tree2 ok Hreach1 Hsame Hun Hidle2 Hskeleton2.
    cbn [HandleServiceCommand]. rewrite Hvalid. cbn [negb].
    destruct (reachable_LocationExists _ _ Hreach1 Hne) as [names1 ->].
    cbn [root with_root].
    rewrite (same_skeleton_has_path _ (root s) tree1 Hsame), Hfound, Hun.
    destruct ok; [|eexists; split; [reflexivity|]; auto].
    destruct (Increment_Access_Count _ _ _) as [counts copies].
    eexists; split; [reflexivity|]; auto. }
  destruct (LockLocation (root s) (mkLock path exclusive 0) 0)
    as [tree1|tree1|tree1|]; [|destruct Htrip| |discriminate];
    intros [= <-] Hreach1; (split; [discriminate|]);
    cbn [server reply] in *.
  - intros _. destruct Htrip as (tree2 & Hun & Hidle2 & Hskeleton2).
    apply (Hunlock tree1 tree2 true); auto.
  - intros _. destruct Htrip as (tree2 & Hun & Hidle2 & Hskeleton2).
    apply (Hunlock tree1 tree2 false); auto.
Qed.

Lemma uncontended_lock_round_trip_witness :
  exists o2,
    HandleServiceCommand storage_ok writing_server (unlock_ "/file" true)
    = Some o2
    /\ reply o2 = EmptyOK
    /\ idle (root (server o2)) = true
    /\ skeleton (root (server o2)) = skeleton (root one_file_server).
Proof.
  destruct (uncontended_lock_round_trip storage_ok one_file_server "/file"
              true (mkOutcome EmptyOK writing_server [])
              one_file_server_reachable eq_refl eq_refl)
    as [_ Hunlock].
  exact (Hunlock eq_refl).
Defined.

(** ** One location under any interleaving *)




(** ** Where a file is stored *)

Lemma hosting_server_first reg path before ss after :
  reg = before ++ ss :: after ->
  (forall x, In x before -> ~ In path (Files x)) ->
  In path (Files ss) ->
  hosting_server reg path = Some ss.
Proof.
  intros -> Hbefore Hss.
  induction before as [|x before IH]; cbn [app hosting_server].
  - assert (Hlists : existsb (fun file => String.eqb file path) (Files ss)
                     = true).
    { apply existsb_exists. exists path. split; [exact Hss|].
      apply String.eqb_refl. }
    rewrite Hlists. reflexivity.
  - destruct (existsb _ (Files x)) eqn:Hlists.
    + apply existsb_exists in Hlists as (file & Hin & ->%String.eqb_eq).
      destruct (Hbefore x (or_introl eq_refl) Hin).
    + apply IH. intros y Hy. apply Hbefore. right. exact Hy.
Qed.

Lemma hosting_server_none reg path :
  (forall x, In x reg -> ~ In path (Files x)) ->
  hosting_server reg path = None.
Proof.
  induction reg as [|x reg IH]; intros Hnone; [reflexivity|].
  cbn [hosting_server]. destruct (existsb _ (Files x)) eqn:Hlists.
  - apply existsb_exists in Hlists as (file & Hin & ->%String.eqb_eq).
    destruct (Hnone x (or_introl eq_refl) Hin).
  - apply IH. intros y Hy. apply Hnone. right. exact Hy.
Qed.

(** X18: in every server that the handlers can produce, [/get_storage]
    for an existing path whose last component does not contain
    "directory" answers with the address and client port of the storage
    server that registered first among those that reported the path, in
    exactly this spelling; when no registered storage server reported it,
    as for a file created through [/create_file], the request is answered
    400, Unknown Command. *)
Theorem get_storage_answer storage s path :
  reachable_server s ->
  IsPathValid path = true ->
  has_path (locations_of path) (root s) = true ->
  Contains (List.last (locations_of path) "") "directory" = false ->
  (forall before ss after,
      registry s = before ++ ss :: after ->
      (forall x, In x before -> ~ In path (Files x)) ->
      In path (Files ss) ->
      HandleServiceCommand storage s (get_storage path)
      = Some (mkOutcome (StorageInfo (StorageIP ss) (ClientPort ss)) s []))
  /\ ((forall x, In x (registry s) -> ~ In path (Files x)) ->
      HandleServiceCommand storage s (get_storage path)
      = Some (mkOutcome UnknownCommand s [])).
Proof.
  intros Hreach Hvalid Hpath Hfile.
  destruct (reachable_LocationExists s (locations_of path) Hreach
              (locations_of_not_nil path Hvalid)) as [names Hexists].
  split.
  - intros before ss after Hregistry Hbefore Hss. cbn [HandleServiceCommand].
    rewrite Hvalid, Hexists, Hpath, Hfile.
    rewrite (hosting_server_first _ _ _ _ _ Hregistry Hbefore Hss).
    reflexivity.
  - intros Hnone. cbn [HandleServiceCommand].
    rewrite Hvalid, Hexists, Hpath, Hfile, (hosting_server_none _ _ Hnone).
    reflexivity.
Qed.

Lemma created_file_server_reachable : reachable_server created_file_server.
Proof.
  apply (reachable_service storage_ok empty_storage_server
           (create_file "/file")
           (mkOutcome (ServiceResponse true) created_file_server
              [mkSent 2001 (storage_create "/file")])).
  - apply (reachable_registration
             (registered initial_server (storage1 [])) (storage2 [])
             (mkOutcome (FilesResponse []) empty_storage_server [])).
    + apply (reachable_registration initial_server (storage1 [])
               (mkOutcome (FilesResponse [])
                  (registered initial_server (storage1 [])) [])).
      * apply reachable_initial.
      * vm_compute. reflexivity.
    + vm_compute. reflexivity.
  - vm_compute. reflexivity.
Qed.

Lemma get_storage_answer_witness :
  HandleServiceCommand storage_ok two_owner_server (get_storage "/file")
  = Some (mkOutcome (StorageInfo "127.0.0.1" 1001) two_owner_server [])
  /\ HandleServiceCommand storage_ok created_file_server (get_storage "/file")
     = Some (mkOutcome UnknownCommand created_file_server []).
Proof.
  split.
  - destruct (get_storage_answer storage_ok two_owner_server "/file"
                two_owner_server_reachable eq_refl eq_refl eq_refl)
      as [Hfirst _].
    apply (Hfirst [] (storage1 ["/file"]) [storage2 ["/file"]] eq_refl).
    + intros x [].
    + left. reflexivity.
  - destruct (get_storage_answer storage_ok created_file_server "/file"
                created_file_server_reachable eq_refl eq_refl eq_refl)
      as [_ Hnone].
    apply Hnone. intros x [<-|[<-|[]]] [].
Defined.

(** ** Listings *)

Lemma later_are_leaves_In seen subs x :
  later_are_leaves seen subs = true ->
  In x subs ->
  existsb (String.eqb (name x)) seen = true ->
  subLocations x = [].
Proof.
  revert seen. induction subs as [|sub subs IH]; intros seen; [intros _ []|].
  cbn [later_are_leaves]. intros [Hhead Htail]%andb_prop [<-|Hin] Hseen.
  - rewrite Hseen in Hhead. destruct (subLocations sub); [reflexivity|discriminate].
  - apply (IH _ Htail Hin). cbn [existsb]. rewrite Hseen. apply orb_true_r.
Qed.

Lemma later_are_leaves_after seen before sub after x :
  later_are_leaves seen (before ++ sub :: after) = true ->
  In x after -> name x = name sub -> subLocations x = [].
Proof.
  revert seen. induction before as [|y before IH]; intros seen; cbn [app].
  - cbn [later_are_leaves]. intros [_ Htail]%andb_prop Hin Hname.
    apply (later_are_leaves_In _ _ _ Htail Hin). cbn [existsb].
    rewrite Hname, String.eqb_refl. reflexivity.
  - cbn [later_are_leaves]. intros [_ Htail]%andb_prop. apply (IH _ Htail).
Qed.

Lemma contents_of_first d subs before dir after :
  split_at_name d subs = Some (before, dir, after) ->
  later_are_leaves [] subs = true ->
  contents_of d subs = map name (subLocations dir).
Proof.
  intros (-> & Hname & Hbefore)%split_at_name_Some Hleaves.
  unfold contents_of. rewrite flat_map_app. cbn [flat_map].
  assert (Hnone : flat_map
                    (fun sub => if String.eqb (name sub) d
                                then map name (subLocations sub) else [])
                    before = []).
  { clear Hleaves. induction Hbefore as [|x before Hx _ IH]; [reflexivity|].
    cbn [flat_map]. apply String.eqb_neq in Hx. rewrite Hx, IH. reflexivity. }
  assert (Hafter : flat_map
                     (fun sub => if String.eqb (name sub) d
                                 then map name (subLocations sub) else [])
                     after = []).
  { assert (Hleaf : forall x, In x after -> name x = d -> subLocations x = []).
    { intros x Hin Hx. apply (later_are_leaves_after _ _ _ _ _ Hleaves Hin).
      congruence. }
    clear Hleaves. induction after as [|x after IH]; [reflexivity|].
    cbn [flat_map]. rewrite IH by (intros y Hy; apply Hleaf; right; exact Hy).
    destruct (String.eqb_spec (name x) d) as [Hx|_]; [|reflexivity].
    rewrite (Hleaf x (or_introl eq_refl) Hx). reflexivity. }
  apply String.eqb_eq in Hname. rewrite Hnone, Hafter, Hname, app_nil_r.
  reflexivity.
Qed.

Lemma GetContentsAt_one l d :
  GetContentsAt l [d] []
  = Some ([d],
          if String.eqb (name l) "/" && String.eqb d (name l)
          then map name (subLocations l)
          else contents_of d (subLocations l)).
Proof.
  destruct l as [nm subs lks q n elw]. cbn.
  destruct (String.eqb nm "/" && String.eqb d nm); reflexivity.
Qed.

(** X19: in every server that the handlers can produce, [/list] for the
    root answers the names of the sub-locations of the root, in the order
    of that list; and [/list] for a path of one component
    that contains "directory" and exists answers the names of the
    sub-locations of the first location of that name below the root. *)
Theorem listing_the_top_levels storage s :
  reachable_server s ->
  HandleServiceCommand storage s (list_ "/")
  = Some (mkOutcome (FilesResponse (map name (subLocations (root s)))) s [])
  /\ forall path d before dir after,
       IsPathValid path = true ->
       trimmed_locations path = [d] ->
       Contains d "directory" = true ->
       split_at_name d (subLocations (root s)) = Some (before, dir, after) ->
       HandleServiceCommand storage s (list_ path)
       = Some (mkOutcome (FilesResponse (map name (subLocations dir))) s []).
Proof.
  intros Hreach.
  pose proof (reachable_root_name s Hreach) as Hroot.
  split.
  - cbn [HandleServiceCommand].
    change (IsPathValid "/") with true. cbn [negb].
    destruct (LocationExists_returns (root s) (trimmed_locations "/") false
                (trimmed_locations_not_nil "/")) as (names & b & -> & _).
    change (String.eqb "/" "/") with true.
    rewrite orb_true_r. cbn [negb]. rewrite andb_false_r.
    rewrite GetContentsAt_one, Hroot. reflexivity.
  - intros path d before dir after Hvalid Hsplit Hdirectory Hfound.
    assert (Hd : d <> "/").
    { apply (Split_piece_is_not_the_separator (TrimLeft path "/") "/").
      fold (trimmed_locations path). rewrite Hsplit. left. reflexivity. }
    assert (Hpath : path <> "/").
    { intros ->. vm_compute in Hsplit. injection Hsplit as <-.
      discriminate. }
    assert (Hne : [d] <> []) by discriminate.
    destruct (reachable_LocationExists s [d] Hreach Hne) as [names Hexists].
    destruct (LocationExists_keeps_last _ _ _ _ _ Hne Hexists)
      as [Hlen Hlast].
    destruct names as [|d' [|]]; try discriminate. cbn in Hlast. subst d'.
    cbn [HandleServiceCommand]. rewrite Hvalid, Hsplit, Hexists.
    cbn [has_path List.last negb]. rewrite split_at_name_has_sub, Hfound.
    apply String.eqb_neq in Hpath. rewrite Hdirectory, Hpath.
    cbn [orb andb negb]. rewrite GetContentsAt_one.
    apply String.eqb_neq in Hd. rewrite Hroot, Hd, andb_false_r.
    rewrite (contents_of_first _ _ _ _ _ Hfound); [reflexivity|].
    apply first_born_subs. apply (reachable_server_first_born s Hreach).
Qed.

Lemma listing_the_top_levels_witness :
  HandleServiceCommand storage_ok directory_server (list_ "/")
  = Some (mkOutcome (FilesResponse ["directory"]) directory_server [])
  /\ HandleServiceCommand storage_ok directory_server (list_ "/directory")
     = Some (mkOutcome (FilesResponse ["file1"]) directory_server []).
Proof.
  assert (Hreach : reachable_server directory_server).
  { apply (reachable_registration initial_server
             (storage1 ["/directory/file1"])
             (mkOutcome (FilesResponse []) directory_server [])).
    - apply reachable_initial.
    - vm_compute. reflexivity. }
  destruct (listing_the_top_levels storage_ok directory_server Hreach)
    as [Hroot Hdirectory].
  split; [exact Hroot|].
  apply (Hdirectory "/directory" "directory" []
           (set_subLocations (newLocation "directory") [newLocation "file1"])
           []); reflexivity.
Defined.

(** ** Replication *)

Lemma filter_other_ports (ports : list Z) (port : Z) :
  port ∉ ports ->
  List.filter (fun p => negb (p =? port)) ports = ports.
Proof.
  induction ports as [|p ports IH]; [reflexivity|].
  intros [Hp Hports]%not_elem_of_cons. cbn [List.filter].
  apply not_eq_sym, Z.eqb_neq in Hp. rewrite Hp, (IH Hports). reflexivity.
Qed.

Lemma filter_the_port (f : StorageServer -> Z) before ss after :
  NoDup (map f (before ++ ss :: after)) ->
  List.filter (fun p => negb (p =? f ss)) (map f (before ++ ss :: after))
  = map f (before ++ after).
Proof.
  rewrite !map_app. cbn [map].
  intros (_ & Hbefore & [Hafter _]%NoDup_cons)%NoDup_app.
  rewrite List.filter_app. cbn [List.filter]. rewrite Z.eqb_refl. cbn [negb].
  rewrite !filter_other_ports; [reflexivity|exact Hafter|].
  intros Hin. apply (Hbefore _ Hin). left.
Qed.

(** X20: in every server that the handlers can produce, when every
    storage server answers, [CallStorageCopy] sends the copy command for a
    file to every registered storage server except the last one that
    reported the file, once each, in the order of registration, and names
    the client port of that last reporter as the source; the client port 0
    is taken for "no reporter". *)
Theorem copy_reaches_every_other_server
    storage s file before owner after :
  reachable_server s ->
  registry s = before ++ owner :: after ->
  In file (Files owner) ->
  (forall ss, In ss after -> ~ In file (Files ss)) ->
  ClientPort owner <> 0 ->
  (forall ss, In ss (registry s) ->
     storage (CommandPort ss)
       (storage_copy file "127.0.0.1" (ClientPort owner)) <> None) ->
  CallStorageCopy storage s file
  = map (fun ss => mkSent (CommandPort ss)
                     (storage_copy file "127.0.0.1" (ClientPort owner)))
      (before ++ after).
Proof.
  intros Hreach Hregistry Howner Hafter Hport Hup.
  assert (Hdistinct : NoDup (map CommandPort (registry s))).
  { clear Hregistry Hup.
    induction Hreach as [|s ss o _ IH Hreg|storage' s r o _ IH Hserve].
    - constructor.
    - apply HandleRegistration_frame in Hreg
        as [[-> _]|(Hfresh & rejected & _ & _ & -> & _)]; [exact IH|].
      rewrite map_app. cbn [map]. apply NoDup_app.
      split; [exact IH|]. split; [|apply NoDup_singleton].
      intros x Hx ->%list_elem_of_singleton. revert Hx.
      apply not_in_map_ports. eapply Forall_impl; [exact Hfresh|].
      intros ss' [_ H2]. exact H2.
    - apply HandleServiceCommand_frame in Hserve as (-> & _). exact IH. }
  assert (Hfound : find_owner (registry s) file
                   = (ClientPort owner, CommandPort owner)).
  { rewrite Hregistry. apply find_owner_last.
    - apply existsb_exists. exists file. split; [exact Howner|].
      apply String.eqb_refl.
    - apply List.Forall_forall. intros ss Hss.
      destruct (existsb (String.eqb file) (Files ss)) eqn:Hlists;
        [|reflexivity].
      apply existsb_exists in Hlists as (file' & Hin & <-%String.eqb_eq).
      destruct (Hafter ss Hss Hin). }
  unfold CallStorageCopy. rewrite Hfound. cbn [fst snd].
  apply Z.eqb_neq in Hport. rewrite Hport. cbn [negb].
  rewrite andb_true_r.
  destruct (1 <? length (registry s))%nat eqn:Hlen.
  - rewrite send_each_all.
    + rewrite Hregistry in Hdistinct |- *.
      rewrite (filter_the_port CommandPort _ _ _ Hdistinct), map_map.
      reflexivity.
    + intros port (ss & <- & Hin)%in_map_iff. apply (Hup ss Hin).
  - apply Nat.ltb_ge in Hlen. rewrite Hregistry, length_app in Hlen.
    cbn [length] in Hlen.
    destruct before; [|simpl in Hlen; lia].
    destruct after; [reflexivity|simpl in Hlen; lia].
Qed.

Lemma copy_reaches_every_other_server_witness :
  CallStorageCopy storage_ok two_owner_server "/file"
  = [mkSent 2001 (storage_copy "/file" "127.0.0.1" 1002)].
Proof.
  apply (copy_reaches_every_other_server storage_ok two_owner_server "/file"
           [storage1 ["/file"]] (storage2 ["/file"]) []
           two_owner_server_reachable eq_refl).
  - left. reflexivity.
  - intros ss [].
  - discriminate.
  - intros ss _. discriminate.
Defined.

(** ** The first file of a registration *)

(** X21: when a storage server registers with a naming server whose tree
    has no locations yet, the first file that it reports is created at its
    path, provided that no component of the path but the last equals the
    component before it; the files reported after it leave that path in
    place. *)
Theorem first_reported_file_is_created
    s storage_server file others o rejected :
  reachable_server s ->
  subLocations (root s) = [] ->
  Files storage_server = file :: others ->
  no_repeat "/" (trimmed_locations file) ->
  HandleRegistration s storage_server = Some o ->
  reply o = FilesResponse rejected ->
  has_path (trimmed_locations file) (root (server o)) = true.
Proof.
  intros Hreach Hempty Hfiles Hrepeat Hreg Hreply.
  pose proof (reachable_root_name s Hreach) as Hroot.
  apply HandleRegistration_frame in Hreg
    as [[-> _]|(_ & rejected0 & Hregister & _)]; [discriminate|].
  rewrite Hfiles in Hregister. cbn [register_files] in Hregister.
  fold (trimmed_locations file) in Hregister.
  rewrite CheckNewPath_step, Hempty in Hregister. cbn [length Nat.eqb] in Hregister.
  destruct (AppendNewLocation (trimmed_locations file) (root s))
    as [tree1|] eqn:Happend; [|discriminate].
  refine (register_files_invariant
            (fun l => has_path (trimmed_locations file) l = true) _
            _ _ _ _ _ Hregister _).
  - intros l locations l' b Hc. apply (CheckNewPath_keeps_paths _ _ _ _ _ Hc).
  - apply (AppendNewLocation_materializes _ _ _) in Happend; [exact Happend|].
    rewrite Hroot. exact Hrepeat.
Qed.

Lemma first_reported_file_is_created_witness :
  exists o,
    HandleRegistration initial_server (storage1 ["/a/b/a"; "/a/c"]) = Some o
    /\ has_path ["a"; "b"; "a"] (root (server o)) = true.
Proof.
  eexists. split; [vm_compute; reflexivity|].
  apply (first_reported_file_is_created initial_server
           (storage1 ["/a/b/a"; "/a/c"]) "/a/b/a" ["/a/c"] _ []
           reachable_initial eq_refl eq_refl).
  - vm_compute. repeat split; discriminate.
  - reflexivity.
  - reflexivity.
Defined.

(** ** Requests that change nothing *)

Lemma UnlockLocation_idle l :
  forall unlock idx ret,
    idle l = true ->
    UnlockLocation l unlock idx ret = None
    \/ UnlockLocation l unlock idx ret = Some (l, ret).
Proof.
  induction l as [nm subs lks q n elw IH] using Location_tree_ind.
  intros unlock idx ret Hidle.
  destruct (idle_inv _ Hidle) as (n' & Heq & Hsubs).
  cbn [name subLocations] in Heq, Hsubs. injection Heq as -> -> <- ->.
  set (cur := mkLocation nm subs [] [] n []) in *.
  rewrite UnlockLocation_step.
  destruct (is_target cur (PathString unlock)) as [[|]|]; [| |left; reflexivity].
  { right. unfold unlock_target. cbn [locks cur length].
    rewrite !andb_false_r. reflexivity. }
  destruct (locations_of (PathString unlock) !! idx) as [next|];
    [|left; reflexivity].
  destruct (split_at_name next (subLocations cur))
    as [[[before sub] after]|] eqn:Hsplit; [|right; reflexivity].
  pose proof (split_at_name_In _ _ _ _ _ Hsplit) as Hin.
  apply split_at_name_Some in Hsplit as (Hsplit & _ & _).
  change (unlock_prefix cur) with (Some cur).
  assert (Hsub : idle sub = true).
  { cbn [subLocations cur] in Hsplit. rewrite Hsplit, forallb_app in Hsubs.
    apply andb_prop in Hsubs as [_ [Hsub _]%andb_prop]. exact Hsub. }
  rewrite List.Forall_forall in IH.
  destruct (IH sub Hin unlock (S idx) ret Hsub) as [-> | ->];
    [left; reflexivity|right].
  rewrite <- Hsplit, set_subLocations_same. reflexivity.
Qed.

(** X22: in a server in whose tree no lock is held or queued, an
    [/unlock] request changes nothing, whatever it answers: the tree, the
    registry and the access counters stay as they are, and nothing is sent
    to a storage server. *)
Theorem unlock_without_a_lock_changes_nothing storage s path exclusive o :
  idle (root s) = true ->
  HandleServiceCommand storage s (unlock_ path exclusive) = Some o ->
  server o = s /\ sent o = [].
Proof.
  intros Hidle. cbn [HandleServiceCommand].
  destruct (negb (IsPathValid path)); [intros [= <-]; auto|].
  destruct (LocationExists _ _ _) as [[names b]|]; [|discriminate].
  destruct (negb b && _); [intros [= <-]; auto|].
  destruct (UnlockLocation_idle (root s) (mkLock path exclusive 0) 0 false
              Hidle) as [-> | ->]; [discriminate|].
  intros [= <-]. cbn [server sent]. split; [|reflexivity].
  destruct s. reflexivity.
Qed.

Lemma unlock_without_a_lock_changes_nothing_witness :
  HandleServiceCommand storage_ok one_file_server (unlock_ "/file" true)
  = Some (mkOutcome EmptyOK one_file_server []).
Proof.
  assert (Hserve :
            HandleServiceCommand storage_ok one_file_server
              (unlock_ "/file" true)
            = Some (mkOutcome EmptyOK
                      (with_root one_file_server (root one_file_server)) []))
    by (vm_compute; reflexivity).
  destruct (unlock_without_a_lock_changes_nothing storage_ok one_file_server
              "/file" true _ eq_refl Hserve) as [Hserver _].
  cbn [server] in Hserver. rewrite Hserver in Hserve. exact Hserve.
Defined.

(** X23: in every server that the handlers can produce, [/create_file]
    and [/create_directory] for the root or for a path that exists change
    nothing and send nothing; the answer is [success: false], or 404 with
    FileNotFoundException when the parent test refuses the path. *)
Theorem creating_what_exists_changes_nothing storage s r path o :
  reachable_server s ->
  r = create_directory path \/ r = create_file path ->
  has_path (trimmed_locations path) (root s) = true \/ path = "/" ->
  HandleServiceCommand storage s r = Some o ->
  server o = s /\ sent o = []
  /\ (IsPathValid path = true ->
      reply o = ServiceResponse false \/ reply o = file_not_found).
Proof.
  intros Hreach Hr Hexists.
  destruct (reachable_LocationExists s (trimmed_locations path) Hreach
              (trimmed_locations_not_nil path)) as [names Hfound].
  assert (Hskip : has_path (trimmed_locations path) (root s)
                  || negb (1 <? length (trimmed_locations path))%nat
                     && String.eqb path "/" = true).
  { destruct Hexists as [-> | ->]; [reflexivity|]. apply orb_true_r. }
  destruct Hr as [-> | ->]; cbn [HandleServiceCommand];
    (destruct (negb (IsPathValid path)) eqn:Hvalid;
       [apply negb_true_iff in Hvalid; intros [= <-];
        repeat split; congruence|]);
    (destruct (parent_rejected _ _) as [[|]|];
       [intros [= <-]; repeat split; auto| |discriminate]);
    rewrite Hfound, Hskip; intros [= <-]; repeat split; auto.
Qed.

Lemma creating_what_exists_changes_nothing_witness :
  HandleServiceCommand storage_ok one_file_server (create_file "/file")
  = Some (mkOutcome (ServiceResponse false) one_file_server []).
Proof.
  assert (Hserve :
            exists o,
              HandleServiceCommand storage_ok one_file_server
                (create_file "/file") = Some o
              /\ reply o = ServiceResponse false)
    by (eexists; split; vm_compute; reflexivity).
  destruct Hserve as (o & Hserve & Hreply).
  destruct (creating_what_exists_changes_nothing storage_ok one_file_server
              (create_file "/file") "/file" o one_file_server_reachable
              (or_intror eq_refl) (or_introl eq_refl) Hserve)
    as (Hserver & Hsent & _).
  rewrite Hserve. f_equal. destruct o. cbn in *. congruence.
Defined.
